(** * console.js: the compose reconciler and its neighbours

    A shallow embedding of the parts of [console.js] that keep host ports
    and static IPv4 addresses of all compose projects free of conflicts
    ([scanAndFix], [writeCompose], [allocateIps], [runner]), of the proxy
    configuration save handler, of the terminal-session counter kept by the
    WebSocket server, of the single-run entry point and of the path guard
    in front of the compose CLI.

    Conventions of the embedding.
    - JavaScript strings are [string], a character being a code unit
      below 256; numbers that the code only uses as integers are [Z],
      which is what the code computes as long as they stay within
      [MAX_SAFE_INTEGER]: general statements about numbers read from
      the input assume that range.
    - Plain objects used as dictionaries are association lists when key
      order is observable ([Object.entries], [Object.keys]) and [gmap]
      when it is not ([usedHostCounts], [usedIpCounts], the file store);
      [Set] is [gset].
    - An exception is a value of [string + A] ([inl] is the message).
    - The YAML and JSON codecs, the collation order behind
      [localeCompare] and the subnet base read from the network script are
      parameters of the development. *)

From stdpp Require Import base option list sorting gmap strings pretty fin_maps fin_sets.
From Stdlib Require Import ZArith Ascii String Lia.

Local Open Scope string_scope.
Local Open Scope Z_scope.

(** ** Strings as the code uses them *)

(** [s.split(sep)] for a one-character separator. *)
Fixpoint split_on (sep : ascii) (s : string) : list string :=
  match s with
  | EmptyString => [EmptyString]
  | String c rest =>
      if Ascii.eqb c sep then EmptyString :: split_on sep rest
      else match split_on sep rest with
           | [] => [String c EmptyString]
           | h :: t => String c h :: t
           end
  end.

(** [parts.join(sep)]. *)
Fixpoint join_with (sep : string) (parts : list string) : string :=
  match parts with
  | [] => EmptyString
  | [p] => p
  | p :: ps => p +:+ sep +:+ join_with sep ps
  end.

(** [s.startsWith(p)]. *)
Definition startsWith (p s : string) : bool := String.prefix p s.

Definition is_digit (c : ascii) : bool :=
  let n := N_of_ascii c in ((48 <=? n) && (n <=? 57))%N.

Definition digit_val (c : ascii) : Z := Z.of_N (N_of_ascii c) - 48.

(** White space skipped by [parseInt], removed by [trim] and matched by
    [\s]. A character of a [string] is a code unit below 256; of the
    ECMAScript white-space and line-terminator classes these are TAB,
    LF, VT, FF, CR, the space and the no-break space U+00A0. *)
Definition is_js_space (c : ascii) : bool :=
  let n := N_of_ascii c in ((n =? 32) || ((9 <=? n) && (n <=? 13)) || (n =? 160))%N.

Fixpoint trim_start (s : string) : string :=
  match s with
  | String c rest => if is_js_space c then trim_start rest else s
  | EmptyString => EmptyString
  end.

Definition trim (s : string) : string :=
  String.rev (trim_start (String.rev (trim_start s))).

(** The digits at the front of [s], folded into [acc]; [None] when [s]
    does not start with a digit. *)
Fixpoint digits_prefix (s : string) (acc : option Z) : option Z :=
  match s with
  | String c rest =>
      if is_digit c
      then digits_prefix rest (Some (10 * default 0 acc + digit_val c))
      else acc
  | EmptyString => acc
  end.

(** [Number.MAX_SAFE_INTEGER], 2^53 - 1: up to it a double holds every
    integer, so reading such a number, adding one to it and printing
    it are exact in the code as they are on [Z]. Beyond it the code
    rounds. *)
Definition MAX_SAFE_INTEGER : Z := 2 ^ 53 - 1.

Definition safe_integer (n : Z) : Prop := Z.abs n ≤ MAX_SAFE_INTEGER.

(** [parseInt(s, 10)]; [None] is [NaN]. The value is the integer the
    digits denote; the code has the double nearest to it, which is the
    same number within [MAX_SAFE_INTEGER]. *)
Definition parseInt (s : string) : option Z :=
  match trim_start s with
  | String "-" rest => Z.opp <$> digits_prefix rest None
  | String "+" rest => digits_prefix rest None
  | t => digits_prefix t None
  end.

(** [String(n)] for an integer [n] within [MAX_SAFE_INTEGER]: its
    decimal digits. *)
Definition Number_toString (n : Z) : string := pretty n.

(** ** The allocator *)

(** [ip.split('.').slice(-1)[0]]. *)
Definition last_octet (ip : string) : string :=
  default EmptyString (last (split_on "." ip)).

(** The loop of [allocateIps]: [i] runs from [i] to 254, at most [count]
    addresses are collected. *)
Fixpoint allocateIps_loop (base : string) (used : gset string)
    (fuel : nat) (i : Z) (count : nat) : list string :=
  match fuel, count with
  | O, _ | _, O => []
  | S fuel', S count' =>
      if decide (Number_toString i ∈ used)
      then allocateIps_loop base used fuel' (i + 1) count
      else (base +:+ Number_toString i)
             :: allocateIps_loop base used fuel' (i + 1) count'
  end.

(** [allocateIps(existingIps, count)], with [NETWORK.base] as [base]. *)
Definition allocateIps (base : string) (existingIps : list string)
    (count : nat) : list string :=
  let used : gset string := list_to_set (last_octet <$> existingIps) in
  allocateIps_loop base used 253 2 count.

(** [allocateIps(existingIps, 1)[0]], as the reconciler calls it. *)
Definition nextIpv4 (base : string) (existingIps : list string) : option string :=
  head (allocateIps base existingIps 1).

(** The probe loop [while (usedHostSet.has(probe)) probe++]. A set of
    [n] ports cannot contain [n + 1] consecutive ones, hence the fuel. *)
Fixpoint probe_loop (used : gset Z) (fuel : nat) (probe : Z) : Z :=
  match fuel with
  | O => probe
  | S fuel' =>
      if decide (probe ∈ used) then probe_loop used fuel' (probe + 1)
      else probe
  end.

Definition nextHostPort (used : gset Z) : Z :=
  probe_loop used (S (size used)) 10000.

(** ** Manifest trees *)

(** JavaScript truthiness of an optional string field, and [a || b]. *)
Definition truthy (o : option string) : bool :=
  match o with
  | Some s => negb (String.eqb s EmptyString)
  | None => false
  end.

Definition js_or (a b : option string) : option string :=
  if truthy a then a else b.

(** A port entry in long form. [po_rendered] is [String(p)]; the other
    fields hold the rendering of the property when it is truthy. *)
Record port_object := PortObject {
  po_rendered : string;
  po_container : option string;
  po_target : option string;
  po_to : option string;
  po_published : option string;
  po_exposed : option string;
  po_host : option string;
  po_published_port : option string;
  po_bind : option string;
  po_address : option string
}.

(** An element of [svc.ports]: a string, an object, or a primitive that is
    not a string (a number, say), kept as its rendering [String(p)]. *)
Inductive port_entry :=
  | PStr (s : string)
  | PObj (o : port_object)
  | PPrim (rendered : string).

(** A value under [svc.networks]: a string, an object with the two
    spellings of the address and its other keys as an opaque bag, or
    [null]. *)
Inductive net_value :=
  | NetStr (s : string)
  | NetObj (ipv4_address ipv4Address : option string) (others : string)
  | NetNull.

Record service := Service {
  svc_ports : option (list port_entry);
  svc_networks : option (list (string * net_value));
  svc_ipv4_address : option string;
  svc_ipv4Address : option string;
  svc_others : string
}.

(** A value of the top-level [networks] block. *)
Inductive top_network :=
  | TopNull
  | TopExternal (name : option string)
  | TopOther (raw : string).

Record compose := Compose {
  services : list (string * service);
  networks : option (list (string * top_network));
  others : string
}.

(** What [YAML.parse] yields: a mapping, or a truthy scalar. *)
Inductive parsed :=
  | Doc (c : compose)
  | Scalar (rendered : string).

#[global] Instance port_object_eq_dec : EqDecision port_object.
Proof. solve_decision. Defined.
#[global] Instance port_entry_eq_dec : EqDecision port_entry.
Proof. solve_decision. Defined.
#[global] Instance net_value_eq_dec : EqDecision net_value.
Proof. solve_decision. Defined.
#[global] Instance service_eq_dec : EqDecision service.
Proof. solve_decision. Defined.
#[global] Instance top_network_eq_dec : EqDecision top_network.
Proof. solve_decision. Defined.
#[global] Instance compose_eq_dec : EqDecision compose.
Proof. solve_decision. Defined.
#[global] Instance parsed_eq_dec : EqDecision parsed.
Proof. solve_decision. Defined.

(** [String(p)]. *)
Definition String_of_port (p : port_entry) : string :=
  match p with
  | PStr s => s
  | PObj o => po_rendered o
  | PPrim r => r
  end.

(** [obj[k] = v] on an object kept as an association list: an existing
    key keeps its place, a new key goes last. *)
Fixpoint alist_set {A} (k : string) (v : A) (l : list (string * A)) : list (string * A) :=
  match l with
  | [] => [(k, v)]
  | (k', v') :: rest =>
      if decide (k' = k) then (k, v) :: rest else (k', v') :: alist_set k v rest
  end.

Fixpoint alist_get {A} (k : string) (l : list (string * A)) : option A :=
  match l with
  | [] => None
  | (k', v') :: rest => if decide (k' = k) then Some v' else alist_get k rest
  end.

(** ** The census (first pass of [scanAndFix]) *)

Record census := Census {
  usedHostCounts : gmap Z nat;
  usedIpCounts : gmap string nat;
  usedHostSet : gset Z
}.

Definition census0 : census := Census ∅ ∅ ∅.

Definition hostCount (c : census) (h : Z) : nat := default 0%nat (usedHostCounts c !! h).
Definition ipCount (c : census) (ip : string) : nat := default 0%nat (usedIpCounts c !! ip).

(** [usedIpCounts[ip] = (usedIpCounts[ip] || 0) + 1]. *)
Definition bump_ip (ip : string) (c : census) : census :=
  Census (usedHostCounts c) (<[ip := S (ipCount c ip)]> (usedIpCounts c)) (usedHostSet c).

Definition bump_ip_if (o : option string) (c : census) : census :=
  match o with
  | Some ip => if truthy o then bump_ip ip c else c
  | None => c
  end.

(** The host port the census reads off an entry:
    [parts.length === 3 ? parseInt(parts[1], 10) : parseInt(parts[0], 10)]. *)
Definition census_host (p : port_entry) : option Z :=
  match split_on ":" (String_of_port p) with
  | [_; h; _] => parseInt h
  | h :: _ => parseInt h
  | [] => None
  end.

Definition census_port (c : census) (p : port_entry) : census :=
  match census_host p with
  | Some host =>
      Census (<[host := S (hostCount c host)]> (usedHostCounts c))
             (usedIpCounts c)
             ({[host]} ∪ usedHostSet c)
  | None => c
  end.

(** [isIpv4] as [scanAndFix] sees it. The only binding of that name in
    the file is a block-scoped [const] inside the WebSocket handler, so
    inside [scanAndFix] the identifier is unbound and calling it throws
    a [ReferenceError] with this message. *)
Definition isIpv4 (ip : string) : string + bool :=
  inl "isIpv4 is not defined".

(** The loop over [Object.keys(svc.networks)] of the first pass. The
    census is updated in place, so what was counted before an exception
    stays counted: the result carries the census and the exception. *)
Fixpoint census_networks (svc : service) (nets : list (string * net_value))
    (c : census) : census * option string :=
  match nets with
  | [] => (c, None)
  | (_, net) :: rest =>
      let after_net : census * option string :=
        match net with
        | NetStr s =>
            match isIpv4 (trim s) with
            | inl e => (c, Some e)
            | inr true => (bump_ip (trim s) c, None)
            | inr false => (c, None)
            end
        | NetObj a b _ =>
            let c1 := if truthy a then bump_ip_if (js_or a b) c else c in
            (bump_ip_if b c1, None)
        | NetNull => (c, None)
        end in
      match after_net with
      | (c', Some e) => (c', Some e)
      | (c', None) =>
          census_networks svc rest
            (bump_ip_if (svc_ipv4Address svc) (bump_ip_if (svc_ipv4_address svc) c'))
      end
  end.

Definition census_service (c : census) (svc : service) : census * option string :=
  let c1 := foldl census_port c (default [] (svc_ports svc)) in
  match census_networks svc (default [] (svc_networks svc)) c1 with
  | (c2, Some e) => (c2, Some e)
  | (c2, None) =>
      (bump_ip_if (svc_ipv4Address svc) (bump_ip_if (svc_ipv4_address svc) c2), None)
  end.

Fixpoint census_services (c : census) (svcs : list (string * service)) : census * option string :=
  match svcs with
  | [] => (c, None)
  | (_, svc) :: rest =>
      match census_service c svc with
      | (c', Some e) => (c', Some e)
      | (c', None) => census_services c' rest
      end
  end.

(** [usedNets]: the network names the services refer to, each once, in
    order of first appearance. *)
Definition add_once (l : list string) (k : string) : list string :=
  if decide (k ∈ l) then l else (l ++ [k])%list.

Definition usedNets_of (svcs : list (string * service)) : list string :=
  foldl (λ acc '(_, svc), foldl add_once acc (fst <$> default [] (svc_networks svc)))
        [] svcs.

Definition services_of (obj : parsed) : list (string * service) :=
  match obj with
  | Doc c => services c
  | Scalar _ => []
  end.

(** An element of [composeData]. *)
Record item := Item {
  item_dir : string;
  item_file : string;
  item_obj : parsed;
  item_usedNets : list string
}.

(** ** The fix (second pass of [scanAndFix]) *)

(** Moving a mapping off [hostPort]: the new host port joins
    [usedHostSet] and [usedHostCounts[hostPort]] becomes
    [(usedHostCounts[hostPort] || 1) - 1]. *)
Definition reassign_host (c : census) (hostPort newHost : Z) : census :=
  let n := hostCount c hostPort in
  Census (<[hostPort := ((if decide (n = 0%nat) then 1%nat else n) - 1)%nat]> (usedHostCounts c))
         (usedIpCounts c)
         ({[newHost]} ∪ usedHostSet c).

(** The body of the loop over [svc.ports]: the census after the entry and
    the string pushed on [newPorts]. *)
Definition fix_port (c : census) (p : port_entry) : census * string :=
  match p with
  | PStr original =>
      match split_on ":" original with
      | [bind; h; container] =>
          match parseInt h with
          | Some hostPort =>
              if decide (1 < hostCount c hostPort)%nat then
                let newHost := nextHostPort (usedHostSet c) in
                (reassign_host c hostPort newHost,
                 bind +:+ ":" +:+ Number_toString newHost +:+ ":" +:+ container)
              else (c, original)
          | None => (c, original)
          end
      | [h; container] =>
          match parseInt h with
          | Some hostPort =>
              if decide (1 < hostCount c hostPort)%nat then
                let newHost := nextHostPort (usedHostSet c) in
                (reassign_host c hostPort newHost,
                 Number_toString newHost +:+ ":" +:+ container)
              else (c, original)
          | None => (c, original)
          end
      | _ => (c, original)
      end
  | _ => (c, String_of_port p)
  end.

Fixpoint fix_ports (c : census) (ports : list port_entry) : census * list string :=
  match ports with
  | [] => (c, [])
  | p :: rest =>
      let '(c1, s) := fix_port c p in
      let '(c2, ss) := fix_ports c1 rest in
      (c2, s :: ss)
  end.

(** [Object.keys(usedIpCounts)]; [allocateIps] only turns it into a set. *)
Definition ip_keys (c : census) : list string := elements (dom (usedIpCounts c)).

(** [svc.networks[k] = v] where [k] is a key of the object. *)
Definition set_net (k : string) (v : net_value) (svc : service) : service :=
  Service (svc_ports svc) (alist_set k v <$> svc_networks svc)
          (svc_ipv4_address svc) (svc_ipv4Address svc) (svc_others svc).

(** The body of the loop over [Object.keys(svc.networks)] in the second
    pass. The state is the census, the service as mutated so far and its
    copy in the mapper; [base] is [NETWORK.base]. *)
Definition fix_net (base : string) (netName : string) (net : net_value)
    (st : census * service * service) : string + (census * service * service) :=
  let '(c, svc, m) := st in
  match net with
  | NetStr s =>
      match isIpv4 (trim s) with
      | inl e => inl e
      | inr true =>
          if decide (1 < ipCount c (trim s))%nat then
            match nextIpv4 base (ip_keys c) with
            | Some newIp =>
                let c1 := Census (usedHostCounts c)
                  (<[trim s := ((if decide (ipCount c (trim s) = 0%nat) then 1%nat
                                 else ipCount c (trim s)) - 1)%nat]> (usedIpCounts c))
                  (usedHostSet c) in
                inr (bump_ip newIp c1,
                     set_net netName (NetObj (Some newIp) None EmptyString) svc,
                     set_net netName (NetStr newIp) m)
            | None => inr (c, svc, m)
            end
          else inr (c, set_net netName (NetObj (Some (trim s)) None EmptyString) svc,
                    set_net netName (NetStr (trim s)) m)
      | inr false => inr (c, svc, set_net netName net m)
      end
  | NetObj a b o =>
      if truthy a then
        match js_or a b with
        | Some cur =>
            if decide (1 < ipCount c cur)%nat then
              match nextIpv4 base (ip_keys c) with
              | Some newIp =>
                  inr (bump_ip newIp c,
                       set_net netName (NetObj (Some newIp) b o) svc,
                       set_net netName (NetStr newIp) m)
              | None => inr (c, svc, m)
              end
            else inr (c, svc, set_net netName (NetStr cur) m)
        | None => inr (c, svc, m)
        end
      else if truthy b then
        match b with
        | Some cur =>
            let '(c1, svc1) :=
              if decide (1 < ipCount c cur)%nat then
                match nextIpv4 base (ip_keys c) with
                | Some newIp =>
                    (bump_ip newIp c, set_net netName (NetObj a (Some newIp) o) svc)
                | None => (c, svc)
                end
              else (c, svc) in
            (* serviceMapper[name] = JSON.parse(JSON.stringify(svc)) *)
            inr (c1, svc1, svc1)
        | None => inr (c, svc, m)
        end
      else inr (c, svc, m)
  | NetNull => inr (c, svc, m)
  end.

Fixpoint fix_nets (base : string) (nets : list (string * net_value))
    (st : census * service * service) : string + (census * service * service) :=
  match nets with
  | [] => inr st
  | (netName, net) :: rest =>
      match fix_net base netName net st with
      | inl e => inl e
      | inr st' => fix_nets base rest st'
      end
  end.

(** One turn of the loop over [Object.entries(services)]: the census, the
    service as it stands in [obj] afterwards, and [serviceMapper[name]]. *)
Definition fix_service (base : string) (c : census) (svc : service)
    : string + (census * service * service) :=
  let '(c1, svc1, m1) :=
    match svc_ports svc with
    | Some ports =>
        let '(c1, newPorts) := fix_ports c ports in
        let ports' := Some (PStr <$> newPorts) in
        (c1,
         Service ports' (svc_networks svc) (svc_ipv4_address svc)
                 (svc_ipv4Address svc) (svc_others svc),
         Service ports' (svc_networks svc) (svc_ipv4_address svc)
                 (svc_ipv4Address svc) (svc_others svc))
    | None =>
        (c, svc,
         Service (Some []) (svc_networks svc) (svc_ipv4_address svc)
                 (svc_ipv4Address svc) (svc_others svc))
    end in
  match svc_networks svc with
  | Some nets => fix_nets base nets (c1, svc1, m1)
  | None => inr (c1, svc1, m1)
  end.

Fixpoint fix_services (base : string) (c : census) (svcs : list (string * service))
    : string + (census * list (string * service) * list (string * service)) :=
  match svcs with
  | [] => inr (c, [], [])
  | (name, svc) :: rest =>
      match fix_service base c svc with
      | inl e => inl e
      | inr (c1, svc', m) =>
          match fix_services base c1 rest with
          | inl e => inl e
          | inr (c2, svcs', ms) => inr (c2, (name, svc') :: svcs', (name, m) :: ms)
          end
      end
  end.

(** The name the code special-cases in the top-level block. *)
Definition default_net : string := "neuxbane-core-net".

Definition top_truthy (o : option top_network) : bool :=
  match o with
  | Some TopNull | None => false
  | Some _ => true
  end.

(** The three steps on [obj.networks]: default when missing, add the
    networks the services refer to, prune the others (the default name
    apart), and drop the block when nothing is left. *)
Definition ensure_networks (usedNets : list string)
    (nets : option (list (string * top_network))) : option (list (string * top_network)) :=
  let nets0 := default [(default_net, TopExternal None)] nets in
  let nets1 :=
    foldl (λ acc netName,
             if top_truthy (alist_get netName acc) then acc
             else alist_set netName (TopExternal (Some netName)) acc)
          nets0 usedNets in
  let nets2 :=
    filter (λ kv, fst kv ∈ usedNets ∨ fst kv = default_net) nets1 in
  match nets2 with
  | [] => None
  | _ :: _ => Some nets2
  end.

(** The second pass on one element of [composeData], up to the call of
    [writeCompose]: the census, the tree to write and [serviceMapper].
    A scalar document has no [services]; creating the property
    [networks] on it throws (the file is a module, hence strict). *)
Definition fix_item (base : string) (c : census) (it : item)
    : string + (census * compose * list (string * service)) :=
  match item_obj it with
  | Doc obj =>
      match fix_services base c (services obj) with
      | inl e => inl e
      | inr (c1, svcs', serviceMapper) =>
          inr (c1,
               Compose svcs' (ensure_networks (item_usedNets it) (networks obj)) (others obj),
               serviceMapper)
      end
  | Scalar _ => inl "TypeError: Cannot create property 'networks' on a primitive"
  end.

(** ** [writeCompose]: what is written *)

(** [cleaned] for one entry of [svc.ports]: strings stay, objects become
    the short form when they name a container port, the rest is skipped. *)
Definition sanitize_port (p : port_entry) : option string :=
  match p with
  | PStr s => Some s
  | PObj o =>
      let container :=
        default EmptyString
          (js_or (po_container o) (js_or (po_target o) (js_or (po_to o)
             (js_or (po_published o) (js_or (po_exposed o) (Some EmptyString)))))) in
      let host := js_or (po_host o) (js_or (po_published o) (po_published_port o)) in
      let bind := js_or (po_bind o) (po_address o) in
      if String.eqb container EmptyString then None
      else match truthy bind, truthy host, bind, host with
           | true, true, Some b, Some h => Some (b +:+ ":" +:+ h +:+ ":" +:+ container)
           | _, true, _, Some h => Some (h +:+ ":" +:+ container)
           | _, _, _, _ => Some container
           end
  | PPrim _ => None
  end.

(** [/^\d+\.\d+\.\d+\.\d+$/.test(s)]. *)
Definition all_digits (s : string) : bool :=
  negb (String.eqb s EmptyString) && forallb is_digit (list_ascii_of_string s).

Definition dotted_quad (s : string) : bool :=
  match split_on "." s with
  | [a; b; c; d] => all_digits a && all_digits b && all_digits c && all_digits d
  | _ => false
  end.

Definition sanitize_net (nv : net_value) : net_value :=
  match nv with
  | NetStr s =>
      if negb (String.eqb (trim s) EmptyString) && dotted_quad (trim s)
      then NetObj (Some (trim s)) None EmptyString
      else nv
  | _ => nv
  end.

Definition sanitize_ports (ports : list port_entry) : list port_entry :=
  PStr <$> omap sanitize_port ports.

Definition sanitize_nets (nets : list (string * net_value)) : list (string * net_value) :=
  prod_map id sanitize_net <$> nets.

Definition sanitize_service (svc : service) : service :=
  Service (sanitize_ports <$> svc_ports svc) (sanitize_nets <$> svc_networks svc)
          (svc_ipv4_address svc) (svc_ipv4Address svc) (svc_others svc).

Definition sanitize (obj : compose) : compose :=
  Compose (prod_map id sanitize_service <$> services obj) (networks obj) (others obj).

(** ** Files, logs and exceptions *)

Inductive io_event {text : Type} :=
  | Stat (path : string)
  | Read (path : string)
  | Write (path : string) (content : text)
  | Unlink (path : string)
  | Log (args : list string).
Arguments io_event : clear implicits.

(** The file store, the paths whose write fails, and what was done so
    far, oldest first. *)
Record world {text : Type} := World {
  fs : gmap string text;
  unwritable : gset string;
  trace : list (io_event text)
}.
Arguments world : clear implicits.
Arguments World {text} fs unwritable trace.

(** A computation on the world that returns or throws. *)
Definition IO (text A : Type) : Type := world text → world text * (string + A).

Definition io_ret {text A} (a : A) : IO text A := λ w, (w, inr a).

Definition io_bind {text A B} (m : IO text A) (k : A → IO text B) : IO text B :=
  λ w, match m w with
       | (w', inl e) => (w', inl e)
       | (w', inr a) => k a w'
       end.

Definition throw {text A} (e : string) : IO text A := λ w, (w, inl e).

(** [try { m } catch (e) { ... }] with the outcome handed to the caller. *)
Definition attempt {text A} (m : IO text A) : IO text (string + A) :=
  λ w, let '(w', r) := m w in (w', inr r).

Notation "x <- m ;; k" := (io_bind m (λ x, k))
  (at level 100, m at next level, right associativity).
Notation "m ;;; k" := (io_bind m (λ _, k))
  (at level 100, right associativity).

Definition emit {text} (e : io_event text) : IO text unit :=
  λ w, (World (fs w) (unwritable w) (trace w ++ [e])%list, inr tt).

Definition log {text} (args : list string) : IO text unit := emit (Log args).

Definition existsSync {text} (path : string) : IO text bool :=
  λ w, (World (fs w) (unwritable w) (trace w ++ [Stat path])%list,
        inr (bool_decide (is_Some (fs w !! path)))).

Definition readFileSync {text} (path : string) : IO text text :=
  λ w, match fs w !! path with
       | Some content => (World (fs w) (unwritable w) (trace w ++ [Read path])%list, inr content)
       | None => (w, inl "ENOENT")
       end.

Definition writeFileSync {text} (path : string) (content : text) : IO text unit :=
  λ w, if decide (path ∈ unwritable w) then (w, inl "EACCES")
       else (World (<[path := content]> (fs w)) (unwritable w)
                   (trace w ++ [Write path content])%list, inr tt).

Definition unlinkSync {text} (path : string) : IO text unit :=
  λ w, if decide (path ∈ unwritable w) then (w, inl "EACCES")
       else (World (delete path (fs w)) (unwritable w) (trace w ++ [Unlink path])%list, inr tt).

(** The projects with what the tick shows for each: [{ file, services }]. *)
Definition mapper_t : Type := list (string * (string * list (string * service))).

Definition empty_compose : compose := Compose [] None EmptyString.

Section Reconciler.

(** File contents, the YAML codec ([None] from the parser is a falsy
    document, [inl] a syntax error), the rendering of the mapper
    ([JSON.stringify(mapper, null, 2) + '\n']), the order
    [a.localeCompare(b) <= 0], the first three fields of the subnet
    joined by dots, the directory of the script ([__dirname]) and what
    [findProjectDirs(WORKSPACE_ROOT)] resolves to (the walk reads
    directory listings only, which no tick changes). *)
Context {text : Type} `{!EqDecision text}.
Context (YAML_stringify : compose → text).
Context (YAML_parse : text → string + option parsed).
Context (JSON_mapper : mapper_t → text).
Context (dir_le : string → string → bool).
Context (NETWORK_prefix : string).
Context (script_dir : string).
Context (projectDirs : string + list string).

(** [NETWORK.base]: [getNetworkConfig] ends it with a dot. *)
Definition NETWORK_base : string := NETWORK_prefix +:+ ".".

(** [path.join(__dirname, 'mapper.js')] and
    [path.join(__dirname, 'mapper.json')]. *)
Definition mapper_js : string := script_dir +:+ "/mapper.js".
Definition mapper_json : string := script_dir +:+ "/mapper.json".

(** [path.join(dir, 'docker-compose.yml')]. *)
Definition compose_file (dir : string) : string := dir +:+ "/docker-compose.yml".

(** [writeCompose(filePath, obj)]: [false] without a write when the file
    already holds the text of [obj], otherwise the text of the sanitized
    tree is written. *)
Definition writeCompose (filePath : string) (obj : compose) : IO text bool :=
  let yamlText := YAML_stringify obj in
  present <- existsSync filePath ;;
  same <- (if present : bool
           then cur <- readFileSync filePath ;; io_ret (bool_decide (cur = yamlText))
           else io_ret false) ;;
  if same : bool then io_ret false
  else
    let finalYaml := YAML_stringify (sanitize obj) in
    writeFileSync filePath finalYaml ;;; io_ret true.

(** The body of the first loop of [scanAndFix]. *)
Definition scan_project (st : census * list item) (dir : string)
    : IO text (census * list item) :=
  let file := compose_file dir in
  r <- attempt (readFileSync file) ;;
  match r with
  | inl e => log ["failed parse"; file; e] ;;; io_ret st
  | inr content =>
      match YAML_parse content with
      | inl e => log ["failed parse"; file; e] ;;; io_ret st
      | inr doc =>
          let obj := default (Doc empty_compose) doc in
          match census_services (fst st) (services_of obj) with
          | (c', Some e) => log ["failed parse"; file; e] ;;; io_ret (c', snd st)
          | (c', None) =>
              io_ret (c', (snd st ++ [Item dir file obj (usedNets_of (services_of obj))])%list)
          end
      end
  end.

Fixpoint io_foldl {A B} (f : A → B → IO text A) (a : A) (l : list B) : IO text A :=
  match l with
  | [] => io_ret a
  | b :: rest => a' <- f a b ;; io_foldl f a' rest
  end.

Definition item_le (a b : item) : Prop := Is_true (dir_le (item_dir a) (item_dir b)).

#[local] Instance item_le_dec : RelDecision item_le.
Proof. intros a b. unfold item_le. apply _. Defined.

(** The body of the second loop of [scanAndFix]. *)
Definition fix_and_write (st : census * mapper_t) (it : item)
    : IO text (census * mapper_t) :=
  match fix_item NETWORK_base (fst st) it with
  | inl e => throw e
  | inr (c', obj', serviceMapper) =>
      r <- attempt (writeCompose (item_file it) obj') ;;
      match r with
      | inr _ =>
          log ["updated"; item_file it] ;;;
          io_ret (c', alist_set (item_dir it) (item_file it, serviceMapper) (snd st))
      | inl e =>
          log ["write failed"; item_file it; e] ;;; io_ret (c', snd st)
      end
  end.

Definition write_mapper (mapper : mapper_t) : IO text unit :=
  let content := JSON_mapper mapper in
  present <- existsSync mapper_json ;;
  (if present : bool
   then cur <- readFileSync mapper_json ;;
        if bool_decide (cur = content) then io_ret tt
        else writeFileSync mapper_json content
   else writeFileSync mapper_json content) ;;;
  log ["wrote mapper.json"].

(** The end of [scanAndFix]: the legacy [mapper.js] goes, [mapper.json]
    is written; neither step lets an exception out. *)
Definition emit_mapper (mapper : mapper_t) : IO text unit :=
  attempt (present <- existsSync mapper_js ;;
           if present : bool then unlinkSync mapper_js else io_ret tt) ;;;
  r <- attempt (write_mapper mapper) ;;
  match r with
  | inl e => log ["failed write mapper.json"; e]
  | inr _ => io_ret tt
  end.

Definition scanAndFix : IO text unit :=
  log ["scan start"] ;;;
  match projectDirs with
  | inl e => throw e
  | inr dirs =>
      st1 <- io_foldl scan_project (census0, []) dirs ;;
      let composeData := merge_sort item_le (snd st1) in
      st2 <- io_foldl fix_and_write (fst st1, []) composeData ;;
      emit_mapper (snd st2) ;;;
      log ["scan done"]
  end.

(** [runner()]: the tick. [activeTerminalCount] is the global of that
    name, [None] while nobody has set it. *)
Definition runner (activeTerminalCount : option Z) : IO text unit :=
  λ w,
    let body : IO text unit :=
      match activeTerminalCount with
      | Some n =>
          if decide (0 < n)
          then log ["skipping scan because activeTerminalCount=" +:+ Number_toString n]
          else scanAndFix
      | None => scanAndFix
      end in
    match body w with
    | (w', inl e) => log ["scan error"; e] w'
    | (w', inr _) => (w', inr tt)
    end.

(** The entry point with [SINGLE_RUN] set: the world at exit and the
    exit code. The WebSocket server is not started in this mode, so the
    counter is never set. *)
Definition single_run (w : world text) : world text * Z :=
  match runner None w with
  | (w', inr _) => (fst (log ["single run finished"] w'), 0)
  | (w', inl e) => (fst (log ["single run error"; e] w'), 1)
  end.

(** ** Saving the proxy configuration ([POST /api/nginx/save]) *)

(** What an [execFile] callback rejects with: [{ err, stdout, stderr }]. *)
Record exec_failure := ExecFailure {
  err_message : string;
  failure_stdout : string;
  failure_stderr : string
}.

(** [formatExecError(e)] on such an object: the message, the two output
    streams, and [cmd] and [args], which the object does not carry. *)
Record exec_report := ExecReport {
  report_error : string;
  report_stdout : string;
  report_stderr : string;
  report_cmd : option string;
  report_args : option (list string)
}.

Definition formatExecError (e : exec_failure) : exec_report :=
  ExecReport
    (if String.eqb (err_message e) EmptyString then "[object Object]" else err_message e)
    (failure_stdout e) (failure_stderr e) None None.

(** The JSON bodies the handler answers with. *)
Inductive save_body :=
  | BodyError (error : string)
  | BodyFailed (phase : string) (result : exec_report)
  | BodyApplied (method : option string).

Record response := Response { status : Z; body : save_body }.

Definition copyFileSync {text} (src dst : string) : IO text unit :=
  λ w, match fs w !! src with
       | None => (w, inl "ENOENT")
       | Some content =>
           if decide (dst ∈ unwritable w) then (w, inl "EACCES")
           else (World (<[dst := content]> (fs w)) (unwritable w)
                       (trace w ++ [Read src; Write dst content])%list, inr tt)
       end.

(** [try { if (fs.existsSync(tmp)) fs.unlinkSync(tmp); } catch (e) {}]. *)
Definition remove_backup {text} (tmp : string) : IO text unit :=
  attempt (present <- existsSync tmp ;;
           if present : bool then unlinkSync tmp else io_ret tt) ;;;
  io_ret tt.

Section ProxySave.

(** The live configuration path, [Date.now()] rendered, and the three
    external commands. While the handler awaits a command, the command
    and whatever else runs on the machine may change files and which
    of them can be written: a command takes the world it is started in
    and gives the world the handler goes on in, with what its callback
    rejects with, if it does. *)
Context (conf : string) (now : string).
Context (nginx_test nginx_reload systemctl_reload :
           world string → world string * option exec_failure).

Definition run_tool (tool : world string → world string * option exec_failure)
    : IO string (exec_failure + unit) :=
  λ w, let '(w', failed) := tool w in
       (w', inr (match failed with Some e => inl e | None => inr tt end)).

(** The backup of the live file, taken when there is one: [backedUp]. *)
Definition take_backup (tmp : string) : IO string bool :=
  r <- attempt (present <- existsSync conf ;;
                if present : bool
                then copyFileSync conf tmp ;;; io_ret true
                else io_ret false) ;;
  io_ret (match r with inr b => b | inl _ => false end).

(** What both failure branches do: the backup is copied back when one
    was taken, with the error of the copy ignored, and removed. *)
Definition roll_back (backedUp : bool) (tmp : string) : IO string unit :=
  (if backedUp then attempt (copyFileSync tmp conf) ;;; io_ret tt else io_ret tt) ;;;
  remove_backup tmp.

(** The handler; [content] is [req.body.content] when it is a string. *)
Definition nginx_save (content : option string) : world string → world string * response :=
  λ w,
    match content with
    | None => (w, Response 400 (BodyError "content required"))
    | Some content =>
        let tmp := conf +:+ ".tmp." +:+ now in
        let handler : IO string response :=
          backedUp <- take_backup tmp ;;
          writeFileSync conf content ;;;
          tested <- run_tool nginx_test ;;
          match tested with
          | inl e =>
              roll_back backedUp tmp ;;;
              io_ret (Response 500 (BodyFailed "test" (formatExecError e)))
          | inr _ =>
              reloaded <- run_tool nginx_reload ;;
              match reloaded with
              | inr _ => remove_backup tmp ;;; io_ret (Response 200 (BodyApplied None))
              | inl e2 =>
                  viaSystemctl <- run_tool systemctl_reload ;;
                  match viaSystemctl with
                  | inr _ =>
                      remove_backup tmp ;;;
                      io_ret (Response 200 (BodyApplied (Some "systemctl")))
                  | inl _ =>
                      roll_back backedUp tmp ;;;
                      io_ret (Response 500 (BodyFailed "reload" (formatExecError e2)))
                  end
              end
          end in
        match handler w with
        | (w', inr res) => (w', res)
        | (w', inl e) => (w', Response 500 (BodyError e))
        end
    end.

End ProxySave.

(** ** The terminal counter of the WebSocket server *)

(** What a connection to [/ws/attach] asks for. *)
Inductive ws_action := ActExec | ActInspect | ActLog | ActStopRestart.

(** A connection is counted when it arrives. Until its exit and close
    handlers are registered it is [Pending] (for [exec] and [inspect]
    that happens after an awaited compose command); [Live] carries the
    flag [sessionClosed]; [Refused] connections were counted down on the
    spot and never got handlers. *)
Inductive conn_phase :=
  | Pending
  | Live (sessionClosed : bool)
  | Refused.

Record conn := Conn {
  conn_action : ws_action;
  conn_phase_of : conn_phase;
  socket_open : bool;
  pty_running : bool
}.

Record ws_state := WsState {
  activeTerminalCount : option Z;
  conns : list conn
}.

Inductive ws_event :=
  | Connect (a : ws_action)
  | Refuse (id : nat)
  | Establish (id : nat)
  | PtyExit (id : nat)
  | SocketClose (id : nat).

(** [globalThis.activeTerminalCount = Math.max(0, (globalThis.activeTerminalCount||0) - 1)]. *)
Definition decrement (count : option Z) : option Z :=
  Some (Z.max 0 (default 0 count - 1)).

(** [if (typeof globalThis.activeTerminalCount !== 'number') ... = 0; ...++]. *)
Definition increment (count : option Z) : option Z :=
  Some (default 0 count + 1).

(** [onCloseCleanup] of a live session: the once-flag, the kill of the
    child, the decrement. *)
Definition onCloseCleanup (id : nat) (s : ws_state) : ws_state :=
  match conns s !! id with
  | Some (Conn a (Live false) so _) =>
      WsState (decrement (activeTerminalCount s))
              (<[id := Conn a (Live true) so false]> (conns s))
  | _ => s
  end.

Definition set_conn (id : nat) (c : conn) (s : ws_state) : ws_state :=
  WsState (activeTerminalCount s) (<[id := c]> (conns s)).

(** One event of the server, handled to completion. *)
Definition ws_step (s : ws_state) (ev : ws_event) : ws_state :=
  match ev with
  | Connect a =>
      WsState (increment (activeTerminalCount s))
              (conns s ++ [Conn a Pending true false])%list
  | Refuse id =>
      match conns s !! id with
      | Some (Conn a Pending _ _) =>
          WsState (decrement (activeTerminalCount s))
                  (<[id := Conn a Refused false false]> (conns s))
      | _ => s
      end
  | Establish id =>
      match conns s !! id with
      | Some (Conn a Pending so _) => set_conn id (Conn a (Live false) so true) s
      | _ => s
      end
  | SocketClose id =>
      match conns s !! id with
      | Some (Conn a ph true pr) =>
          let s1 := set_conn id (Conn a ph false pr) s in
          match ph with
          | Live _ => onCloseCleanup id s1
          | _ => s1
          end
      | _ => s
      end
  | PtyExit id =>
      match conns s !! id with
      | Some (Conn a (Live closed) so true) =>
          match a with
          | ActInspect =>
              (* the follow loop: respawn unless closed or the socket is gone *)
              set_conn id (Conn a (Live closed) so (negb closed && so)) s
          | _ =>
              (* onCloseCleanup(); ws.close() *)
              let s1 := onCloseCleanup id (set_conn id (Conn a (Live closed) so false) s) in
              match conns s1 !! id with
              | Some (Conn a' ph' _ pr') => set_conn id (Conn a' ph' false pr') s1
              | None => s1
              end
          end
      | _ => s
      end
  end.

Definition ws_run (s : ws_state) (evs : list ws_event) : ws_state := foldl ws_step s evs.

Definition ws_init : ws_state := WsState None [].

(** A connection that still holds a socket or a child. *)
Definition conn_exists (c : conn) : bool := socket_open c || pty_running c.

(** ** The path guard of the compose CLI *)

(** [normalizeString] of Node's [path]: empty and [.] segments vanish,
    [..] removes the segment before it, if any. [acc] is reversed. *)
Fixpoint normalize_segments (acc : list string) (segs : list string) : list string :=
  match segs with
  | [] => rev acc
  | s :: rest =>
      if decide (s = EmptyString ∨ s = ".") then normalize_segments acc rest
      else if decide (s = "..") then normalize_segments (tail acc) rest
      else normalize_segments (s :: acc) rest
  end.

Definition path_isAbsolute (p : string) : bool := startsWith "/" p.

(** [path.resolve(root, p)] for an absolute [root], as segments. *)
Definition path_resolve (root p : string) : list string :=
  if path_isAbsolute p then normalize_segments [] (split_on "/" p)
  else normalize_segments [] (split_on "/" root ++ split_on "/" p)%list.

Definition render_path (segs : list string) : string := "/" +:+ join_with "/" segs.

Fixpoint strip_common (from to : list string) : list string * list string :=
  match from, to with
  | f :: from', t :: to' =>
      if decide (f = t) then strip_common from' to' else (from, to)
  | _, _ => (from, to)
  end.

(** [path.relative(from, to)] on resolved paths. *)
Definition path_relative (from to : list string) : string :=
  let '(up, down) := strip_common from to in
  join_with "/" (((λ _, "..") <$> up) ++ down)%list.

Section PathGuard.

Context (WORKSPACE_ROOT : string).

(** [sanitizePath(inputPath)] for a string; [None] is [null]. *)
Definition sanitizePath (inputPath : string) : option string :=
  if String.eqb inputPath EmptyString then None
  else
    let resolved := path_resolve WORKSPACE_ROOT inputPath in
    let relative := path_relative (path_resolve WORKSPACE_ROOT EmptyString) resolved in
    if startsWith ".." relative || path_isAbsolute relative then None
    else Some (render_path resolved).

(** What [runCompose] does with its arguments: reject, or run
    [docker compose] and, when there is no [docker] binary, the legacy
    [docker-compose]. *)
Inductive compose_outcome :=
  | Rejected (message : string)
  | Invoked (first fallback : string * list string).

Definition runCompose (exists_ : string → bool) (file : string) (args : list string)
    : compose_outcome :=
  match sanitizePath file with
  | None => Rejected "Invalid file path"
  | Some safePath =>
      if exists_ safePath
      then Invoked ("docker", "compose" :: "-f" :: safePath :: args)
                   ("docker-compose", "-f" :: safePath :: args)
      else Rejected "Compose file not found"
  end.

End PathGuard.

(** ** The restart and stop actions of [/ws/attach] *)

(** [JSON.stringify(s)] for a string: quotes around it, a backslash
    before every quote and backslash (control characters, which the code
    does not meet in paths and service names, are left alone). *)
Definition double_quote : string := String "034"%char EmptyString.

Fixpoint json_escape (s : string) : string :=
  match s with
  | EmptyString => EmptyString
  | String c rest =>
      if Ascii.eqb c "034"%char || Ascii.eqb c "092"%char
      then String "092"%char (String c (json_escape rest))
      else String c (json_escape rest)
  end.

Definition JSON_stringify (s : string) : string :=
  double_quote +:+ json_escape s +:+ double_quote.

(** [normalizeString] for a relative path: [..] at the front stays. *)
Fixpoint normalize_relative (acc : list string) (segs : list string) : list string :=
  match segs with
  | [] => rev acc
  | s :: rest =>
      if decide (s = EmptyString ∨ s = ".") then normalize_relative acc rest
      else if decide (s = "..") then
        match acc with
        | a :: acc' =>
            if decide (a = "..") then normalize_relative (".." :: acc) rest
            else normalize_relative acc' rest
        | [] => normalize_relative [".."] rest
        end
      else normalize_relative (s :: acc) rest
  end.

(** [path.join(a, b)] for non-empty [a] and [b], [b] without a slash at
    its end. *)
Definition path_join (a b : string) : string :=
  let joined := a +:+ "/" +:+ b in
  if path_isAbsolute joined then render_path (normalize_segments [] (split_on "/" joined))
  else match normalize_relative [] (split_on "/" joined) with
       | [] => "."
       | segs => join_with "/" segs
       end.

(** The loop of [path.dirname] from the last character down to the
    second, on the reversed string: slashes at the end are skipped, the
    first slash after another character ends the directory. *)
Fixpoint dirname_scan (matchedSlash : bool) (reversed : string) : option string :=
  match reversed with
  | EmptyString => None
  | String c rest =>
      if Ascii.eqb c "/"%char
      then if matchedSlash then dirname_scan true rest else Some rest
      else dirname_scan false rest
  end.

Definition path_dirname (p : string) : string :=
  match p with
  | EmptyString => "."
  | String c0 rest =>
      match dirname_scan true (String.rev rest) with
      | None => if Ascii.eqb c0 "/"%char then "/" else "."
      | Some before =>
          if Ascii.eqb c0 "/"%char && String.eqb before EmptyString then "//"
          else String c0 (String.rev before)
      end
  end.

Inductive lifecycle := Restart | Stop.

Definition lifecycle_name (action : lifecycle) : string :=
  match action with
  | Restart => "restart"
  | Stop => "stop"
  end.

(** What the connection handler does for [action=restart] and
    [action=stop]: refuse, or spawn a command in a pty. *)
Inductive attach_outcome :=
  | AttachRefused (error : string)
  | AttachSpawn (cmd : string) (args : list string) (cwd : string).

(** The handler from the query parameters [file] and [service] on;
    [exists_] is [fs.existsSync] and [executable] the test
    [fs.statSync(p).mode & 0o111]. *)
Definition attach_lifecycle (exists_ executable : string → bool)
    (file svc : string) (action : lifecycle) : attach_outcome :=
  if String.eqb file EmptyString || String.eqb svc EmptyString
  then AttachRefused "missing file or service"
  else
    let composeFile :=
      if exists_ (path_join file "docker-compose.yml")
      then path_join file "docker-compose.yml" else file in
    if negb (exists_ composeFile) then AttachRefused "compose file not found"
    else
      let projectDir := path_dirname composeFile in
      let scriptPath := path_join projectDir (lifecycle_name action +:+ ".sh") in
      if exists_ scriptPath && executable scriptPath
      then AttachSpawn "bash"
             ["-lc"; JSON_stringify scriptPath +:+ " " +:+ JSON_stringify svc] projectDir
      else
        let composeCmd :=
          "docker compose -f " +:+ JSON_stringify composeFile +:+ " "
            +:+ lifecycle_name action +:+ " " +:+ JSON_stringify svc in
        let legacyCmd :=
          "docker-compose -f " +:+ JSON_stringify composeFile +:+ " "
            +:+ lifecycle_name action +:+ " " +:+ JSON_stringify svc in
        AttachSpawn "bash" ["-lc"; composeCmd +:+ " || " +:+ legacyCmd] projectDir.

(** * Properties *)

(** ** The allocator *)

(** The words of the specification for [nextIpv4]: the smallest address
    [base.i], [i] from 2 to 254, that is not among the used ones. *)
Definition spec_nextIpv4 (base : string) (used : list string) : option string :=
  head (filter (λ ip, ip ∉ used) ((λ i, base +:+ Number_toString i) <$> seqZ 2 253)).

Lemma allocateIps_loop_first (base : string) (used : gset string) (fuel : nat) (i : Z) :
  match head (allocateIps_loop base used fuel i 1) with
  | Some ip =>
      ∃ k : Z, (i ≤ k < i + Z.of_nat fuel) ∧ ip = (base +:+ Number_toString k)
           ∧ (Number_toString k ∉ used)
           ∧ ∀ j, i ≤ j < k → Number_toString j ∈ used
  | None => ∀ j, i ≤ j < i + Z.of_nat fuel → Number_toString j ∈ used
  end.
Proof.
  revert i. induction fuel as [|fuel IH]; intros i; simpl.
  - intros j Hj. lia.
  - destruct (decide (Number_toString i ∈ used)) as [Hin|Hout].
    + specialize (IH (i + 1)).
      destruct (head (allocateIps_loop base used fuel (i + 1) 1)) as [ip|].
      * destruct IH as (k & Hk & -> & Hfree & Hbelow).
        exists k. repeat split; [lia | lia | done |].
        intros j Hj. destruct (decide (j = i)) as [->|]; [done|]. apply Hbelow. lia.
      * intros j Hj. destruct (decide (j = i)) as [->|]; [done|]. apply IH. lia.
    + simpl. exists i. repeat split; [lia | lia | done |]. intros j Hj. lia.
Qed.

(** The first address [allocateIps] hands out. *)
Lemma allocateIps_first (base : string) (used : list string) :
  match head (allocateIps base used 1) with
  | Some ip =>
      ∃ i : Z, (2 ≤ i ≤ 254) ∧ ip = (base +:+ Number_toString i)
           ∧ (Number_toString i ∉ (last_octet <$> used))
           ∧ ∀ j, 2 ≤ j < i → Number_toString j ∈ (last_octet <$> used)
  | None => ∀ j, 2 ≤ j ≤ 254 → Number_toString j ∈ (last_octet <$> used)
  end.
Proof.
  unfold allocateIps.
  pose proof (allocateIps_loop_first base (list_to_set (last_octet <$> used)) 253 2) as H.
  destruct (head _) as [ip|].
  - destruct H as (k & Hk & -> & Hfree & Hbelow).
    exists k. repeat split; [lia | lia | set_solver |].
    intros j Hj. specialize (Hbelow j Hj). set_solver.
  - intros j Hj. specialize (H j). rewrite elem_of_list_to_set in H. apply H. lia.
Qed.

(** C5, as the code has it: [nextIpv4] answers [base.i] for the smallest
    [i] from 2 to 254 whose decimal rendering is not the last
    dot-separated component of a used address, whatever the subnet of
    that address; it answers nothing when every such [i] is taken, and
    never an address outside [.2 … .254]. *)
Theorem nextIpv4_smallest_unblocked (base : string) (used : list string) :
  match nextIpv4 base used with
  | Some ip =>
      ∃ i : Z, (2 ≤ i ≤ 254) ∧ ip = (base +:+ Number_toString i)
           ∧ (Number_toString i ∉ (last_octet <$> used))
           ∧ ∀ j, 2 ≤ j < i → Number_toString j ∈ (last_octet <$> used)
  | None => ∀ j, 2 ≤ j ≤ 254 → Number_toString j ∈ (last_octet <$> used)
  end.
Proof. unfold nextIpv4. apply allocateIps_first. Qed.

(** C5 as the specification words it fails: with [10.0.0.2] in use, a
    request in [172.28.0.] skips the free [172.28.0.2]. *)
Lemma nextIpv4_skips_free_address :
  nextIpv4 "172.28.0." ["10.0.0.2"] = Some "172.28.0.3"
  ∧ spec_nextIpv4 "172.28.0." ["10.0.0.2"] = Some "172.28.0.2"
  ∧ nextIpv4 "172.28.0." ["10.0.0.2"] ≠ spec_nextIpv4 "172.28.0." ["10.0.0.2"].
Proof. vm_compute. repeat split; congruence. Qed.

(** ** Reading back a printed port *)

Definition all_digit_chars (s : string) : Prop :=
  Forall (λ c, is_digit c = true) (list_ascii_of_string s).

Lemma pretty_N_char_digit (x : N) :
  (x < 10)%N →
  is_digit (pretty_N_char x) = true ∧ digit_val (pretty_N_char x) = Z.of_N x.
Proof.
  intros Hx.
  assert (x = 0 ∨ x = 1 ∨ x = 2 ∨ x = 3 ∨ x = 4 ∨ x = 5 ∨ x = 6 ∨ x = 7
          ∨ x = 8 ∨ x = 9)%N as Hcases by lia.
  repeat (destruct Hcases as [->|Hcases]; [by vm_compute|]).
  subst x. by vm_compute.
Qed.

Lemma pretty_N_go_digits (x : N) (s : string) :
  all_digit_chars s → all_digit_chars (pretty_N_go x s).
Proof.
  revert s. induction (N.lt_wf_0 x) as [x _ IH]; intros s Hs.
  destruct (decide (x = 0)%N) as [->|Hx]; [by rewrite pretty_N_go_0|].
  rewrite pretty_N_go_step by lia. apply IH.
  - apply N.div_lt; lia.
  - constructor; [|done]. apply pretty_N_char_digit. apply N.mod_lt. lia.
Qed.

Lemma digits_prefix_pretty_N_go (x : N) (s : string) :
  digits_prefix (pretty_N_go x s) None
  = digits_prefix s (if decide (x = 0)%N then None else Some (Z.of_N x)).
Proof.
  revert s. induction (N.lt_wf_0 x) as [x _ IH]; intros s.
  destruct (decide (x = 0)%N) as [->|Hx]; [by rewrite pretty_N_go_0|].
  rewrite pretty_N_go_step by lia.
  rewrite IH by (apply N.div_lt; lia). simpl.
  destruct (pretty_N_char_digit (x `mod` 10)%N) as [-> ->]; [apply N.mod_lt; lia|].
  f_equal. f_equal.
  pose proof (N.div_mod x 10 ltac:(lia)) as Hdm.
  destruct (decide (x `div` 10 = 0)%N) as [H0|H0]; simpl; lia.
Qed.

Lemma pretty_N_go_nonempty (x : N) (s : string) :
  (0 < x)%N → pretty_N_go x s ≠ EmptyString.
Proof.
  revert s. induction (N.lt_wf_0 x) as [x _ IH]; intros s Hx.
  rewrite pretty_N_go_step by done.
  destruct (decide (x `div` 10 = 0)%N) as [H0|H0].
  - rewrite H0, pretty_N_go_0. done.
  - apply IH; [apply N.div_lt; lia | by apply N.neq_0_lt_0].
Qed.

Lemma digit_not_sign_or_space (c : ascii) :
  is_digit c = true →
  is_js_space c = false ∧ c ≠ "-"%char ∧ c ≠ "+"%char ∧ c ≠ ":"%char ∧ c ≠ "."%char.
Proof.
  destruct c as [[] [] [] [] [] [] [] []]; vm_compute; intros; try discriminate;
    repeat split; congruence.
Qed.

Lemma parseInt_leading_digit (c : ascii) (rest : string) :
  is_digit c = true →
  parseInt (String c rest) = digits_prefix (String c rest) None.
Proof.
  intros Hc. destruct (digit_not_sign_or_space c Hc) as (Hsp & Hm & Hp & _ & _).
  unfold parseInt. cbn [trim_start]. rewrite Hsp.
  destruct c as [[] [] [] [] [] [] [] []]; try reflexivity; congruence.
Qed.

(** [parseInt(String(n), 10)] is [n] for a positive [n]. *)
Lemma parseInt_Number_toString (n : Z) :
  0 < n → parseInt (Number_toString n) = Some n.
Proof.
  intros Hn. destruct n as [|p|p]; try lia.
  unfold Number_toString, pretty, pretty_Z, pretty, pretty_positive, pretty, pretty_N.
  rewrite decide_False by done.
  pose proof (pretty_N_go_digits (N.pos p) EmptyString ltac:(constructor)) as Hd.
  pose proof (pretty_N_go_nonempty (N.pos p) EmptyString ltac:(lia)) as Hne.
  pose proof (digits_prefix_pretty_N_go (N.pos p) EmptyString) as Hv.
  destruct (pretty_N_go (N.pos p) EmptyString) as [|c rest] eqn:E; [done|].
  rewrite parseInt_leading_digit; [| by inversion Hd].
  rewrite Hv. rewrite decide_False by done. done.
Qed.

Lemma Number_toString_digits (n : Z) :
  0 < n → all_digit_chars (Number_toString n).
Proof.
  intros Hn. destruct n as [|p|p]; try lia.
  unfold Number_toString, pretty, pretty_Z, pretty, pretty_positive, pretty, pretty_N.
  rewrite decide_False by done. apply pretty_N_go_digits. constructor.
Qed.

(** Splitting and gluing. *)
Definition lacks (sep : ascii) (s : string) : Prop := sep ∉ list_ascii_of_string s.

Lemma split_on_lacks (sep : ascii) (s : string) :
  lacks sep s → split_on sep s = [s].
Proof.
  unfold lacks. induction s as [|c s IH]; simpl; [done|].
  intros Hs. rewrite not_elem_of_cons in Hs. destruct Hs as [Hc Hs].
  destruct (Ascii.eqb_spec c sep) as [->|_]; [done|]. by rewrite IH.
Qed.

Lemma split_on_nonempty (sep : ascii) (s : string) : split_on sep s ≠ [].
Proof.
  induction s as [|c s IH]; simpl; [done|].
  destruct (Ascii.eqb c sep); [done|]. by destruct (split_on sep s).
Qed.

Lemma split_on_app (sep : ascii) (a b : string) :
  lacks sep a → split_on sep (a +:+ String sep b) = a :: split_on sep b.
Proof.
  unfold lacks. induction a as [|c a IH]; simpl.
  - intros _. by rewrite Ascii.eqb_refl.
  - intros Hs. rewrite not_elem_of_cons in Hs. destruct Hs as [Hc Hs].
    destruct (Ascii.eqb_spec c sep) as [->|_]; [done|]. by rewrite IH.
Qed.

Lemma split_on_parts_lack (sep : ascii) (s : string) :
  Forall (lacks sep) (split_on sep s).
Proof.
  induction s as [|c s IH]; simpl.
  - repeat constructor. unfold lacks. simpl. apply not_elem_of_nil.
  - destruct (Ascii.eqb_spec c sep) as [->|Hne].
    + constructor; [|done]. unfold lacks. simpl. apply not_elem_of_nil.
    + pose proof (split_on_nonempty sep s) as Hne'.
      destruct (split_on sep s) as [|h t]; [done|]. inversion IH; subst.
      constructor; [|done]. unfold lacks in *. simpl.
      rewrite not_elem_of_cons. split; [congruence|done].
Qed.

Lemma digits_lack_colon (s : string) : all_digit_chars s → lacks ":" s.
Proof.
  unfold all_digit_chars, lacks. intros Hd Hin.
  rewrite Forall_forall in Hd. specialize (Hd _ Hin).
  by destruct (digit_not_sign_or_space _ Hd) as (_ & _ & _ & ? & _).
Qed.

(** The host port a mapping carries: the [H] of ["H:C"] and of
    ["B:H:C"]. A bare ["C"] carries none. *)
Definition mapping_host (s : string) : option Z :=
  match split_on ":" s with
  | [_; h; _] => parseInt h
  | [h; _] => parseInt h
  | _ => None
  end.

(** A mapping with another host port: ["H:C"] becomes ["q:C"] and
    ["B:H:C"] becomes ["B:q:C"], bind address and container port as
    they were. *)
Definition move_host (s : string) (q : Z) : string :=
  match split_on ":" s with
  | [bind; _; container] => bind +:+ ":" +:+ Number_toString q +:+ ":" +:+ container
  | [_; container] => Number_toString q +:+ ":" +:+ container
  | _ => s
  end.

Lemma mapping_host_rebuilt3 (bind container : string) (n : Z) :
  0 < n → lacks ":" bind → lacks ":" container →
  mapping_host (bind +:+ ":" +:+ Number_toString n +:+ ":" +:+ container) = Some n.
Proof.
  intros Hn Hb Hc. unfold mapping_host.
  change (":" +:+ ?x) with (String ":" x).
  rewrite split_on_app by done.
  change (":" +:+ ?x) with (String ":" x).
  rewrite split_on_app by (apply digits_lack_colon, Number_toString_digits; done).
  rewrite split_on_lacks by done. by apply parseInt_Number_toString.
Qed.

Lemma mapping_host_rebuilt2 (container : string) (n : Z) :
  0 < n → lacks ":" container →
  mapping_host (Number_toString n +:+ ":" +:+ container) = Some n.
Proof.
  intros Hn Hc. unfold mapping_host.
  change (":" +:+ ?x) with (String ":" x).
  rewrite split_on_app by (apply digits_lack_colon, Number_toString_digits; done).
  rewrite split_on_lacks by done. by apply parseInt_Number_toString.
Qed.

(** ** The next free host port *)

Lemma probe_loop_spec (used : gset Z) (fuel : nat) (p0 : Z) :
  (size (filter (λ x, (p0 ≤ x)%Z) used) < fuel)%nat →
  let r := probe_loop used fuel p0 in
  p0 ≤ r ∧ (r ∉ used) ∧ ∀ q, p0 ≤ q < r → q ∈ used.
Proof.
  revert p0. induction fuel as [|fuel IH]; intros p0 Hsize; [lia|]. simpl.
  destruct (decide (p0 ∈ used)) as [Hin|Hout].
  - assert (size (filter (λ x, (p0 + 1 ≤ x)%Z) used)
            < size (filter (λ x, (p0 ≤ x)%Z) used))%nat as Hlt.
    { apply subset_size. apply strict_spec_alt. split.
      - intros x. rewrite !elem_of_filter. intros [??]. split; [lia|done].
      - intros Heq. assert (p0 ∈ filter (λ x, p0 + 1 ≤ x) used) as Hbad.
        { rewrite Heq. apply elem_of_filter. split; [lia|done]. }
        apply elem_of_filter in Hbad. lia. }
    destruct (IH (p0 + 1) ltac:(lia)) as (Hle & Hfree & Hbelow).
    split; [lia|]. split; [done|].
    intros q Hq. destruct (decide (q = p0)) as [->|]; [done|]. apply Hbelow. lia.
  - split; [lia|]. split; [done|]. intros q Hq. lia.
Qed.

(** [nextHostPort] is the smallest port from 10000 on that is not in
    the set. *)
Lemma nextHostPort_spec (used : gset Z) :
  10000 ≤ nextHostPort used
  ∧ (nextHostPort used ∉ used)
  ∧ ∀ q, 10000 ≤ q < nextHostPort used → q ∈ used.
Proof.
  apply probe_loop_spec.
  apply Nat.lt_succ_r, subseteq_size. intros x. rewrite elem_of_filter. tauto.
Qed.

(** ** One port entry in the second pass *)

(** The host port the second pass reads off an entry: only strings of
    two or three parts have one. *)
Definition fixable_host (p : port_entry) : option Z :=
  match p with
  | PStr s => mapping_host s
  | _ => None
  end.

Lemma fixable_host_census_host (p : port_entry) (h : Z) :
  fixable_host p = Some h → census_host p = Some h.
Proof.
  destruct p as [s| |]; simpl; try done.
  unfold mapping_host, census_host. simpl.
  destruct (split_on ":" s) as [|a [|b [|c [|d l]]]]; done.
Qed.

(** An entry is either moved to [nextHostPort], which happens exactly
    when the running count of its host port exceeds one, or pushed as
    it is. *)
Lemma fix_port_cases (c : census) (p : port_entry) :
  (∃ h s', fixable_host p = Some h ∧ (1 < hostCount c h)%nat
           ∧ fix_port c p = (reassign_host c h (nextHostPort (usedHostSet c)), s')
           ∧ mapping_host s' = Some (nextHostPort (usedHostSet c)))
  ∨ ((∀ h, fixable_host p = Some h → (hostCount c h ≤ 1)%nat)
     ∧ fix_port c p = (c, String_of_port p)).
Proof.
  pose proof (nextHostPort_spec (usedHostSet c)) as (Hge & Hfree & _).
  destruct p as [s|o|r]; simpl; [|right; split; [intros ? [=]|done]..].
  unfold mapping_host.
  pose proof (split_on_parts_lack ":" s) as Hparts.
  destruct (split_on ":" s) as [|a [|b [|d [|e l]]]] eqn:Hsplit;
    try (right; split; [intros ? [=]|done]).
  - (* "H:C" *)
    destruct (parseInt a) as [hostPort|] eqn:Hparse; [|right; split; [intros ? [=]|done]].
    destruct (decide (1 < hostCount c hostPort)%nat) as [Hdup|Hsingle].
    + left. eexists hostPort, _. split; [done|]. split; [done|]. split; [done|].
      inversion Hparts as [|?? _ Hrest]; subst. inversion Hrest; subst.
      apply mapping_host_rebuilt2; [lia|done].
    + right. split; [|done]. intros h [= <-]. lia.
  - (* "B:H:C" *)
    destruct (parseInt b) as [hostPort|] eqn:Hparse; [|right; split; [intros ? [=]|done]].
    destruct (decide (1 < hostCount c hostPort)%nat) as [Hdup|Hsingle].
    + left. eexists hostPort, _. split; [done|]. split; [done|]. split; [done|].
      inversion Hparts as [|?? Ha Hrest]; subst. inversion Hrest as [|?? _ Hrest']; subst.
      inversion Hrest'; subst.
      apply mapping_host_rebuilt3; [lia|done..].
    + right. split; [|done]. intros h [= <-]. lia.
Qed.

(** A moved entry is a string, and what is pushed for it differs from
    it in the host port only. *)
Lemma fix_port_moved (c : census) (p : port_entry) (h : Z) :
  fixable_host p = Some h → (1 < hostCount c h)%nat →
  ∃ s0, p = PStr s0 ∧ snd (fix_port c p) = move_host s0 (nextHostPort (usedHostSet c)).
Proof.
  destruct p as [s|o|r]; simpl; [|done..]. unfold mapping_host, move_host.
  intros Hhost Hdup. exists s. split; [done|].
  destruct (split_on ":" s) as [|a [|b [|d [|e l]]]]; try done.
  - rewrite Hhost. by rewrite decide_True.
  - rewrite Hhost. by rewrite decide_True.
Qed.

(** ** The invariant of the port pass *)

Definition occ (h : Z) (l : list Z) : nat := List.length (filter (λ x, x = h) l).

Lemma occ_nil (h : Z) : occ h [] = 0%nat.
Proof. done. Qed.

Lemma occ_cons (h x : Z) (l : list Z) :
  occ h (x :: l) = ((if decide (x = h) then 1 else 0) + occ h l)%nat.
Proof. unfold occ. rewrite filter_cons. by destruct (decide (x = h)). Qed.

Lemma occ_app (h : Z) (l1 l2 : list Z) : occ h (l1 ++ l2)%list = (occ h l1 + occ h l2)%nat.
Proof. unfold occ. by rewrite filter_app, length_app. Qed.

Lemma occ_zero (h : Z) (l : list Z) : occ h l = 0%nat ↔ h ∉ l.
Proof.
  induction l as [|x l IH]; [by split; [intros _; apply not_elem_of_nil|]|].
  rewrite occ_cons, not_elem_of_cons. destruct (decide (x = h)) as [->|Hne].
  - split; [lia|]. intros [? _]. done.
  - simpl. rewrite IH. split; [intros ?; split; [congruence|done]|tauto].
Qed.

Lemma occ_Permutation (h : Z) (l1 l2 : list Z) : l1 ≡ₚ l2 → occ h l1 = occ h l2.
Proof. intros Hp. unfold occ. by rewrite Hp. Qed.

(** The host ports the second pass will read off a list of entries. *)
Fixpoint fix_hosts (ports : list port_entry) : list Z :=
  match ports with
  | [] => []
  | p :: rest =>
      match fixable_host p with
      | Some h => h :: fix_hosts rest
      | None => fix_hosts rest
      end
  end.

Lemma fix_hosts_app (l1 l2 : list port_entry) :
  fix_hosts (l1 ++ l2)%list = (fix_hosts l1 ++ fix_hosts l2)%list.
Proof.
  induction l1 as [|p l1 IH]; simpl; [done|].
  destruct (fixable_host p); simpl; by rewrite IH.
Qed.

(** A non-string entry is pushed as [String(p)]; it is [plain] when that
    string does not read as a mapping with a host port (numbers,
    booleans and objects all render that way). *)
Definition plain (p : port_entry) : Prop :=
  mapping_host (String_of_port p) = fixable_host p.

Lemma plain_PStr (s : string) : plain (PStr s).
Proof. done. Qed.

Section PortPass.

(** [c0] is the census the second pass starts from and [all0] the host
    ports it will read. *)
Variable c0 : census.
Variable all0 : list Z.

(** What holds between two entries of the second pass: [seen] are the
    host ports of the mappings already pushed, [todo] the entries still
    to come. *)
Record port_inv (c : census) (seen : list Z) (todo : list port_entry) : Prop := PortInv {
  pi_nodup : NoDup seen;
  pi_seen_used : ∀ h, h ∈ seen → h ∈ usedHostSet c;
  pi_seen_done : ∀ h, h ∈ seen → h ∉ fix_hosts todo;
  pi_todo_used : ∀ h, h ∈ fix_hosts todo → h ∈ usedHostSet c;
  pi_counts : ∀ h, (occ h (fix_hosts todo) ≤ hostCount c h)%nat;
  pi_decreasing : ∀ h, (hostCount c h ≤ hostCount c0 h)%nat;
  pi_set_grows : usedHostSet c0 ⊆ usedHostSet c;
  pi_set_origin : ∀ x, x ∈ usedHostSet c → x ∈ usedHostSet c0 ∨ x ∈ seen;
  pi_exact : ∀ h, hostCount c0 h = occ h all0 → (1 ≤ hostCount c0 h)%nat →
                  (hostCount c h = occ h (fix_hosts todo) ∧ (1 ≤ occ h (fix_hosts todo))%nat)
                  ∨ h ∈ seen
}.

(** How an entry [p] and the string [s] pushed for it relate. Either
    [s] is [String(p)]: a string entry is pushed as it is, any other
    entry as its rendering. Or [p] is a mapping whose host port the
    census counted more than once, and [s] is that mapping with its
    host port replaced, bind address and container port untouched, by
    the smallest port from 10000 on that is neither in the census nor
    carried by a mapping in [final]. *)
Definition port_outcome (final : list Z) (p : port_entry) (s : string) : Prop :=
  s = String_of_port p
  ∨ ∃ s0 h q, p = PStr s0 ∧ mapping_host s0 = Some h ∧ (1 < hostCount c0 h)%nat
              ∧ s = move_host s0 q ∧ mapping_host s = Some q
              ∧ 10000 ≤ q ∧ (q ∉ usedHostSet c0)
              ∧ ∀ r, 10000 ≤ r < q → r ∈ usedHostSet c0 ∨ r ∈ final.

Lemma port_outcome_mono (final final' : list Z) (p : port_entry) (s : string) :
  final ⊆ final' → port_outcome final p s → port_outcome final' p s.
Proof.
  intros Hsub [->|(s0 & h & q & ? & ? & ? & ? & ? & ? & ? & Hsmall)]; [by left|].
  right. exists s0, h, q. repeat split; try done.
  intros r Hr. destruct (Hsmall r Hr); [by left|right; by apply Hsub].
Qed.

Lemma hostCount_reassign (c : census) (h q h' : Z) :
  (1 < hostCount c h)%nat →
  hostCount (reassign_host c h q) h'
  = if decide (h' = h) then (hostCount c h - 1)%nat else hostCount c h'.
Proof.
  intros Hdup. unfold reassign_host, hostCount at 1. simpl.
  destruct (decide (h' = h)) as [->|Hne].
  - rewrite lookup_insert_eq. simpl. rewrite decide_False by lia. done.
  - by rewrite lookup_insert_ne.
Qed.

Lemma fix_port_inv (c : census) (seen : list Z) (p : port_entry) (todo : list port_entry) :
  plain p →
  port_inv c seen (p :: todo) →
  let '(c', s) := fix_port c p in
  let seen' := (seen ++ option_list (mapping_host s))%list in
  port_inv c' seen' todo ∧ port_outcome seen' p s.
Proof.
  intros Hplain [Hnd Hsu Hsd Htu Hcnt Hdec Hgrow Horig Hexact].
  simpl in *.
  destruct (fix_port_cases c p) as [(h & s' & Hfix & Hdup & Hstep & Hnew)|[Hsingle ->]].
  - (* moved *)
    destruct (fix_port_moved c p h Hfix Hdup) as (s0 & Hp & Hmoved).
    rewrite Hstep in Hmoved |- *. cbn [snd] in Hmoved.
    rewrite Hfix in *. rewrite Hnew. simpl.
    pose proof (nextHostPort_spec (usedHostSet c)) as (Hge & Hfree & Hsmall).
    set (q := nextHostPort (usedHostSet c)) in *.
    split; [split|].
    + apply NoDup_app. split; [done|]. split; [|apply NoDup_singleton].
      intros x Hx ->%list_elem_of_singleton. by apply Hfree, Hsu.
    + intros x [Hx| ->%list_elem_of_singleton]%elem_of_app; simpl; set_solver.
    + intros x [Hx| ->%list_elem_of_singleton]%elem_of_app.
      * specialize (Hsd x Hx). rewrite not_elem_of_cons in Hsd. tauto.
      * intros Hin. apply Hfree, Htu. by right.
    + intros x Hx. simpl. apply elem_of_union_r, Htu. by right.
    + intros x. rewrite hostCount_reassign by done.
      specialize (Hcnt x). rewrite occ_cons in Hcnt.
      destruct (decide (x = h)) as [->|Hne].
      * rewrite decide_True in Hcnt by done. lia.
      * rewrite decide_False in Hcnt by congruence. simpl in Hcnt. lia.
    + intros x. rewrite hostCount_reassign by done. specialize (Hdec x).
      destruct (decide (x = h)) as [->|]; lia.
    + simpl. set_solver.
    + intros x. simpl. rewrite elem_of_union, elem_of_singleton, elem_of_app.
      intros [->|Hx]; [right; right; by apply list_elem_of_singleton|].
      destruct (Horig x Hx); tauto.
    + intros x Hx0 Hx1. rewrite hostCount_reassign by done.
      destruct (Hexact x Hx0 Hx1) as [[Heq Hpos]|Hseen];
        [|right; apply elem_of_app; by left].
      left. rewrite occ_cons in Heq, Hpos.
      destruct (decide (x = h)) as [->|Hne].
      * rewrite decide_True in Heq, Hpos by done. lia.
      * rewrite decide_False in Heq, Hpos by congruence. simpl in *. lia.
    + right. exists s0, h, q. split; [done|]. split; [by rewrite Hp in Hfix|].
      split; [specialize (Hdec h); lia|].
      split; [done|]. split; [done|]. split; [done|]. split; [set_solver|].
      intros r Hr. destruct (Horig r (Hsmall r Hr)); [by left|].
      right. apply elem_of_app. by left.
  - (* kept *)
    rewrite Hplain. split; [|by left].
    destruct (fixable_host p) as [h|] eqn:Hfix; simpl in *.
    2:{ rewrite app_nil_r. by split. }
    assert (h ∉ fix_hosts todo) as Hlast.
    { apply occ_zero. specialize (Hcnt h). rewrite occ_cons, decide_True in Hcnt by done.
      specialize (Hsingle h eq_refl). lia. }
    split.
    + apply NoDup_app. split; [done|]. split; [|apply NoDup_singleton].
      intros x Hx ->%list_elem_of_singleton. apply (Hsd _ Hx). by left.
    + intros x [Hx| ->%list_elem_of_singleton]%elem_of_app; [by apply Hsu|].
      apply Htu. by left.
    + intros x [Hx| ->%list_elem_of_singleton]%elem_of_app; [|done].
      specialize (Hsd x Hx). rewrite not_elem_of_cons in Hsd. tauto.
    + intros x Hx. apply Htu. by right.
    + intros x. specialize (Hcnt x). rewrite occ_cons in Hcnt. lia.
    + done.
    + done.
    + intros x Hx. rewrite elem_of_app. destruct (Horig x Hx); tauto.
    + intros x Hx0 Hx1. rewrite elem_of_app.
      destruct (Hexact x Hx0 Hx1) as [[Heq Hpos]|Hseen]; [|tauto].
      rewrite occ_cons in Heq, Hpos. destruct (decide (h = x)) as [->|Hne].
      * right. right. by apply list_elem_of_singleton.
      * left. simpl in *. done.
Qed.

Lemma fix_hosts_PStr_cons (s : string) (out : list string) :
  fix_hosts (PStr <$> s :: out) = (option_list (mapping_host s) ++ fix_hosts (PStr <$> out))%list.
Proof. simpl. by destruct (mapping_host s). Qed.

Lemma fix_ports_inv (c : census) (seen : list Z) (ps todo : list port_entry) :
  Forall plain ps →
  port_inv c seen (ps ++ todo)%list →
  let '(c', out) := fix_ports c ps in
  let seen' := (seen ++ fix_hosts (PStr <$> out))%list in
  port_inv c' seen' todo ∧ Forall2 (port_outcome seen') ps out.
Proof.
  revert c seen. induction ps as [|p ps IH]; intros c seen Hplain Hinv; simpl.
  - rewrite app_nil_r. by split.
  - inversion Hplain as [|?? Hp Hps]; subst.
    pose proof (fix_port_inv c seen p (ps ++ todo)%list Hp Hinv) as Hstep.
    destruct (fix_port c p) as [c1 s]. destruct Hstep as [Hinv1 Hout1].
    specialize (IH c1 _ Hps Hinv1).
    destruct (fix_ports c1 ps) as [c2 out]. destruct IH as [Hinv2 Hout2].
    rewrite fix_hosts_PStr_cons, app_assoc. split; [done|].
    constructor; [|done].
    eapply port_outcome_mono; [|done]. intros x Hx. apply elem_of_app. by left.
Qed.

End PortPass.

(** The port pass leaves the address counts alone, the network pass
    leaves the port counts alone. *)
Definition same_hosts (c c' : census) : Prop :=
  usedHostCounts c' = usedHostCounts c ∧ usedHostSet c' = usedHostSet c.

Lemma port_inv_same_hosts (c0 : census) (all0 : list Z) (c c' : census)
    (seen : list Z) (todo : list port_entry) :
  same_hosts c c' → port_inv c0 all0 c seen todo → port_inv c0 all0 c' seen todo.
Proof.
  intros [Hcounts Hset] [Hnd Hsu Hsd Htu Hcnt Hdec Hgrow Horig Hexact].
  assert (∀ h, hostCount c' h = hostCount c h) as Hhc
    by (intros h; unfold hostCount; by rewrite Hcounts).
  split; try done.
  - intros h ?. rewrite Hset. by apply Hsu.
  - intros h ?. rewrite Hset. by apply Htu.
  - intros h. rewrite Hhc. apply Hcnt.
  - intros h. rewrite Hhc. apply Hdec.
  - by rewrite Hset.
  - intros x. rewrite Hset. apply Horig.
  - intros h. rewrite Hhc. apply Hexact.
Qed.

Lemma fix_port_ips (c : census) (p : port_entry) :
  usedIpCounts (fst (fix_port c p)) = usedIpCounts c.
Proof.
  destruct (fix_port_cases c p) as [(h & s' & _ & _ & -> & _)|[_ ->]]; done.
Qed.

Lemma fix_ports_ips (c : census) (ps : list port_entry) :
  usedIpCounts (fst (fix_ports c ps)) = usedIpCounts c.
Proof.
  revert c. induction ps as [|p ps IH]; intros c; simpl; [done|].
  pose proof (fix_port_ips c p) as H1. destruct (fix_port c p) as [c1 s].
  specialize (IH c1). destruct (fix_ports c1 ps) as [c2 out]. simpl in *. congruence.
Qed.

(** ** The network pass *)

Lemma split_on_snoc (sep : ascii) (a d : string) :
  lacks sep d → split_on sep (a +:+ String sep d) = (split_on sep a ++ [d])%list.
Proof.
  intros Hd. induction a as [|c a IH]; simpl.
  - rewrite Ascii.eqb_refl. by rewrite split_on_lacks.
  - destruct (Ascii.eqb c sep); rewrite IH; [done|].
    pose proof (split_on_nonempty sep a). by destruct (split_on sep a).
Qed.

Lemma digits_lack_dot (s : string) : all_digit_chars s → lacks "." s.
Proof.
  unfold all_digit_chars, lacks. intros Hd Hin.
  rewrite Forall_forall in Hd. specialize (Hd _ Hin).
  by destruct (digit_not_sign_or_space _ Hd) as (_ & _ & _ & _ & ?).
Qed.

Lemma append_assoc (a b c : string) : (a +:+ b) +:+ c = a +:+ (b +:+ c).
Proof.
  induction a as [|x a IH]; [done|].
  change (String x ((a +:+ b) +:+ c) = String x (a +:+ (b +:+ c))). by rewrite IH.
Qed.

Lemma last_octet_of_base (b : string) (i : Z) :
  0 < i → last_octet ((b +:+ ".") +:+ Number_toString i) = Number_toString i.
Proof.
  intros Hi. unfold last_octet. rewrite append_assoc.
  change ("." +:+ ?x) with (String "." x).
  rewrite split_on_snoc by (apply digits_lack_dot, Number_toString_digits; done).
  by rewrite last_snoc.
Qed.

(** An address handed out by [nextIpv4] is not a key of [usedIpCounts]. *)
Lemma nextIpv4_fresh (b : string) (c : census) (newIp : string) :
  nextIpv4 (b +:+ ".") (ip_keys c) = Some newIp → newIp ∉ dom (usedIpCounts c).
Proof.
  intros Hnext Hin.
  pose proof (allocateIps_first (b +:+ ".") (ip_keys c)) as Hspec.
  unfold nextIpv4 in Hnext. rewrite Hnext in Hspec. destruct Hspec as (i & Hi & -> & Hfree & _).
  apply Hfree. rewrite <- (last_octet_of_base b i) by lia.
  apply list_elem_of_fmap_2. unfold ip_keys. by apply elem_of_elements.
Qed.

(** The address the second pass looks at in an attachment. *)
Definition active_ip (v : net_value) : option string :=
  match v with
  | NetObj a b _ => if truthy a then a else if truthy b then b else None
  | _ => None
  end.

(** The attachment with that address replaced. *)
Definition move_ip (v : net_value) (newIp : string) : net_value :=
  match v with
  | NetObj a b o => if truthy a then NetObj (Some newIp) b o else NetObj a (Some newIp) o
  | _ => v
  end.

Section NetPass.

Variable c0 : census.

(** Addresses counted by the first pass keep their count; an address
    handed out in the second pass is counted once. *)
Record ip_inv (c : census) : Prop := IpInv {
  ii_old : ∀ ip, ip ∈ dom (usedIpCounts c0) → usedIpCounts c !! ip = usedIpCounts c0 !! ip;
  ii_new : ∀ ip, ip ∉ dom (usedIpCounts c0) → (ipCount c ip ≤ 1)%nat
}.

Lemma ip_inv_start : ip_inv c0.
Proof.
  split; [done|]. intros ip Hip. unfold ipCount.
  apply not_elem_of_dom in Hip. rewrite Hip. simpl. lia.
Qed.

Lemma ip_inv_dom (c : census) : ip_inv c → dom (usedIpCounts c0) ⊆ dom (usedIpCounts c).
Proof.
  intros [Hold _] ip Hip. apply elem_of_dom. rewrite Hold by done. by apply elem_of_dom.
Qed.

Lemma ip_inv_bump (c : census) (newIp : string) :
  ip_inv c → newIp ∉ dom (usedIpCounts c) → ip_inv (bump_ip newIp c).
Proof.
  intros Hinv Hfresh. pose proof (ip_inv_dom c Hinv) as Hdom.
  destruct Hinv as [Hold Hnew]. split; simpl.
  - intros ip Hip. rewrite lookup_insert_ne; [by apply Hold|].
    intros ->. apply Hfresh, Hdom, Hip.
  - intros ip Hip. unfold ipCount. simpl.
    destruct (decide (newIp = ip)) as [->|Hne].
    + rewrite lookup_insert_eq. simpl. unfold ipCount.
      apply not_elem_of_dom in Hfresh. rewrite Hfresh. simpl. lia.
    + rewrite lookup_insert_ne by done. by apply Hnew.
Qed.

Lemma ip_inv_count (c : census) (ip : string) :
  ip_inv c → (1 < ipCount c ip)%nat → (1 < ipCount c0 ip)%nat.
Proof.
  intros [Hold Hnew] Hdup. destruct (decide (ip ∈ dom (usedIpCounts c0))) as [Hin|Hout].
  - unfold ipCount in *. by rewrite <- Hold.
  - specialize (Hnew ip Hout). lia.
Qed.

(** An attachment after the second pass: as it was, or its address was
    counted more than once and gave way to one the census did not have;
    the rest of the attachment stays. *)
Definition net_outcome (v v' : net_value) : Prop :=
  v' = v
  ∨ ∃ cur newIp, active_ip v = Some cur ∧ (1 < ipCount c0 cur)%nat
                 ∧ (newIp ∉ dom (usedIpCounts c0))
                 ∧ v' = move_ip v newIp.

Lemma fix_net_spec (b : string) (k : string) (net : net_value)
    (c c' : census) (svc svc' m m' : service) :
  ip_inv c →
  fix_net (b +:+ ".") k net (c, svc, m) = inr (c', svc', m') →
  same_hosts c c' ∧ ip_inv c'
  ∧ ∃ v', net_outcome net v' ∧ ((svc' = svc ∧ v' = net) ∨ svc' = set_net k v' svc).
Proof.
  intros Hinv Hfix. unfold fix_net in Hfix.
  destruct net as [s|a b' o|].
  - unfold isIpv4 in Hfix. discriminate.
  - destruct (truthy a) eqn:Ha.
    + unfold js_or in Hfix. rewrite Ha in Hfix.
      destruct a as [cur|]; [|discriminate].
      destruct (decide (1 < ipCount c cur)%nat) as [Hdup|Hsingle].
      * destruct (nextIpv4 (b +:+ ".") (ip_keys c)) as [newIp|] eqn:Hnext.
        -- injection Hfix as <- <- <-. split; [done|].
           pose proof (nextIpv4_fresh _ _ _ Hnext) as Hfresh.
           split; [by apply ip_inv_bump|].
           eexists. split; [|by right]. right. exists cur, newIp.
           unfold active_ip, move_ip. rewrite Ha.
           split; [done|]. split; [by apply (ip_inv_count c)|].
           split; [|done]. intros Hin. by apply Hfresh, (ip_inv_dom c).
        -- injection Hfix as <- <- <-. split; [done|]. split; [done|].
           eexists. split; [by left|]. by left.
      * injection Hfix as <- <- <-. split; [done|]. split; [done|].
        eexists. split; [by left|]. by left.
    + destruct (truthy b') eqn:Hb.
      * destruct b' as [cur|]; [|discriminate].
        destruct (decide (1 < ipCount c cur)%nat) as [Hdup|Hsingle].
        -- destruct (nextIpv4 (b +:+ ".") (ip_keys c)) as [newIp|] eqn:Hnext.
           ++ injection Hfix as <- <- <-. split; [done|].
              pose proof (nextIpv4_fresh _ _ _ Hnext) as Hfresh.
              split; [by apply ip_inv_bump|].
              eexists. split; [|by right]. right. exists cur, newIp.
              unfold active_ip, move_ip. rewrite Ha, Hb.
              split; [done|]. split; [by apply (ip_inv_count c)|].
              split; [|done]. intros Hin. by apply Hfresh, (ip_inv_dom c).
           ++ injection Hfix as <- <- <-. split; [done|]. split; [done|].
              eexists. split; [by left|]. by left.
        -- injection Hfix as <- <- <-. split; [done|]. split; [done|].
           eexists. split; [by left|]. by left.
      * injection Hfix as <- <- <-. split; [done|]. split; [done|].
        eexists. split; [by left|]. by left.
  - injection Hfix as <- <- <-. split; [done|]. split; [done|].
    eexists. split; [by left|]. by left.
Qed.

End NetPass.

(** What the network pass leaves alone in a service. *)
Definition svc_rest_eq (svc svc' : service) : Prop :=
  svc_ports svc' = svc_ports svc
  ∧ svc_ipv4_address svc' = svc_ipv4_address svc
  ∧ svc_ipv4Address svc' = svc_ipv4Address svc
  ∧ svc_others svc' = svc_others svc.

Lemma svc_rest_eq_set_net (k : string) (v : net_value) (svc : service) :
  svc_rest_eq svc (set_net k v svc).
Proof. done. Qed.

Lemma fix_net_frame (base k : string) (net : net_value)
    (c c' : census) (svc svc' m m' : service) :
  fix_net base k net (c, svc, m) = inr (c', svc', m') →
  same_hosts c c' ∧ svc_rest_eq svc svc'.
Proof.
  unfold fix_net. intros Hfix.
  destruct net as [s|a b o|]; [unfold isIpv4 in Hfix; discriminate| |by injection Hfix as <- <- <-].
  repeat (match goal with
          | H : context [match ?x with _ => _ end] |- _ => destruct x eqn:?
          | H : context [if ?x then _ else _] |- _ => destruct x eqn:?
          end; try discriminate);
    simplify_eq; by repeat split.
Qed.

Lemma fix_nets_frame (base : string) (nets : list (string * net_value))
    (c c' : census) (svc svc' m m' : service) :
  fix_nets base nets (c, svc, m) = inr (c', svc', m') →
  same_hosts c c' ∧ svc_rest_eq svc svc'.
Proof.
  revert c svc m. induction nets as [|[k net] nets IH]; intros c svc m Hfix;
    cbn [fix_nets] in Hfix.
  - by injection Hfix as <- <- <-.
  - destruct (fix_net base k net (c, svc, m)) as [e|[[c1 svc1] m1]] eqn:Hstep; [done|].
    destruct (fix_net_frame _ _ _ _ _ _ _ _ _ Hstep) as [[Hc1 Hs1] (Hp1 & Ha1 & Hb1 & Ho1)].
    destruct (IH _ _ _ Hfix) as [[Hc2 Hs2] (Hp2 & Ha2 & Hb2 & Ho2)].
    repeat split; congruence.
Qed.

Lemma alist_set_app_notin {A} (k : string) (v x : A) (l1 l2 : list (string * A)) :
  k ∉ (fst <$> l1) → alist_set k v (l1 ++ (k, x) :: l2)%list = (l1 ++ (k, v) :: l2)%list.
Proof.
  induction l1 as [|[k' v'] l1 IH]; simpl; intros Hk.
  - by rewrite decide_True.
  - rewrite not_elem_of_cons in Hk. destruct Hk as [Hne Hk].
    rewrite decide_False by congruence. by rewrite IH.
Qed.

Section NetPassLists.

Variable c0 : census.

Definition net_entry_outcome (kv kv' : string * net_value) : Prop :=
  fst kv' = fst kv ∧ net_outcome c0 (snd kv) (snd kv').

Lemma fix_nets_spec (b : string) (nets : list (string * net_value)) :
  ∀ (done done' : list (string * net_value)) (c c' : census) (svc svc' m m' : service),
    ip_inv c0 c →
    NoDup (fst <$> (done ++ nets))%list →
    Forall2 net_entry_outcome done done' →
    svc_networks svc = Some (done' ++ nets)%list →
    fix_nets (b +:+ ".") nets (c, svc, m) = inr (c', svc', m') →
    ip_inv c0 c'
    ∧ ∃ nets', svc_networks svc' = Some nets'
               ∧ Forall2 net_entry_outcome (done ++ nets)%list nets'.
Proof.
  induction nets as [|[k net] nets IH];
    intros done done' c c' svc svc' m m' Hinv Hnd Hdone Hsvc Hfix; cbn [fix_nets] in Hfix.
  - injection Hfix as <- <- <-. split; [done|].
    rewrite app_nil_r in *. by exists done'.
  - destruct (fix_net (b +:+ ".") k net (c, svc, m)) as [e|[[c1 svc1] m1]] eqn:Hstep; [done|].
    destruct (fix_net_spec c0 _ _ _ _ _ _ _ _ _ Hinv Hstep)
      as (_ & Hinv1 & v' & Hout & Hsvc1).
    assert (k ∉ (fst <$> done')) as Hk.
    { replace (fst <$> done') with (fst <$> done).
      - rewrite fmap_app in Hnd. apply NoDup_app in Hnd as (_ & Hdisj & _).
        intros Hin. apply (Hdisj _ Hin). simpl. by left.
      - clear -Hdone. induction Hdone as [|x y l l' Hxy _ IH']; [done|].
        destruct Hxy as [Hfst _]. rewrite !fmap_cons. congruence. }
    assert (svc_networks svc1 = Some ((done' ++ [(k, v')]) ++ nets)%list) as Hsvc1'.
    { rewrite <- app_assoc. simpl. destruct Hsvc1 as [[-> ->]| ->]; [done|].
      simpl. rewrite Hsvc. simpl. by rewrite alist_set_app_notin. }
    specialize (IH (done ++ [(k, net)])%list (done' ++ [(k, v')])%list
                   c1 c' svc1 svc' m1 m' Hinv1).
    rewrite <- !app_assoc in IH. simpl in IH.
    apply IH; [done| |by rewrite <- app_assoc in Hsvc1'|done].
    apply Forall2_app; [done|]. constructor; [by split|constructor].
Qed.

End NetPassLists.

(** ** The port pass over services, documents and [composeData] *)

Definition svc_port_list (svc : service) : list port_entry := default [] (svc_ports svc).

Definition ports_of_services (svcs : list (string * service)) : list port_entry :=
  svcs ≫= (λ kv, svc_port_list (snd kv)).

Definition ports_of_items (items : list item) : list port_entry :=
  items ≫= (λ it, ports_of_services (services_of (item_obj it))).

Lemma fix_hosts_Permutation (l1 l2 : list port_entry) :
  l1 ≡ₚ l2 → fix_hosts l1 ≡ₚ fix_hosts l2.
Proof.
  induction 1 as [|p l1 l2 _ IH|p q l|l1 l2 l3 _ IH1 _ IH2]; simpl.
  - done.
  - destruct (fixable_host p); by rewrite IH.
  - destruct (fixable_host p), (fixable_host q); try done. apply perm_swap.
  - by etrans.
Qed.

Section PortPassTrees.

Variable c0 : census.
Variable all0 : list Z.

(** The ports of a service before and after the second pass. *)
Definition ports_outcome (final : list Z) (svc svc' : service) : Prop :=
  match svc_ports svc with
  | Some ps =>
      ∃ out, svc_ports svc' = Some (PStr <$> out)
             ∧ Forall2 (port_outcome c0 final) ps out
  | None => svc_ports svc' = None
  end.

Definition services_ports_outcome (final : list Z)
    (svcs svcs' : list (string * service)) : Prop :=
  Forall2 (λ kv kv', fst kv' = fst kv ∧ ports_outcome final (snd kv) (snd kv')) svcs svcs'.

Lemma ports_outcome_mono (final final' : list Z) (svc svc' : service) :
  final ⊆ final' → ports_outcome final svc svc' → ports_outcome final' svc svc'.
Proof.
  unfold ports_outcome. intros Hsub. destruct (svc_ports svc); [|done].
  intros (out & Hout & Hall). exists out. split; [done|].
  eapply Forall2_impl; [done|]. intros p s. by apply port_outcome_mono.
Qed.

Lemma services_ports_outcome_mono (final final' : list Z)
    (svcs svcs' : list (string * service)) :
  final ⊆ final' →
  services_ports_outcome final svcs svcs' → services_ports_outcome final' svcs svcs'.
Proof.
  intros Hsub Hall. eapply Forall2_impl; [done|]. intros kv kv' [? ?]. split; [done|].
  by eapply ports_outcome_mono.
Qed.

Lemma fix_service_ports (base : string) (c c' : census) (seen : list Z)
    (svc svc' m : service) (todo : list port_entry) :
  Forall plain (svc_port_list svc) →
  port_inv c0 all0 c seen (svc_port_list svc ++ todo)%list →
  fix_service base c svc = inr (c', svc', m) →
  let seen' := (seen ++ fix_hosts (svc_port_list svc'))%list in
  port_inv c0 all0 c' seen' todo ∧ ports_outcome seen' svc svc'.
Proof.
  intros Hplain Hinv Hfix. unfold fix_service in Hfix.
  unfold svc_port_list, ports_outcome in *.
  destruct (svc_ports svc) as [ports|] eqn:Hports; simpl in *.
  - pose proof (fix_ports_inv c0 all0 c seen ports todo Hplain Hinv) as Hstep.
    destruct (fix_ports c ports) as [c1 newPorts]. destruct Hstep as [Hinv1 Hout].
    assert (same_hosts c1 c' ∧ svc_ports svc' = Some (PStr <$> newPorts)) as [Hsame Hports'].
    { destruct (svc_networks svc) as [nets|].
      - destruct (fix_nets_frame _ _ _ _ _ _ _ _ Hfix) as [? (? & _)]. done.
      - by injection Hfix as <- <- <-. }
    rewrite Hports'. simpl. split; [by eapply port_inv_same_hosts|].
    by exists newPorts.
  - assert (same_hosts c c' ∧ svc_ports svc' = None) as [Hsame Hports'].
    { destruct (svc_networks svc) as [nets|].
      - destruct (fix_nets_frame _ _ _ _ _ _ _ _ Hfix) as [? (? & _)].
        split; [done|congruence].
      - by injection Hfix as <- <- <-. }
    rewrite Hports'. simpl. rewrite app_nil_r. split; [|done].
    by eapply port_inv_same_hosts.
Qed.

Lemma fix_services_ports (base : string) (svcs : list (string * service)) :
  ∀ (c c' : census) (seen : list Z) (svcs' ms : list (string * service))
    (todo : list port_entry),
    Forall plain (ports_of_services svcs) →
    port_inv c0 all0 c seen (ports_of_services svcs ++ todo)%list →
    fix_services base c svcs = inr (c', svcs', ms) →
    let seen' := (seen ++ fix_hosts (ports_of_services svcs'))%list in
    port_inv c0 all0 c' seen' todo ∧ services_ports_outcome seen' svcs svcs'.
Proof.
  unfold ports_of_services.
  induction svcs as [|[name svc] svcs IH]; intros c c' seen svcs' ms todo Hplain Hinv Hfix;
    cbn [fix_services] in Hfix.
  - injection Hfix as <- <- <-. simpl. rewrite app_nil_r. split; [done|constructor].
  - rewrite bind_cons in Hplain, Hinv. simpl in Hplain, Hinv.
    apply Forall_app in Hplain as [Hp1 Hp2]. rewrite <- app_assoc in Hinv.
    destruct (fix_service base c svc) as [e|[[c1 svc1] m1]] eqn:Hsvc; [done|].
    destruct (fix_service_ports _ _ _ _ _ _ _ _ Hp1 Hinv Hsvc) as [Hinv1 Hout1].
    destruct (fix_services base c1 svcs) as [e|[[c2 svcs2] ms2]] eqn:Hrest; [done|].
    injection Hfix as <- <- <-.
    destruct (IH _ _ _ _ _ _ Hp2 Hinv1 Hrest) as [Hinv2 Hout2].
    rewrite bind_cons. simpl. rewrite fix_hosts_app, app_assoc. split; [done|].
    constructor; [|done]. split; [done|].
    eapply ports_outcome_mono; [|done]. intros x Hx. apply elem_of_app. by left.
Qed.

End PortPassTrees.

(** ** The two passes without the files *)

(** The second pass as a function of the census and [composeData]: for
    each element the tree [writeCompose] is called with and its
    [serviceMapper]. An exception ends the pass. *)
Fixpoint second_pass (base : string) (c : census) (items : list item)
    : string + (census * list (item * compose * list (string * service))) :=
  match items with
  | [] => inr (c, [])
  | it :: rest =>
      match fix_item base c it with
      | inl e => inl e
      | inr (c1, obj', serviceMapper) =>
          match second_pass base c1 rest with
          | inl e => inl e
          | inr (c2, results) => inr (c2, (it, obj', serviceMapper) :: results)
          end
      end
  end.

(** The ports of the trees the second pass produced. *)
Definition ports_of_results (results : list (item * compose * list (string * service)))
    : list port_entry :=
  results ≫= (λ r, ports_of_services (services (snd (fst r)))).

Section SecondPassPorts.

Variable c0 : census.
Variable all0 : list Z.

(** A document before and after the second pass, as far as ports go. *)
Definition item_ports_outcome (final : list Z) (it : item)
    (r : item * compose * list (string * service)) : Prop :=
  fst (fst r) = it
  ∧ ∃ obj, item_obj it = Doc obj
           ∧ services_ports_outcome c0 final (services obj) (services (snd (fst r))).

Lemma second_pass_ports (base : string) (items : list item) :
  ∀ (c c' : census) (seen : list Z) results,
    Forall plain (ports_of_items items) →
    port_inv c0 all0 c seen (ports_of_items items) →
    second_pass base c items = inr (c', results) →
    let seen' := (seen ++ fix_hosts (ports_of_results results))%list in
    port_inv c0 all0 c' seen' [] ∧ Forall2 (item_ports_outcome seen') items results.
Proof.
  unfold ports_of_items, ports_of_results.
  induction items as [|it items IH]; intros c c' seen results Hplain Hinv Hpass;
    cbn [second_pass] in Hpass.
  - injection Hpass as <- <-. simpl. rewrite app_nil_r. split; [done|constructor].
  - rewrite bind_cons in Hplain, Hinv. apply Forall_app in Hplain as [Hp1 Hp2].
    destruct (fix_item base c it) as [e|[[c1 obj'] sm]] eqn:Hit; [done|].
    destruct (second_pass base c1 items) as [e|[c2 res]] eqn:Hrest; [done|].
    injection Hpass as <- <-.
    unfold fix_item in Hit. destruct (item_obj it) as [obj|r] eqn:Hobj; [|done].
    simpl in Hp1, Hinv.
    destruct (fix_services base c (services obj)) as [e|[[c1' svcs'] sm']] eqn:Hsvcs; [done|].
    injection Hit as <- <- <-.
    destruct (fix_services_ports c0 all0 _ _ _ _ _ _ _ _ Hp1 Hinv Hsvcs) as [Hinv1 Hout1].
    destruct (IH _ _ _ _ Hp2 Hinv1 Hrest) as [Hinv2 Hout2].
    rewrite bind_cons. simpl. rewrite fix_hosts_app, app_assoc. split; [done|].
    constructor; [|done]. split; [done|]. exists obj. split; [done|]. simpl.
    eapply services_ports_outcome_mono; [|done]. intros x Hx. apply elem_of_app. by left.
Qed.

End SecondPassPorts.

(** The host ports the census reads off a list of entries. *)
Fixpoint census_hosts (ports : list port_entry) : list Z :=
  match ports with
  | [] => []
  | p :: rest =>
      match census_host p with
      | Some h => h :: census_hosts rest
      | None => census_hosts rest
      end
  end.

Lemma fix_hosts_le_census_hosts (h : Z) (ports : list port_entry) :
  (occ h (fix_hosts ports) ≤ occ h (census_hosts ports))%nat.
Proof.
  induction ports as [|p ports IH]; simpl; [done|].
  destruct (fixable_host p) as [h'|] eqn:Hfix.
  - rewrite (fixable_host_census_host _ _ Hfix), !occ_cons. lia.
  - destruct (census_host p); [rewrite occ_cons|]; lia.
Qed.

Lemma hostCount_census_port (c : census) (p : port_entry) (h : Z) :
  hostCount (census_port c p) h
  = (hostCount c h + occ h (census_hosts [p]))%nat.
Proof.
  unfold census_port. simpl. destruct (census_host p) as [host|]; simpl.
  - unfold hostCount at 1. simpl. rewrite occ_cons, occ_nil.
    destruct (decide (host = h)) as [->|Hne].
    + rewrite lookup_insert_eq. simpl. lia.
    + rewrite lookup_insert_ne by done. unfold hostCount. lia.
  - rewrite occ_nil. lia.
Qed.

Lemma census_ports_counts (ports : list port_entry) (c : census) (h : Z) :
  hostCount (foldl census_port c ports) h = (hostCount c h + occ h (census_hosts ports))%nat.
Proof.
  revert c. induction ports as [|p ports IH]; intros c; simpl; [rewrite occ_nil; lia|].
  rewrite IH, hostCount_census_port. simpl.
  destruct (census_host p); rewrite ?occ_cons, ?occ_nil; lia.
Qed.

Lemma census_ports_set (ports : list port_entry) (c : census) (h : Z) :
  h ∈ usedHostSet (foldl census_port c ports) ↔ h ∈ usedHostSet c ∨ h ∈ census_hosts ports.
Proof.
  revert c. induction ports as [|p ports IH]; intros c; simpl.
  - rewrite elem_of_nil. tauto.
  - rewrite IH. unfold census_port. destruct (census_host p) as [host|]; simpl.
    + rewrite elem_of_union, elem_of_singleton, elem_of_cons. intuition congruence.
    + tauto.
Qed.

Lemma census_ports_ips (ports : list port_entry) (c : census) :
  usedIpCounts (foldl census_port c ports) = usedIpCounts c.
Proof.
  revert c. induction ports as [|p ports IH]; intros c; simpl; [done|].
  rewrite IH. unfold census_port. by destruct (census_host p).
Qed.

Lemma bump_ip_if_hosts (o : option string) (c : census) : same_hosts c (bump_ip_if o c).
Proof. unfold bump_ip_if. destruct o; [destruct (truthy _)|]; done. Qed.

Lemma same_hosts_trans (c1 c2 c3 : census) :
  same_hosts c1 c2 → same_hosts c2 c3 → same_hosts c1 c3.
Proof. intros [??] [??]. split; congruence. Qed.

Lemma census_networks_hosts (svc : service) (nets : list (string * net_value)) (c : census) :
  same_hosts c (fst (census_networks svc nets c)).
Proof.
  revert c. induction nets as [|[k net] nets IH]; intros c; simpl; [done|].
  destruct net as [s|a b o|]; simpl.
  - done.
  - eapply same_hosts_trans; [|apply IH].
    repeat (eapply same_hosts_trans; [|apply bump_ip_if_hosts]).
    destruct (truthy a); [apply bump_ip_if_hosts|done].
  - eapply same_hosts_trans; [|apply IH].
    repeat (eapply same_hosts_trans; [|apply bump_ip_if_hosts]). done.
Qed.

(** ** The first pass *)

(** What the first loop of [scanAndFix] adds to the census and to
    [composeData] for one directory, as a function of the files. *)
Definition scan_step (files : gmap string text) (st : census * list item) (dir : string)
    : census * list item :=
  match files !! compose_file dir with
  | None => st
  | Some content =>
      match YAML_parse content with
      | inl _ => st
      | inr doc =>
          let obj := default (Doc empty_compose) doc in
          match census_services (fst st) (services_of obj) with
          | (c', Some _) => (c', snd st)
          | (c', None) =>
              (c', (snd st ++ [Item dir (compose_file dir) obj
                                    (usedNets_of (services_of obj))])%list)
          end
      end
  end.

Definition first_pass (files : gmap string text) (dirs : list string) : census * list item :=
  foldl (scan_step files) (census0, []) dirs.

(** Events that change no file. *)
Definition quiet_event (e : io_event text) : Prop :=
  match e with
  | Write _ _ | Unlink _ => False
  | _ => True
  end.

Lemma scan_project_run (st : census * list item) (dir : string) (w : world text) :
  ∃ evs, scan_project st dir w
         = (World (fs w) (unwritable w) (trace w ++ evs)%list, inr (scan_step (fs w) st dir))
         ∧ Forall quiet_event evs.
Proof.
  unfold scan_project, scan_step, io_bind, attempt, readFileSync, log, emit, io_ret. simpl.
  destruct (fs w !! compose_file dir) as [content|]; simpl.
  - destruct (YAML_parse content) as [e|doc]; simpl.
    + eexists. rewrite <- app_assoc. split; [done|]. repeat constructor.
    + destruct (census_services st.1 _) as [c' [e|]]; simpl.
      * eexists. rewrite <- app_assoc. split; [done|]. repeat constructor.
      * eexists. split; [done|]. repeat constructor.
  - eexists. split; [done|]. repeat constructor.
Qed.

Lemma first_pass_run (dirs : list string) :
  ∀ (st : census * list item) (w : world text),
    ∃ evs, io_foldl scan_project st dirs w
           = (World (fs w) (unwritable w) (trace w ++ evs)%list,
              inr (foldl (scan_step (fs w)) st dirs))
           ∧ Forall quiet_event evs.
Proof.
  induction dirs as [|dir dirs IH]; intros st w; simpl.
  - exists []. rewrite app_nil_r. split; [by destruct w|constructor].
  - destruct (scan_project_run st dir w) as (evs1 & Hrun1 & Hq1).
    unfold io_bind at 1. rewrite Hrun1.
    destruct (IH (scan_step (fs w) st dir)
                 (World (fs w) (unwritable w) (trace w ++ evs1)%list)) as (evs2 & Hrun2 & Hq2).
    simpl in Hrun2. exists (evs1 ++ evs2)%list. rewrite Hrun2, app_assoc.
    split; [done|]. by apply Forall_app.
Qed.

(** ** The tick and the terminal counter *)

(** C7. With a positive counter the tick only logs that it skips the
    scan: no file is looked at, read, written or removed, and the
    mapper stays as it is. *)
Theorem runner_skips_while_terminals_active (n : Z) (w : world text) :
  0 < n →
  runner (Some n) w
  = (World (fs w) (unwritable w)
           (trace w ++ [Log ["skipping scan because activeTerminalCount="
                             +:+ Number_toString n]])%list,
     inr tt).
Proof.
  intros Hn. unfold runner. rewrite decide_True by done. reflexivity.
Qed.

(** ** The single run *)

(** [runner] catches whatever the scan throws: it always returns. *)
Lemma runner_returns (count : option Z) (w : world text) :
  ∃ w', runner count w = (w', inr tt).
Proof.
  unfold runner. cbv zeta.
  match goal with
  | |- ∃ w', match ?run with _ => _ end = _ => destruct run as [w' [e|[]]]
  end; [|by eexists].
  unfold log, emit. by eexists.
Qed.

(** So the single run exits with 0 whatever happened in the scan. *)
Lemma single_run_exit_code (w : world text) : snd (single_run w) = 0.
Proof.
  unfold single_run. destruct (runner_returns None w) as [w' ->]. done.
Qed.

(** ** Bare addresses in the first pass *)

Definition has_string_network (svc : service) : Prop :=
  ∃ k s, (k, NetStr s) ∈ default [] (svc_networks svc).

Definition reference_error : string := "isIpv4 is not defined".

Lemma census_networks_throws (svc : service) (nets : list (string * net_value)) (c : census) :
  match snd (census_networks svc nets c) with
  | Some e => e = reference_error ∧ ∃ k s, (k, NetStr s) ∈ nets
  | None => ∀ k s, (k, NetStr s) ∉ nets
  end.
Proof.
  revert c. induction nets as [|[k' net] nets IH]; intros c; simpl.
  - intros k s. apply not_elem_of_nil.
  - destruct net as [s'|a b o|]; simpl.
    + split; [done|]. exists k', s'. by left.
    + match goal with |- context [census_networks svc nets ?c1] => specialize (IH c1) end.
      destruct (snd (census_networks svc nets _)) as [e|].
      * destruct IH as [-> (k & s & Hin)]. split; [done|]. exists k, s. by right.
      * intros k s [Heq|Hin]%elem_of_cons; [done|]. by apply (IH k s).
    + match goal with |- context [census_networks svc nets ?c1] => specialize (IH c1) end.
      destruct (snd (census_networks svc nets _)) as [e|].
      * destruct IH as [-> (k & s & Hin)]. split; [done|]. exists k, s. by right.
      * intros k s [Heq|Hin]%elem_of_cons; [done|]. by apply (IH k s).
Qed.

(** The first pass of a project ends with the reference error exactly
    when one of its services has a string under [networks]; such a
    project never reaches [composeData]. *)
Lemma census_services_throws (svcs : list (string * service)) (c : census) :
  match snd (census_services c svcs) with
  | Some e => e = reference_error ∧ ∃ name svc, (name, svc) ∈ svcs ∧ has_string_network svc
  | None => ∀ name svc, (name, svc) ∈ svcs → ¬ has_string_network svc
  end.
Proof.
  revert c. induction svcs as [|[name' svc'] svcs IH]; intros c; simpl.
  - intros name svc Hin. by apply elem_of_nil in Hin.
  - unfold census_service.
    pose proof (census_networks_throws svc' (default [] (svc_networks svc'))
                  (foldl census_port c (default [] (svc_ports svc')))) as Hnets.
    destruct (census_networks svc' _ _) as [c2 [e|]]; simpl in *.
    + destruct Hnets as [-> Hstr]. split; [done|]. exists name', svc'. split; [by left|done].
    + match goal with |- context [census_services ?c1 svcs] => specialize (IH c1) end.
      destruct (census_services _ svcs) as [c3 [e|]]; simpl in *.
      * destruct IH as [-> (name & svc & Hin & Hstr)]. split; [done|].
        exists name, svc. split; [by right|done].
      * intros name svc [Heq|Hin]%elem_of_cons.
        -- injection Heq as -> ->. intros (k & s & Hin). by apply (Hnets k s).
        -- by apply (IH name svc).
Qed.

(** ** The network pass over services, documents and [composeData] *)

(** The names under [svc.networks] are the keys of an object: no name
    comes twice. *)
Definition distinct_networks (svc : service) : Prop :=
  NoDup (fst <$> default [] (svc_networks svc)).

Section NetPassTrees.

Variable c0 : census.

Lemma ip_inv_same_ips (c c' : census) :
  usedIpCounts c' = usedIpCounts c → ip_inv c0 c → ip_inv c0 c'.
Proof.
  intros Heq [Hold Hnew]. split.
  - intros ip Hip. rewrite Heq. by apply Hold.
  - intros ip Hip. unfold ipCount. rewrite Heq. by apply Hnew.
Qed.

(** The attachments of a service before and after the second pass, and
    what else the service holds. *)
Definition nets_outcome (svc svc' : service) : Prop :=
  match svc_networks svc with
  | Some nets =>
      ∃ nets', svc_networks svc' = Some nets' ∧ Forall2 (net_entry_outcome c0) nets nets'
  | None => svc_networks svc' = None
  end
  ∧ svc_ipv4_address svc' = svc_ipv4_address svc
  ∧ svc_ipv4Address svc' = svc_ipv4Address svc
  ∧ svc_others svc' = svc_others svc.

Lemma fix_service_nets (b : string) (c c' : census) (svc svc' m : service) :
  distinct_networks svc →
  ip_inv c0 c →
  fix_service (b +:+ ".") c svc = inr (c', svc', m) →
  ip_inv c0 c' ∧ nets_outcome svc svc'.
Proof.
  unfold distinct_networks, nets_outcome. intros Hnd Hinv Hfix. unfold fix_service in Hfix.
  set (ported :=
         match svc_ports svc with
         | Some ports =>
             let '(c1, newPorts) := fix_ports c ports in
             (c1,
              Service (Some (PStr <$> newPorts)) (svc_networks svc) (svc_ipv4_address svc)
                      (svc_ipv4Address svc) (svc_others svc),
              Service (Some (PStr <$> newPorts)) (svc_networks svc) (svc_ipv4_address svc)
                      (svc_ipv4Address svc) (svc_others svc))
         | None =>
             (c, svc,
              Service (Some []) (svc_networks svc) (svc_ipv4_address svc)
                      (svc_ipv4Address svc) (svc_others svc))
         end) in Hfix.
  assert (ip_inv c0 ported.1.1
          ∧ svc_networks ported.1.2 = svc_networks svc
          ∧ svc_ipv4_address ported.1.2 = svc_ipv4_address svc
          ∧ svc_ipv4Address ported.1.2 = svc_ipv4Address svc
          ∧ svc_others ported.1.2 = svc_others svc) as (Hinv1 & Hn1 & Ha1 & Hb1 & Ho1).
  { subst ported. destruct (svc_ports svc) as [ports|]; [|done].
    pose proof (fix_ports_ips c ports) as Hips.
    destruct (fix_ports c ports) as [c1 newPorts]. simpl in *.
    split; [by eapply ip_inv_same_ips|done]. }
  destruct ported as [[c1 svc1] m1]. simpl in *.
  destruct (svc_networks svc) as [nets|] eqn:Hnets; simpl in *.
  - destruct (fix_nets_frame _ _ _ _ _ _ _ _ Hfix) as [_ (_ & Ha & Hb & Ho)].
    destruct (fix_nets_spec c0 b nets [] [] c1 c' svc1 svc' m1 m Hinv1 Hnd
                ltac:(constructor) Hn1 Hfix) as (Hinv' & nets' & Hnets' & Hall).
    split; [done|]. split; [by exists nets'|]. repeat split; congruence.
  - injection Hfix as <- <- <-. split; [done|]. by repeat split.
Qed.

Definition services_nets_outcome (svcs svcs' : list (string * service)) : Prop :=
  Forall2 (λ kv kv', fst kv' = fst kv ∧ nets_outcome (snd kv) (snd kv')) svcs svcs'.

Lemma fix_services_nets (b : string) (svcs : list (string * service)) :
  ∀ (c c' : census) (svcs' ms : list (string * service)),
    Forall (λ kv, distinct_networks (snd kv)) svcs →
    ip_inv c0 c →
    fix_services (b +:+ ".") c svcs = inr (c', svcs', ms) →
    ip_inv c0 c' ∧ services_nets_outcome svcs svcs'.
Proof.
  induction svcs as [|[name svc] svcs IH]; intros c c' svcs' ms Hwf Hinv Hfix;
    cbn [fix_services] in Hfix.
  - injection Hfix as <- <- <-. split; [done|constructor].
  - inversion Hwf as [|?? Hwf1 Hwf2]; subst. simpl in Hwf1.
    destruct (fix_service (b +:+ ".") c svc) as [e|[[c1 svc1] m1]] eqn:Hsvc; [done|].
    destruct (fix_services (b +:+ ".") c1 svcs) as [e|[[c2 svcs2] ms2]] eqn:Hrest; [done|].
    injection Hfix as <- <- <-.
    destruct (fix_service_nets _ _ _ _ _ _ Hwf1 Hinv Hsvc) as [Hinv1 Hout1].
    destruct (IH _ _ _ _ Hwf2 Hinv1 Hrest) as [Hinv2 Hout2].
    split; [done|]. constructor; [by split|done].
Qed.

(** A document before and after the second pass, as far as addresses
    go. *)
Definition item_nets_outcome (it : item)
    (r : item * compose * list (string * service)) : Prop :=
  ∃ obj, item_obj it = Doc obj
         ∧ services_nets_outcome (services obj) (services (snd (fst r)))
         ∧ others (snd (fst r)) = others obj.

Definition distinct_networks_item (it : item) : Prop :=
  Forall (λ kv, distinct_networks (snd kv)) (services_of (item_obj it)).

Lemma second_pass_nets (b : string) (items : list item) :
  ∀ (c c' : census) results,
    Forall distinct_networks_item items →
    ip_inv c0 c →
    second_pass (b +:+ ".") c items = inr (c', results) →
    ip_inv c0 c' ∧ Forall2 item_nets_outcome items results.
Proof.
  induction items as [|it items IH]; intros c c' results Hwf Hinv Hpass;
    cbn [second_pass] in Hpass.
  - injection Hpass as <- <-. split; [done|constructor].
  - inversion Hwf as [|?? Hwf1 Hwf2]; subst.
    destruct (fix_item (b +:+ ".") c it) as [e|[[c1 obj'] sm]] eqn:Hit; [done|].
    destruct (second_pass (b +:+ ".") c1 items) as [e|[c2 res]] eqn:Hrest; [done|].
    injection Hpass as <- <-.
    unfold fix_item in Hit. unfold distinct_networks_item in Hwf1.
    destruct (item_obj it) as [obj|r] eqn:Hobj; [|done]. simpl in Hwf1.
    destruct (fix_services (b +:+ ".") c (services obj)) as [e|[[c1' svcs'] sm']] eqn:Hsvcs;
      [done|].
    injection Hit as <- <- <-.
    destruct (fix_services_nets _ _ _ _ _ _ Hwf1 Hinv Hsvcs) as [Hinv1 Hout1].
    destruct (IH _ _ _ Hwf2 Hinv1 Hrest) as [Hinv2 Hout2].
    split; [done|]. constructor; [|done]. exists obj. by repeat split.
Qed.

End NetPassTrees.

(** ** Paths of the tick *)

Lemma length_append (a b : string) :
  String.length (a +:+ b) = (String.length a + String.length b)%nat.
Proof.
  induction a as [|x a IH]; [done|].
  change (S (String.length (a +:+ b)) = S (String.length a + String.length b)). by rewrite IH.
Qed.

(** Two strings with suffixes of one length are equal only when the
    suffixes are. *)
Lemma append_same_length_suffix (a b x y : string) :
  a +:+ x = b +:+ y → String.length x = String.length y → a = b ∧ x = y.
Proof.
  revert b. induction a as [|c a IH]; intros [|d b] Heq Hlen.
  - done.
  - change (x = String d (b +:+ y)) in Heq. subst x.
    change (S (String.length (b +:+ y)) = String.length y) in Hlen.
    rewrite length_append in Hlen. lia.
  - change (String c (a +:+ x) = y) in Heq. subst y.
    change (String.length x = S (String.length (a +:+ x))) in Hlen.
    rewrite length_append in Hlen. lia.
  - change (String c (a +:+ x) = String d (b +:+ y)) in Heq.
    injection Heq as -> Heq. destruct (IH _ Heq Hlen) as [-> ->]. done.
Qed.

Lemma compose_file_inj : Inj (=) (=) compose_file.
Proof.
  intros a b Heq. unfold compose_file in Heq.
  by destruct (append_same_length_suffix _ _ _ _ Heq eq_refl).
Qed.

Lemma compose_file_not_mapper_json (dir : string) : compose_file dir ≠ mapper_json.
Proof.
  unfold compose_file, mapper_json. intros Heq.
  replace (dir +:+ "/docker-compose.yml") with ((dir +:+ "/docker-c") +:+ "ompose.yml")
    in Heq by (by rewrite append_assoc).
  replace (script_dir +:+ "/mapper.json") with ((script_dir +:+ "/m") +:+ "apper.json")
    in Heq by (by rewrite append_assoc).
  by destruct (append_same_length_suffix _ _ _ _ Heq eq_refl).
Qed.

Lemma compose_file_not_mapper_js (dir : string) : compose_file dir ≠ mapper_js.
Proof.
  unfold compose_file, mapper_js. intros Heq.
  replace (dir +:+ "/docker-compose.yml") with ((dir +:+ "/docker-co") +:+ "mpose.yml")
    in Heq by (by rewrite append_assoc).
  replace (script_dir +:+ "/mapper.js") with ((script_dir +:+ "/") +:+ "mapper.js")
    in Heq by (by rewrite append_assoc).
  by destruct (append_same_length_suffix _ _ _ _ Heq eq_refl).
Qed.

(** ** What the second pass hands to [writeCompose] *)

Definition no_string_network (nets : list (string * net_value)) : Prop :=
  Forall (λ kv, ∀ s, snd kv ≠ NetStr s) nets.

Lemma sanitize_nets_id (nets : list (string * net_value)) :
  no_string_network nets → sanitize_nets nets = nets.
Proof.
  unfold sanitize_nets. induction 1 as [|[k v] nets Hv _ IH]; [done|].
  rewrite fmap_cons, IH. f_equal. unfold prod_map. simpl. f_equal.
  destruct v as [s| |]; [by destruct (Hv s)|done..].
Qed.

Lemma sanitize_ports_strings (strings : list string) :
  sanitize_ports (PStr <$> strings) = PStr <$> strings.
Proof.
  unfold sanitize_ports. f_equal. induction strings as [|s l IH]; [done|].
  csimpl. by rewrite IH.
Qed.

Lemma no_string_network_alist_set (k : string) (v : net_value)
    (nets : list (string * net_value)) :
  (∀ s, v ≠ NetStr s) → no_string_network nets → no_string_network (alist_set k v nets).
Proof.
  intros Hv. induction 1 as [|[k' v'] nets Hv' Hnets IH]; simpl.
  - by repeat constructor.
  - destruct (decide (k' = k)); by constructor.
Qed.

(** After the network pass no attachment of the service is a string. *)
Lemma fix_net_no_strings (base k : string) (net : net_value)
    (c c' : census) (svc svc' m m' : service) :
  fix_net base k net (c, svc, m) = inr (c', svc', m') →
  (∀ s, net ≠ NetStr s)
  ∧ (no_string_network (default [] (svc_networks svc)) →
     no_string_network (default [] (svc_networks svc'))).
Proof.
  unfold fix_net. intros Hfix.
  destruct net as [s|a b o|]; [unfold isIpv4 in Hfix; discriminate| |].
  2:{ injection Hfix as <- <- <-. done. }
  split; [done|]. intros Hno.
  repeat (match goal with
          | H : context [match ?x with _ => _ end] |- _ => destruct x eqn:?
          | H : context [if ?x then _ else _] |- _ => destruct x eqn:?
          end; try discriminate);
    simplify_eq; try done;
    unfold set_net; simpl; destruct (svc_networks svc); simpl in *; try done;
    by apply no_string_network_alist_set.
Qed.

Lemma fix_nets_no_strings (base : string) (nets : list (string * net_value))
    (c c' : census) (svc svc' m m' : service) :
  fix_nets base nets (c, svc, m) = inr (c', svc', m') →
  no_string_network nets
  ∧ (no_string_network (default [] (svc_networks svc)) →
     no_string_network (default [] (svc_networks svc'))).
Proof.
  revert c svc m. induction nets as [|[k net] nets IH]; intros c svc m Hfix;
    cbn [fix_nets] in Hfix.
  - injection Hfix as <- <- <-. split; [constructor|done].
  - destruct (fix_net base k net (c, svc, m)) as [e|[[c1 svc1] m1]] eqn:Hstep; [done|].
    destruct (fix_net_no_strings _ _ _ _ _ _ _ _ _ Hstep) as [Hnet Hsvc1].
    destruct (IH _ _ _ Hfix) as [Hnets Hsvc'].
    split; [by constructor|]. intros Hno. by apply Hsvc', Hsvc1.
Qed.

Lemma fix_service_sanitized (base : string) (c c' : census) (svc svc' m : service) :
  fix_service base c svc = inr (c', svc', m) → sanitize_service svc' = svc'.
Proof.
  intros Hfix. unfold fix_service in Hfix.
  assert (∃ c1 svc1 m1,
             (match svc_networks svc with
              | Some nets => fix_nets base nets (c1, svc1, m1)
              | None => inr (c1, svc1, m1)
              end) = inr (c', svc', m)
             ∧ svc_networks svc1 = svc_networks svc
             ∧ sanitize_ports <$> svc_ports svc1 = svc_ports svc1) as
      (c1 & svc1 & m1 & Hnets & Hn1 & Hp1).
  { destruct (svc_ports svc) as [ports|] eqn:Hports.
    - destruct (fix_ports c ports) as [c1 newPorts]. eexists _, _, _. split; [done|].
      split; [done|]. simpl. by rewrite sanitize_ports_strings.
    - eexists _, _, _. split; [done|]. split; [done|]. by rewrite Hports. }
  assert (svc_ports svc' = svc_ports svc1
          ∧ no_string_network (default [] (svc_networks svc'))) as [Hp' Hn'].
  { destruct (svc_networks svc) as [nets|] eqn:Hsn.
    - destruct (fix_nets_frame _ _ _ _ _ _ _ _ Hnets) as [_ (? & _)].
      destruct (fix_nets_no_strings _ _ _ _ _ _ _ _ Hnets) as [Hno Hkeep].
      split; [done|]. apply Hkeep. by rewrite Hn1.
    - injection Hnets as <- <- <-. split; [done|]. rewrite Hn1. constructor. }
  destruct svc' as [ports' nets' a' b' o']. unfold sanitize_service. simpl in *.
  rewrite Hp' at 1. rewrite Hp1, <- Hp'. f_equal.
  destruct nets' as [nets'|]; [|done]. simpl in *. by rewrite sanitize_nets_id.
Qed.

Lemma fix_services_sanitized (base : string) (svcs : list (string * service)) :
  ∀ (c c' : census) (svcs' ms : list (string * service)),
    fix_services base c svcs = inr (c', svcs', ms) →
    prod_map id sanitize_service <$> svcs' = svcs'.
Proof.
  induction svcs as [|[name svc] svcs IH]; intros c c' svcs' ms Hfix;
    cbn [fix_services] in Hfix.
  - by injection Hfix as <- <- <-.
  - destruct (fix_service base c svc) as [e|[[c1 svc1] m1]] eqn:Hsvc; [done|].
    destruct (fix_services base c1 svcs) as [e|[[c2 svcs2] ms2]] eqn:Hrest; [done|].
    injection Hfix as <- <- <-. rewrite fmap_cons, (IH _ _ _ _ Hrest).
    unfold prod_map at 1. simpl. by rewrite (fix_service_sanitized _ _ _ _ _ _ Hsvc).
Qed.

(** The tree the second pass hands to [writeCompose] is written as it
    is: the sanitizer finds nothing to change. *)
Lemma fix_item_sanitized (base : string) (c c' : census) (it : item)
    (obj' : compose) (serviceMapper : list (string * service)) :
  fix_item base c it = inr (c', obj', serviceMapper) → sanitize obj' = obj'.
Proof.
  unfold fix_item. destruct (item_obj it) as [obj|r]; [|done].
  destruct (fix_services base c (services obj)) as [e|[[c1 svcs'] sm]] eqn:Hsvcs; [done|].
  intros [= <- <- <-]. unfold sanitize. simpl.
  by rewrite (fix_services_sanitized _ _ _ _ _ _ Hsvcs).
Qed.

(** ** [writeCompose] on the files *)

(** What a call of [writeCompose] leaves behind: nothing written when
    the file already holds the text of the tree, the text of the
    sanitized tree otherwise, and nothing written when the write
    throws. *)
Lemma writeCompose_run (filePath : string) (obj : compose) (w : world text) :
  ∃ evs,
    (fs w !! filePath = Some (YAML_stringify obj)
     ∧ writeCompose filePath obj w
       = (World (fs w) (unwritable w) (trace w ++ evs)%list, inr false)
     ∧ Forall quiet_event evs)
    ∨ (fs w !! filePath ≠ Some (YAML_stringify obj)
       ∧ (filePath ∉ unwritable w)
       ∧ writeCompose filePath obj w
         = (World (<[filePath := YAML_stringify (sanitize obj)]> (fs w)) (unwritable w)
                  (trace w ++ evs ++ [Write filePath (YAML_stringify (sanitize obj))])%list,
            inr true)
       ∧ Forall quiet_event evs)
    ∨ (fs w !! filePath ≠ Some (YAML_stringify obj)
       ∧ filePath ∈ unwritable w
       ∧ writeCompose filePath obj w
         = (World (fs w) (unwritable w) (trace w ++ evs)%list, inl "EACCES")
       ∧ Forall quiet_event evs).
Proof.
  unfold writeCompose, io_bind, existsSync, readFileSync, writeFileSync, io_ret. simpl.
  destruct (fs w !! filePath) as [cur|] eqn:Hcur; simpl.
  - rewrite Hcur. simpl.
    destruct (decide (cur = YAML_stringify obj)) as [->|Hne].
    + rewrite bool_decide_true by done. simpl.
      exists [Stat filePath; Read filePath]. left. rewrite <- app_assoc.
      split; [done|]. split; [done|]. repeat constructor.
    + rewrite bool_decide_false by done. simpl.
      exists [Stat filePath; Read filePath].
      destruct (decide (filePath ∈ unwritable w)) as [Hro|Hrw].
      * right. right. rewrite <- app_assoc. split; [congruence|]. split; [done|].
        split; [done|]. repeat constructor.
      * right. left. rewrite <- !app_assoc. split; [congruence|]. split; [done|].
        split; [done|]. repeat constructor.
  - exists [Stat filePath].
    destruct (decide (filePath ∈ unwritable w)) as [Hro|Hrw].
    + right. right. split; [done|]. split; [done|]. split; [done|]. repeat constructor.
    + right. left. rewrite <- !app_assoc. split; [done|]. split; [done|].
      split; [done|]. repeat constructor.
Qed.

(** ** The second pass on the files *)

(** What the tick leaves in the file of a project it processed: the
    text of the tree it computed, or, when the file cannot be written,
    what was there. *)
Definition written (w w' : world text) (it : item) (tree : compose) : Prop :=
  fs w' !! item_file it = Some (YAML_stringify tree)
  ∨ (item_file it ∈ unwritable w ∧ fs w' !! item_file it = fs w !! item_file it).

Lemma fix_and_write_run (st : census * mapper_t) (it : item) (w w' : world text)
    (r : string + census * mapper_t) :
  fix_and_write st it w = (w', r) →
  unwritable w' = unwritable w
  ∧ (∀ p, p ≠ item_file it → fs w' !! p = fs w !! p)
  ∧ match fix_item NETWORK_base (fst st) it with
    | inl e => r = inl e
    | inr (c', obj', _) => (∃ mapper', r = inr (c', mapper')) ∧ written w w' it obj'
    end.
Proof.
  unfold fix_and_write, written.
  destruct (fix_item NETWORK_base st.1 it) as [e|[[c' obj'] sm]] eqn:Hfix.
  - intros [= <- <-]. done.
  - rewrite <- (fix_item_sanitized _ _ _ _ _ _ Hfix) at 2.
    unfold io_bind, attempt, log, emit, io_ret.
    destruct (writeCompose_run (item_file it) obj' w)
      as (evs & [(Hcur & -> & _)|[(Hcur & Hrw & -> & _)|(Hcur & Hro & -> & _)]]);
      simpl; intros [= <- <-]; simpl.
    + split; [done|]. split; [done|]. split; [by eexists|]. left.
      by rewrite (fix_item_sanitized _ _ _ _ _ _ Hfix).
    + split; [done|]. split; [intros p Hp; by rewrite lookup_insert_ne|].
      split; [by eexists|]. left. by rewrite lookup_insert_eq.
    + split; [done|]. split; [done|]. split; [by eexists|]. by right.
Qed.

Lemma Forall2_impl_elem {A B} (P Q : A → B → Prop) (l : list A) (k : list B) :
  Forall2 P l k → (∀ x y, x ∈ l → P x y → Q x y) → Forall2 Q l k.
Proof.
  induction 1 as [|x y l k Hxy _ IH]; intros Himpl; constructor.
  - apply Himpl; [by left|done].
  - apply IH. intros x' y' Hin. apply Himpl. by right.
Qed.

Lemma second_pass_run (items : list item) :
  ∀ (st : census * mapper_t) (w w' : world text) (r : string + census * mapper_t),
    io_foldl fix_and_write st items w = (w', r) →
    unwritable w' = unwritable w
    ∧ (∀ p, p ∉ item_file <$> items → fs w' !! p = fs w !! p)
    ∧ match second_pass NETWORK_base (fst st) items with
      | inl e => r = inl e
      | inr (c', results) =>
          (∃ mapper', r = inr (c', mapper'))
          ∧ (NoDup (item_file <$> items) →
             Forall2 (λ it res, fst (fst res) = it ∧ written w w' it (snd (fst res)))
                     items results)
      end.
Proof.
  induction items as [|it items IH]; intros [c mapper] w w' r Hrun; simpl in Hrun.
  - injection Hrun as <- <-. simpl. split; [done|]. split; [done|].
    split; [by eexists|]. constructor.
  - unfold io_bind in Hrun.
    destruct (fix_and_write (c, mapper) it w) as [w1 r1] eqn:Hstep.
    destruct (fix_and_write_run _ _ _ _ _ Hstep) as (Hro1 & Hfs1 & Hres1).
    cbn [second_pass]. rewrite fmap_cons.
    simpl in Hres1 |- *.
    destruct (fix_item NETWORK_base c it) as [e|[[c1 obj1] sm1]] eqn:Hfix.
    + subst r1. injection Hrun as <- <-. split; [done|]. split; [|done].
      intros p Hp. apply Hfs1. rewrite not_elem_of_cons in Hp. tauto.
    + destruct Hres1 as [[mapper1 ->] Hwritten1].
      destruct (IH _ _ _ _ Hrun) as (Hro2 & Hfs2 & Hres2). simpl in Hres2.
      split; [congruence|]. split.
      { intros p Hp. rewrite not_elem_of_cons in Hp. rewrite Hfs2 by tauto.
        apply Hfs1. tauto. }
      destruct (second_pass NETWORK_base c1 items) as [e|[c2 results]]; [done|].
      destruct Hres2 as [Hmapper Hall]. split; [done|].
      intros Hnd. apply NoDup_cons in Hnd as [Hnotin Hnd].
      constructor.
      * split; [done|]. unfold written in *. rewrite (Hfs2 _ Hnotin). done.
      * eapply Forall2_impl_elem; [by apply Hall|].
        intros it' res Hin [Hit' Hw]. split; [done|]. unfold written in *.
        assert (item_file it' ≠ item_file it) as Hne.
        { intros Heq. apply Hnotin. rewrite <- Heq. by apply list_elem_of_fmap_2. }
        rewrite <- Hro1, <- (Hfs1 _ Hne). done.
Qed.

(** The end of the scan touches the two mapper files only and never
    throws. *)
Lemma emit_mapper_run (mapper : mapper_t) (w : world text) :
  ∃ w', emit_mapper mapper w = (w', inr tt)
        ∧ unwritable w' = unwritable w
        ∧ ∀ p, p ≠ mapper_js → p ≠ mapper_json → fs w' !! p = fs w !! p.
Proof.
  unfold emit_mapper, write_mapper, io_bind, attempt, existsSync, readFileSync,
    writeFileSync, unlinkSync, log, emit, io_ret. simpl.
  repeat (match goal with
          | |- context [bool_decide ?P] => destruct (bool_decide P)
          | |- context [decide ?P] => destruct (decide P)
          | |- context [match fs w !! ?p with _ => _ end] => destruct (fs w !! p)
          | |- context [match delete ?q (fs w) !! ?p with _ => _ end] =>
              destruct (delete q (fs w) !! p)
          end; simpl);
    eexists; (split; [reflexivity|]); (split; [reflexivity|]); simpl;
    intros p Hjs Hjson; rewrite ?lookup_insert_ne, ?lookup_delete_ne by done; done.
Qed.

(** ** The items of the first pass *)

(** An element of [composeData] as the first pass builds it from the
    file of a directory. *)
Definition item_of_file (files : gmap string text) (it : item) : Prop :=
  item_file it = compose_file (item_dir it)
  ∧ ∃ content doc,
      files !! item_file it = Some content
      ∧ YAML_parse content = inr doc
      ∧ item_obj it = default (Doc empty_compose) doc
      ∧ item_usedNets it = usedNets_of (services_of (item_obj it)).

Lemma scan_step_items (files : gmap string text) (st : census * list item) (dir : string) :
  snd (scan_step files st dir) = snd st
  ∨ ∃ it, snd (scan_step files st dir) = (snd st ++ [it])%list
          ∧ item_dir it = dir ∧ item_of_file files it.
Proof.
  unfold scan_step. destruct (files !! compose_file dir) as [content|] eqn:Hfile; [|by left].
  destruct (YAML_parse content) as [e|doc] eqn:Hparse; [by left|].
  destruct (census_services st.1 _) as [c' [e|]]; [by left|].
  right. eexists. split; [done|]. split; [done|]. split; [done|].
  exists content, doc. done.
Qed.

Lemma first_pass_items (files : gmap string text) (dirs : list string) :
  ∀ st, ∃ new,
    snd (foldl (scan_step files) st dirs) = (snd st ++ new)%list
    ∧ item_dir <$> new `sublist_of` dirs
    ∧ Forall (item_of_file files) new.
Proof.
  induction dirs as [|dir dirs IH]; intros st; simpl.
  - exists []. rewrite app_nil_r. split; [done|]. split; [done|constructor].
  - destruct (IH (scan_step files st dir)) as (new & -> & Hsub & Hall).
    destruct (scan_step_items files st dir) as [->|(it & -> & Hdir & Hit)].
    + exists new. split; [done|]. split; [by apply sublist_cons|done].
    + exists (it :: new). rewrite <- app_assoc. split; [done|].
      split; [|by constructor]. rewrite fmap_cons, Hdir. by apply sublist_skip.
Qed.

Lemma first_pass_files_NoDup (files : gmap string text) (dirs : list string) :
  NoDup dirs → NoDup (item_file <$> snd (first_pass files dirs)).
Proof.
  intros Hnd. unfold first_pass.
  destruct (first_pass_items files dirs (census0, [])) as (new & -> & Hsub & Hall).
  simpl. replace (item_file <$> new) with (compose_file <$> (item_dir <$> new)).
  - apply (NoDup_fmap_2 compose_file (Inj0:=compose_file_inj)). by eapply sublist_NoDup.
  - rewrite <- list_fmap_compose. apply Forall_fmap_ext_1.
    eapply Forall_impl; [done|]. by intros it [-> _].
Qed.

(** ** A scan that returns *)

(** What a scan that returns has done: the second pass went through
    all of [composeData], the file of each project in it holds the text
    of the tree computed for it (unless it cannot be written), and the
    compose files of the other directories are as they were. *)
Lemma scanAndFix_run (w w' : world text) (dirs : list string) :
  projectDirs = inr dirs →
  NoDup dirs →
  scanAndFix w = (w', inr tt) →
  let pass1 := first_pass (fs w) dirs in
  let composeData := merge_sort item_le (snd pass1) in
  ∃ c2 results,
    second_pass NETWORK_base (fst pass1) composeData = inr (c2, results)
    ∧ Forall2 (λ it res, fst (fst res) = it ∧ written w w' it (snd (fst res)))
              composeData results
    ∧ ∀ dir, compose_file dir ∉ item_file <$> composeData →
             fs w' !! compose_file dir = fs w !! compose_file dir.
Proof.
  intros Hdirs Hnd Hrun. unfold scanAndFix in Hrun. rewrite Hdirs in Hrun.
  unfold io_bind at 1, log at 1, emit in Hrun. simpl in Hrun.
  destruct (first_pass_run dirs (census0, [])
              (World (fs w) (unwritable w) (trace w ++ [Log ["scan start"]])%list))
    as (evs1 & Hpass1 & _). simpl in Hpass1.
  unfold io_bind at 1 in Hrun. rewrite Hpass1 in Hrun. fold (first_pass (fs w) dirs) in Hrun.
  cbv zeta in Hrun. unfold io_bind at 1 in Hrun.
  match type of Hrun with
  | context [io_foldl fix_and_write ?st ?items ?w1] =>
      destruct (io_foldl fix_and_write st items w1) as [w2 r2] eqn:Hpass2
  end.
  destruct (second_pass_run _ _ _ _ _ Hpass2) as (Hro2 & Hfs2 & Hres2).
  simpl in Hro2, Hfs2, Hres2.
  cbv zeta.
  destruct (second_pass NETWORK_base (first_pass (fs w) dirs).1
              (merge_sort item_le (first_pass (fs w) dirs).2)) as [e|[c2 results]].
  { subst r2. discriminate. }
  destruct Hres2 as [[mapper2 ->] Hall].
  unfold io_bind at 1 in Hrun.
  destruct (emit_mapper_run mapper2 w2) as (w3 & Hemit & Hro3 & Hfs3).
  simpl in Hrun. rewrite Hemit in Hrun. unfold log, emit in Hrun. simpl in Hrun.
  injection Hrun as <-. simpl.
  assert (NoDup (item_file <$> merge_sort item_le (first_pass (fs w) dirs).2)) as Hnd'.
  { rewrite merge_sort_Permutation. by apply first_pass_files_NoDup. }
  assert (Forall (item_of_file (fs w)) (merge_sort item_le (first_pass (fs w) dirs).2))
    as Hitems.
  { rewrite merge_sort_Permutation. unfold first_pass.
    destruct (first_pass_items (fs w) dirs (census0, [])) as (new & -> & _ & Hnew). done. }
  exists c2, results. split; [done|]. split.
  - eapply Forall2_impl_elem; [by apply Hall|].
    intros it res Hin [Hit Hw]. split; [done|].
    rewrite Forall_forall in Hitems. destruct (Hitems _ Hin) as [Hfile _].
    unfold written in *. simpl in *.
    rewrite Hfs3; [done|rewrite Hfile..].
    + apply compose_file_not_mapper_js.
    + apply compose_file_not_mapper_json.
  - intros dir Hdir. rewrite Hfs3.
    + by apply Hfs2.
    + apply compose_file_not_mapper_js.
    + apply compose_file_not_mapper_json.
Qed.

(** ** What the second pass may rewrite *)

Section Frame.

(** [c0] is the census of the first pass. *)
Variable c0 : census.

(** A port entry and the entry in its place after the tick. Either the
    new entry is the string [String(p)]: a string entry is kept, an
    entry that is not a string gives way to its rendering (an object in
    long form to ["[object Object]"]). Or the entry is a mapping whose
    host port the first pass counted more than once, and the new entry
    is that mapping with a host port the census did not have, bind
    address and container port as they were. The count is the one of
    the first pass, which also takes the port of an entry ["C"] for a
    host port. *)
Definition port_frame (p q : port_entry) : Prop :=
  q = PStr (String_of_port p)
  ∨ ∃ s0 h n, p = PStr s0 ∧ mapping_host s0 = Some h ∧ (1 < hostCount c0 h)%nat
              ∧ q = PStr (move_host s0 n) ∧ n ∉ usedHostSet c0.

(** An attachment and the attachment in its place after the tick: the
    same, unless the census counted the address the second pass looks at
    more than once; then that address gives way to one the census did
    not have and the rest of the attachment stays. *)
Definition net_frame (v v' : net_value) : Prop := net_outcome c0 v v'.

Definition service_frame (svc svc' : service) : Prop :=
  match svc_ports svc, svc_ports svc' with
  | Some ps, Some qs => Forall2 port_frame ps qs
  | None, None => True
  | _, _ => False
  end
  ∧ match svc_networks svc, svc_networks svc' with
    | Some nets, Some nets' =>
        Forall2 (λ kv kv', fst kv' = fst kv ∧ net_frame (snd kv) (snd kv')) nets nets'
    | None, None => True
    | _, _ => False
    end
  ∧ svc_ipv4_address svc' = svc_ipv4_address svc
  ∧ svc_ipv4Address svc' = svc_ipv4Address svc
  ∧ svc_others svc' = svc_others svc.

(** A document and the tree the tick writes for it. *)
Definition tree_frame (obj obj' : compose) : Prop :=
  Forall2 (λ kv kv', fst kv' = fst kv ∧ service_frame (snd kv) (snd kv'))
          (services obj) (services obj')
  ∧ others obj' = others obj.

(** A string entry whose host port the first pass counted once is
    kept. *)
Lemma port_frame_singleton (s : string) (q : port_entry) (h : Z) :
  port_frame (PStr s) q → census_host (PStr s) = Some h → hostCount c0 h = 1%nat →
  q = PStr s.
Proof.
  intros [->|(s0 & h' & n & [= <-] & Hh' & Hdup & _)] Hh Hone; [done|].
  rewrite (fixable_host_census_host (PStr s) h' Hh') in Hh. injection Hh as <-. lia.
Qed.

Lemma net_frame_singleton (v v' : net_value) (ip : string) :
  net_frame v v' → active_ip v = Some ip → ipCount c0 ip = 1%nat → v' = v.
Proof.
  intros [->|(cur & newIp & Hcur & Hdup & _)] Hip Hone; [done|].
  rewrite Hip in Hcur. injection Hcur as <-. lia.
Qed.

(** Counts only go down and the set only grows during the second pass. *)
Definition counts_le (c : census) : Prop :=
  (∀ h, (hostCount c h ≤ hostCount c0 h)%nat) ∧ usedHostSet c0 ⊆ usedHostSet c.

Lemma counts_le_same_hosts (c c' : census) : same_hosts c c' → counts_le c → counts_le c'.
Proof.
  intros [Hcounts Hset] [Hle Hsub]. split.
  - intros h. unfold hostCount. rewrite Hcounts. apply Hle.
  - by rewrite Hset.
Qed.

Lemma fix_port_frame (c : census) (p : port_entry) :
  counts_le c →
  counts_le (fst (fix_port c p)) ∧ port_frame p (PStr (snd (fix_port c p))).
Proof.
  intros [Hle Hsub].
  destruct (fix_port_cases c p) as [(h & s' & Hfix & Hdup & Hstep & Hnew)|[Hsingle ->]].
  - destruct (fix_port_moved c p h Hfix Hdup) as (s0 & Hp & Hmoved).
    rewrite Hstep in Hmoved |- *. cbn [fst snd] in *.
    pose proof (nextHostPort_spec (usedHostSet c)) as (_ & Hfree & _). split; [split|].
    + intros x. rewrite hostCount_reassign by done. specialize (Hle x).
      destruct (decide (x = h)) as [->|]; lia.
    + simpl. set_solver.
    + right. exists s0, h, (nextHostPort (usedHostSet c)).
      split; [done|]. split; [by rewrite Hp in Hfix|].
      split; [specialize (Hle h); lia|]. split; [by rewrite Hmoved|set_solver].
  - split; [done|by left].
Qed.

Lemma fix_ports_frame (ports : list port_entry) :
  ∀ c, counts_le c →
       counts_le (fst (fix_ports c ports))
       ∧ Forall2 port_frame ports (PStr <$> snd (fix_ports c ports)).
Proof.
  induction ports as [|p ports IH]; intros c Hc; simpl; [by split; [|constructor]|].
  destruct (fix_port_frame c p Hc) as [Hc1 Hp]. destruct (fix_port c p) as [c1 s].
  destruct (IH c1 Hc1) as [Hc2 Hps]. destruct (fix_ports c1 ports) as [c2 ss].
  simpl in *. split; [done|]. by constructor.
Qed.

Lemma fix_service_frame (b : string) (c c' : census) (svc svc' m : service) :
  distinct_networks svc →
  counts_le c → ip_inv c0 c →
  fix_service (b +:+ ".") c svc = inr (c', svc', m) →
  counts_le c' ∧ ip_inv c0 c' ∧ service_frame svc svc'.
Proof.
  intros Hwf Hc Hinv Hfix.
  destruct (fix_service_nets c0 _ _ _ _ _ _ Hwf Hinv Hfix) as [Hinv' (Hnets & Ha & Hb & Ho)].
  assert (counts_le c'
          ∧ match svc_ports svc, svc_ports svc' with
            | Some ps, Some qs => Forall2 port_frame ps qs
            | None, None => True
            | _, _ => False
            end) as [Hc' Hports].
  { unfold fix_service in Hfix. destruct (svc_ports svc) as [ports|] eqn:Hports.
    - destruct (fix_ports_frame ports c Hc) as [Hc1 Hps].
      destruct (fix_ports c ports) as [c1 newPorts]. simpl in *.
      assert (same_hosts c1 c' ∧ svc_ports svc' = Some (PStr <$> newPorts)) as [Hsame ->].
      { destruct (svc_networks svc) as [nets|].
        - destruct (fix_nets_frame _ _ _ _ _ _ _ _ Hfix) as [? (? & _)]. done.
        - by injection Hfix as <- <- <-. }
      split; [by eapply counts_le_same_hosts|done].
    - assert (same_hosts c c' ∧ svc_ports svc' = None) as [Hsame ->].
      { destruct (svc_networks svc) as [nets|].
        - destruct (fix_nets_frame _ _ _ _ _ _ _ _ Hfix) as [? (? & _)].
          split; [done|congruence].
        - by injection Hfix as <- <- <-. }
      split; [by eapply counts_le_same_hosts|done]. }
  split; [done|]. split; [done|]. split; [done|]. split; [|done].
  destruct (svc_networks svc) as [nets|]; [|by rewrite Hnets].
  destruct Hnets as (nets' & -> & Hall). done.
Qed.

Lemma fix_services_frame (b : string) (svcs : list (string * service)) :
  ∀ (c c' : census) (svcs' ms : list (string * service)),
    Forall (λ kv, distinct_networks (snd kv)) svcs →
    counts_le c → ip_inv c0 c →
    fix_services (b +:+ ".") c svcs = inr (c', svcs', ms) →
    counts_le c' ∧ ip_inv c0 c'
    ∧ Forall2 (λ kv kv', fst kv' = fst kv ∧ service_frame (snd kv) (snd kv')) svcs svcs'.
Proof.
  induction svcs as [|[name svc] svcs IH]; intros c c' svcs' ms Hwf Hc Hinv Hfix;
    cbn [fix_services] in Hfix.
  - injection Hfix as <- <- <-. split; [done|]. split; [done|constructor].
  - inversion Hwf as [|?? Hwf1 Hwf2]; subst. simpl in Hwf1.
    destruct (fix_service (b +:+ ".") c svc) as [e|[[c1 svc1] m1]] eqn:Hsvc; [done|].
    destruct (fix_services (b +:+ ".") c1 svcs) as [e|[[c2 svcs2] ms2]] eqn:Hrest; [done|].
    injection Hfix as <- <- <-.
    destruct (fix_service_frame _ _ _ _ _ _ Hwf1 Hc Hinv Hsvc) as (Hc1 & Hinv1 & Hout1).
    destruct (IH _ _ _ _ Hwf2 Hc1 Hinv1 Hrest) as (Hc2 & Hinv2 & Hout2).
    split; [done|]. split; [done|]. constructor; [by split|done].
Qed.

Lemma second_pass_frame (b : string) (items : list item) :
  ∀ (c c' : census) results,
    Forall distinct_networks_item items →
    counts_le c → ip_inv c0 c →
    second_pass (b +:+ ".") c items = inr (c', results) →
    Forall2 (λ it res, ∃ obj, item_obj it = Doc obj ∧ tree_frame obj (snd (fst res)))
            items results.
Proof.
  induction items as [|it items IH]; intros c c' results Hwf Hc Hinv Hpass;
    cbn [second_pass] in Hpass.
  - injection Hpass as <- <-. constructor.
  - inversion Hwf as [|?? Hwf1 Hwf2]; subst.
    destruct (fix_item (b +:+ ".") c it) as [e|[[c1 obj'] sm]] eqn:Hit; [done|].
    destruct (second_pass (b +:+ ".") c1 items) as [e|[c2 res]] eqn:Hrest; [done|].
    injection Hpass as <- <-.
    unfold fix_item in Hit. unfold distinct_networks_item in Hwf1.
    destruct (item_obj it) as [obj|r] eqn:Hobj; [|done]. simpl in Hwf1.
    destruct (fix_services (b +:+ ".") c (services obj)) as [e|[[c1' svcs'] sm']] eqn:Hsvcs;
      [done|].
    injection Hit as <- <- <-.
    destruct (fix_services_frame _ _ _ _ _ _ Hwf1 Hc Hinv Hsvcs) as (Hc1 & Hinv1 & Hout1).
    constructor; [|by eapply IH].
    exists obj. split; [done|]. by split.
Qed.

End Frame.

(** ** What a tick leaves alone *)

(** What a tick may rewrite. After a scan that returns, the compose
    file of every project directory either is what it was, or holds
    the text of a tree that differs from the document read from it
    only as [port_frame] and [net_frame] allow: a string entry whose
    host port the first pass counted once is pushed as it is, an entry
    that is not a string gives way to its rendering, an attachment
    whose address the first pass counted once stays as it is. The
    names under [networks] of a service are the keys of an object,
    hence distinct. *)
Lemma scanAndFix_frame (w w' : world text) (dirs : list string) :
  projectDirs = inr dirs →
  NoDup dirs →
  Forall distinct_networks_item (snd (first_pass (fs w) dirs)) →
  scanAndFix w = (w', inr tt) →
  ∀ dir, dir ∈ dirs →
    fs w' !! compose_file dir = fs w !! compose_file dir
    ∨ ∃ content doc obj obj',
        fs w !! compose_file dir = Some content
        ∧ YAML_parse content = inr doc
        ∧ default (Doc empty_compose) doc = Doc obj
        ∧ fs w' !! compose_file dir = Some (YAML_stringify obj')
        ∧ tree_frame (fst (first_pass (fs w) dirs)) obj obj'.
Proof.
  intros Hdirs Hnd Hwf Hrun dir Hdir.
  destruct (scanAndFix_run w w' dirs Hdirs Hnd Hrun) as (c2 & results & Hpass & Hwritten & Hrest).
  set (c1 := fst (first_pass (fs w) dirs)) in *.
  set (composeData := merge_sort item_le (snd (first_pass (fs w) dirs))) in *.
  destruct (decide (compose_file dir ∈ item_file <$> composeData)) as [Hin|Hout];
    [|left; by apply Hrest].
  apply list_elem_of_fmap in Hin as (it & Hfile & Hit).
  apply list_elem_of_lookup in Hit as [i Hi].
  assert (Forall (item_of_file (fs w)) composeData) as Hitems.
  { subst composeData. rewrite merge_sort_Permutation. unfold first_pass.
    destruct (first_pass_items (fs w) dirs (census0, [])) as (new & -> & _ & Hnew). done. }
  assert (Forall distinct_networks_item composeData) as Hwf'.
  { subst composeData. by rewrite merge_sort_Permutation. }
  pose proof (second_pass_frame c1 NETWORK_prefix composeData c1 c2 results Hwf'
                ltac:(by split) (ip_inv_start c1) Hpass) as Hframe.
  destruct (Forall2_lookup_l _ _ _ _ _ Hwritten Hi) as (res & Hres & _ & Hw).
  destruct (Forall2_lookup_l _ _ _ _ _ Hframe Hi) as (res' & Hres' & obj & Hobj & Htree).
  rewrite Hres in Hres'. injection Hres' as <-.
  rewrite Forall_forall in Hitems.
  destruct (Hitems it ltac:(by eapply list_elem_of_lookup_2))
    as (_ & content & doc & Hcontent & Hparse & Hdoc & _).
  rewrite Hfile. destruct Hw as [Hw|[_ Hw]]; [|by left].
  right. exists content, doc, obj, (snd (fst res)). rewrite <- Hdoc. done.
Qed.

(** ** Host ports after the tick *)

(** Among the projects a tick processes, the host ports of the
    mappings it leaves behind are pairwise distinct, and a mapping it
    moved carries the smallest port from 10000 on that neither the
    census nor another mapping has. Entries that are not strings are
    taken to render without a host port ([plain]). *)
Lemma second_pass_ports_unique (c1 c2 : census) (items : list item) results :
  (∀ h, (occ h (fix_hosts (ports_of_items items)) ≤ hostCount c1 h)%nat) →
  (∀ h, h ∈ fix_hosts (ports_of_items items) → h ∈ usedHostSet c1) →
  Forall plain (ports_of_items items) →
  second_pass NETWORK_base c1 items = inr (c2, results) →
  NoDup (fix_hosts (ports_of_results results))
  ∧ Forall2 (item_ports_outcome c1 (fix_hosts (ports_of_results results))) items results.
Proof.
  intros Hcounts Hused Hplain Hpass.
  assert (port_inv c1 (fix_hosts (ports_of_items items)) c1 [] (ports_of_items items)) as Hinv.
  { split; try done.
    - constructor.
    - intros h Hh. by apply elem_of_nil in Hh.
    - intros h Hh. by apply elem_of_nil in Hh.
    - intros x Hx. by left.
    - intros h Hh Hpos. left. split; [done|]. lia. }
  destruct (second_pass_ports c1 _ _ _ _ _ _ _ Hplain Hinv Hpass) as [[Hnd _ _ _ _ _ _ _ _] Hall].
  done.
Qed.

End Reconciler.

(** * Concrete runs *)

(** An instance of the parameters for running the reconciler on given
    files: a file holds the document it parses to (so that writing and
    reading back are inverse), the mapper file holds the mapper, and any
    other content does not parse. Directories are ordered as strings. *)
Inductive sample_text :=
  | YamlText (doc : option parsed)
  | MapperText (mapper : mapper_t)
  | OtherText (raw : string).

#[global] Instance sample_text_eq_dec : EqDecision sample_text.
Proof. solve_decision. Defined.

Definition sample_stringify (obj : compose) : sample_text := YamlText (Some (Doc obj)).

Definition sample_parse (t : sample_text) : string + option parsed :=
  match t with
  | YamlText doc => inr doc
  | _ => inl "YAMLParseError"
  end.

Definition sample_scanAndFix (dirs : string + list string) : IO sample_text unit :=
  scanAndFix sample_stringify sample_parse MapperText String.leb "172.28.0" "/srv/console" dirs.

Definition sample_runner (dirs : string + list string) (count : option Z)
    : IO sample_text unit :=
  runner sample_stringify sample_parse MapperText String.leb "172.28.0" "/srv/console" dirs
         count.

Definition sample_single_run (dirs : string + list string) (w : world sample_text)
    : world sample_text * Z :=
  single_run sample_stringify sample_parse MapperText String.leb "172.28.0" "/srv/console"
             dirs w.

(** A world holding the given compose documents, every path writable,
    nothing done yet. *)
Definition sample_world (docs : list (string * parsed)) : world sample_text :=
  World (list_to_map ((λ kv, (fst kv +:+ "/docker-compose.yml", YamlText (Some (snd kv)))) <$> docs))
        ∅ [].

Definition plain_service (ports : list string) : service :=
  Service (Some (PStr <$> ports)) None None None "image: nginx".

Definition project (svcs : list (string * service)) : parsed :=
  Doc (Compose svcs None EmptyString).

(** A tick with two terminals attached. *)
Lemma runner_skips_while_terminals_active_witness :
  0 < 2
  ∧ sample_runner (inr ["/ws/a"]) (Some 2)
      (sample_world [("/ws/a", project [("web", plain_service ["8080:80"])])])
    = (World (fs (sample_world [("/ws/a", project [("web", plain_service ["8080:80"])])]))
             ∅ [Log ["skipping scan because activeTerminalCount=2"]],
       inr tt).
Proof.
  split; [lia|].
  apply (runner_skips_while_terminals_active sample_stringify sample_parse MapperText
           String.leb "172.28.0" "/srv/console" (inr ["/ws/a"]) 2). lia.
Defined.

(** C9, where the code departs from it: a project whose compose file
    holds a bare scalar makes the scan throw in its second pass, and the
    single run still exits with 0. *)
Theorem single_run_exits_0_after_fatal_error :
  let w := sample_world [("/ws/a", Scalar "hello")] in
  snd (sample_scanAndFix (inr ["/ws/a"]) w)
  = inl "TypeError: Cannot create property 'networks' on a primitive"
  ∧ snd (sample_single_run (inr ["/ws/a"]) w) = 0
  ∧ snd (sample_scanAndFix (inl "EACCES: scandir") w) = inl "EACCES: scandir"
  ∧ snd (sample_single_run (inl "EACCES: scandir") w) = 0.
Proof. vm_compute. done. Qed.

(** ** The path guard *)

Definition clean_segment (s : string) : Prop := s ≠ EmptyString ∧ s ≠ "." ∧ s ≠ "..".

Lemma normalize_segments_clean (segs acc : list string) :
  Forall clean_segment acc → Forall clean_segment (normalize_segments acc segs).
Proof.
  revert acc. induction segs as [|s segs IH]; intros acc Hacc; simpl.
  - by apply Forall_rev.
  - destruct (decide (s = EmptyString ∨ s = ".")) as [Hskip|Hkeep]; [by apply IH|].
    destruct (decide (s = "..")) as [->|Hup].
    + apply IH. destruct acc; [done|]. by inversion Hacc.
    + apply IH. constructor; [|done]. unfold clean_segment. tauto.
Qed.

Lemma strip_common_spec (from to up down : list string) :
  strip_common from to = (up, down) →
  ∃ shared, from = (shared ++ up)%list ∧ to = (shared ++ down)%list.
Proof.
  revert to. induction from as [|f from IH]; intros to Hstrip; simpl in Hstrip.
  - injection Hstrip as <- <-. by exists [].
  - destruct to as [|t to]; [injection Hstrip as <- <-; by exists []|].
    destruct (decide (f = t)) as [->|Hne].
    + destruct (IH _ Hstrip) as (shared & -> & ->). by exists (t :: shared).
    + injection Hstrip as <- <-. by exists [].
Qed.

(** A relative path that does not start with [..] leads downwards. *)
Lemma path_relative_inside (from to : list string) :
  startsWith ".." (path_relative from to) = false →
  ∃ rest, to = (from ++ rest)%list.
Proof.
  unfold path_relative. destruct (strip_common from to) as [up down] eqn:Hstrip.
  destruct (strip_common_spec _ _ _ _ Hstrip) as (shared & -> & ->).
  destruct up as [|u up]; [intros _; exists down; by rewrite app_nil_r|].
  rewrite fmap_cons. simpl.
  by destruct (((λ _ : string, "..") <$> up) ++ down)%list; cbv -[join_with].
Qed.

Lemma normalize_segments_lacks (xs acc : list string) :
  Forall (lacks "/") acc → Forall (lacks "/") xs →
  Forall (lacks "/") (normalize_segments acc xs).
Proof.
  revert acc. induction xs as [|x xs IH]; intros acc Hacc Hxs; simpl.
  - by apply Forall_rev.
  - inversion Hxs; subst. repeat case_decide; apply IH; try done.
    + destruct acc; [done|]. by inversion Hacc.
    + by constructor.
Qed.

(** A path as the handlers hold it: segments that are neither empty,
    [.] nor [..], and have no slash. *)
Definition plain_segments (segs : list string) : Prop :=
  Forall clean_segment segs ∧ Forall (lacks "/") segs.

Lemma plain_segments_app (xs ys : list string) :
  plain_segments (xs ++ ys) ↔ plain_segments xs ∧ plain_segments ys.
Proof. unfold plain_segments. rewrite !Forall_app. tauto. Qed.

Lemma path_resolve_plain (root p : string) : plain_segments (path_resolve root p).
Proof.
  unfold path_resolve. destruct (path_isAbsolute p); split;
    try (by apply normalize_segments_clean);
    apply normalize_segments_lacks; try done;
    rewrite ?Forall_app; auto using split_on_parts_lack.
Qed.

(** A path under the workspace root: the segments of the root followed
    by names, each of them free of slashes and none of them empty, [.]
    or [..]; the path is the root itself or leads down from it. *)
Definition inside_workspace (root path : string) : Prop :=
  ∃ rest, path = render_path (path_resolve root EmptyString ++ rest)%list
          ∧ plain_segments rest.

Lemma sanitizePath_inside (root input safePath : string) :
  sanitizePath root input = Some safePath → inside_workspace root safePath.
Proof.
  unfold sanitizePath. destruct (String.eqb input EmptyString); [done|].
  destruct (startsWith ".." _) eqn:Hdots; [done|].
  destruct (path_isAbsolute _); [done|]. simpl. intros [= <-].
  destruct (path_relative_inside _ _ Hdots) as [rest Hrest].
  exists rest. split; [by rewrite <- Hrest|].
  pose proof (path_resolve_plain root input) as Hplain.
  rewrite Hrest in Hplain. by apply plain_segments_app in Hplain as [_ ?].
Qed.

(** The guard of [runCompose]. A file whose resolved path does not
    begin with the segments of the workspace root is rejected with
    'Invalid file path'; and whenever [runCompose] does invoke the
    compose CLI, with [docker compose] or with the legacy
    [docker-compose], the file it passes is the resolved path, it
    exists, and it lies under the workspace root. *)
Theorem runCompose_confined_to_workspace (root input : string)
    (exists_ : string → bool) (args : list string) :
  (¬ (∃ rest, path_resolve root input = (path_resolve root EmptyString ++ rest)%list) →
   runCompose root exists_ input args = Rejected "Invalid file path")
  ∧ (∀ first fallback,
       runCompose root exists_ input args = Invoked first fallback →
       ∃ safePath,
         inside_workspace root safePath
         ∧ safePath = render_path (path_resolve root input)
         ∧ exists_ safePath = true
         ∧ first = ("docker", "compose" :: "-f" :: safePath :: args)
         ∧ fallback = ("docker-compose", "-f" :: safePath :: args)).
Proof.
  split.
  - intros Hescapes. unfold runCompose, sanitizePath.
    destruct (String.eqb input EmptyString); [done|].
    destruct (startsWith ".." _) eqn:Hdots; [done|].
    destruct Hescapes. by apply path_relative_inside.
  - intros first fallback. unfold runCompose.
    destruct (sanitizePath root input) as [safePath|] eqn:Hsafe; [|done].
    destruct (exists_ safePath) eqn:Hexists; [|done]. intros [= <- <-].
    exists safePath. split; [by eapply sanitizePath_inside|].
    split; [|done]. unfold sanitizePath in Hsafe.
    destruct (String.eqb input EmptyString); [done|].
    destruct (_ || _); [done|]. by injection Hsafe as <-.
Qed.

(** A request that climbs out of the workspace, and one that stays. *)
Example runCompose_rejects_traversal :
  runCompose "/root/Docker" (λ _, true) "../../etc/passwd" ["ps"] = Rejected "Invalid file path"
  ∧ runCompose "/root/Docker" (λ _, true) "/etc/docker-compose.yml" ["ps"]
    = Rejected "Invalid file path"
  ∧ runCompose "/root/Docker" (λ _, true) "apps/../apps/web/docker-compose.yml" ["ps"]
    = Invoked ("docker", ["compose"; "-f"; "/root/Docker/apps/web/docker-compose.yml"; "ps"])
              ("docker-compose", ["-f"; "/root/Docker/apps/web/docker-compose.yml"; "ps"]).
Proof. vm_compute. done. Qed.

(** ** Ticks on sample workspaces *)

(** Two projects that share host port 8080 and an address; 8443 and 9000
    are published once. *)
Definition shared_port_workspace : list (string * parsed) :=
  [("/ws/a",
    project [("web", Service (Some [PStr "8080:80"; PStr "8443:443"])
                       (Some [("neuxbane-core-net", NetObj (Some "172.28.0.5") None EmptyString)])
                       None None "image: nginx")]);
   ("/ws/b",
    project [("api", Service (Some [PStr "8080:3000"; PStr "9000:9000"])
                       (Some [("neuxbane-core-net", NetObj (Some "172.28.0.5") None EmptyString)])
                       None None "image: node")])].

(** The tick on that workspace: the mappings of 8443 and 9000 stay, and
    so does the second mapping of 8080 once the first has moved. *)
Example shared_port_tick :
  let w' := fst (sample_scanAndFix (inr ["/ws/a"; "/ws/b"]) (sample_world shared_port_workspace)) in
  fs w' !! "/ws/a/docker-compose.yml"
  = Some (YamlText (Some (Doc (Compose
      [("web", Service (Some [PStr "10000:80"; PStr "8443:443"])
                 (Some [("neuxbane-core-net", NetObj (Some "172.28.0.2") None EmptyString)])
                 None None "image: nginx")]
      (Some [("neuxbane-core-net", TopExternal None)]) EmptyString))))
  ∧ fs w' !! "/ws/b/docker-compose.yml"
    = Some (YamlText (Some (Doc (Compose
        [("api", Service (Some [PStr "8080:3000"; PStr "9000:9000"])
                   (Some [("neuxbane-core-net", NetObj (Some "172.28.0.3") None EmptyString)])
                   None None "image: node")]
        (Some [("neuxbane-core-net", TopExternal None)]) EmptyString)))).
Proof. vm_compute. done. Qed.

(** The tick on that workspace changes both files within these bounds. *)
Example scanAndFix_frame_sample :
  let dirs := ["/ws/a"; "/ws/b"] in
  let w := sample_world shared_port_workspace in
  let w' := fst (sample_scanAndFix (inr dirs) w) in
  let kept := λ dir,
    fs w' !! compose_file dir = fs w !! compose_file dir
    ∨ ∃ content doc obj obj',
        fs w !! compose_file dir = Some content
        ∧ sample_parse content = inr doc
        ∧ default (Doc empty_compose) doc = Doc obj
        ∧ fs w' !! compose_file dir = Some (sample_stringify obj')
        ∧ tree_frame (fst (first_pass sample_parse (fs w) dirs)) obj obj' in
  kept "/ws/a" ∧ kept "/ws/b".
Proof.
  intros dirs w w' kept.
  assert (∀ dir, dir ∈ dirs → kept dir) as Hall.
  { apply (scanAndFix_frame sample_stringify sample_parse MapperText String.leb
             "172.28.0" "/srv/console" (inr dirs) w w' dirs).
    - reflexivity.
    - compute_done.
    - unfold distinct_networks_item, distinct_networks. compute_done.
    - vm_compute. reflexivity. }
  split; apply Hall; compute_done.
Qed.

(** The world after a tick, its log set aside. *)
Definition settled (w : world sample_text) : world sample_text :=
  World (fs w) (unwritable w) [].

(** A service attached to a network by a bare address
    ([networks: {neuxbane-core-net: 172.28.0.3}]), and one attached by
    the list form ([networks: [backend]], an array, whose only key is
    ["0"]). *)
Definition bare_address_service : service :=
  Service (Some [PStr "8080:80"]) (Some [("neuxbane-core-net", NetStr "172.28.0.3")])
          None None "image: nginx".

Definition listed_network_service : service :=
  Service None (Some [("0", NetStr "backend")]) None None "image: postgres".

(** C4, where the code departs from it: the census calls [isIpv4] on the
    bare address, the call throws, and the project is logged as
    'failed parse' and left out of the tick: its file stays as it was,
    with the bare string, and the mapper does not list it. *)
Theorem bare_ipv4_project_is_excluded :
  let w := sample_world [("/ws/a", project [("web", bare_address_service)])] in
  let r := sample_scanAndFix (inr ["/ws/a"]) w in
  snd r = inr tt
  ∧ trace (fst r)
    = [Log ["scan start"]; Read "/ws/a/docker-compose.yml";
       Log ["failed parse"; "/ws/a/docker-compose.yml"; "isIpv4 is not defined"];
       Stat "/srv/console/mapper.js"; Stat "/srv/console/mapper.json";
       Write "/srv/console/mapper.json" (MapperText []);
       Log ["wrote mapper.json"]; Log ["scan done"]]
  ∧ fs (fst r) !! "/ws/a/docker-compose.yml"
    = Some (YamlText (Some (project [("web", bare_address_service)])))
  ∧ ipCount (fst (first_pass sample_parse (fs w) ["/ws/a"])) "172.28.0.3" = 0%nat.
Proof. vm_compute. done. Qed.

(** C1, where the code departs from it. First workspace: project [a]
    is left out of the tick because one of its services names its
    network in the list form (the same call of [isIpv4] throws before
    the ports of the later service are counted), so the census sees
    8080 once and both projects publish 8080 after the tick. Second
    workspace: two entries ["8080"] count as host port 8080 in the
    census but are never moved, so the one mapping that publishes 8080
    is moved although no other mapping publishes it, and the two entries
    the census took for host port 8080 are both still there. *)
Theorem duplicate_host_port_survives_tick :
  (let w := sample_world
              [("/ws/a", project [("db", listed_network_service);
                                  ("web", plain_service ["8080:80"])]);
               ("/ws/b", project [("web", plain_service ["8080:80"])])] in
   let r := sample_scanAndFix (inr ["/ws/a"; "/ws/b"]) w in
   snd r = inr tt
   ∧ fs (fst r) !! "/ws/a/docker-compose.yml"
     = Some (YamlText (Some (project [("db", listed_network_service);
                                      ("web", plain_service ["8080:80"])])))
   ∧ fs (fst r) !! "/ws/b/docker-compose.yml"
     = Some (YamlText (Some (Doc (Compose [("web", plain_service ["8080:80"])]
                                    (Some [("neuxbane-core-net", TopExternal None)])
                                    EmptyString))))
   ∧ mapping_host "8080:80" = Some 8080)
  ∧ (let w := sample_world
                [("/ws/a", project [("cache", plain_service ["8080"]);
                                    ("queue", plain_service ["8080"])]);
                 ("/ws/b", project [("web", plain_service ["8080:80"])])] in
     let r := sample_scanAndFix (inr ["/ws/a"; "/ws/b"]) w in
     snd r = inr tt
     ∧ hostCount (fst (first_pass sample_parse (fs w) ["/ws/a"; "/ws/b"])) 8080 = 3%nat
     ∧ fs (fst r) !! "/ws/a/docker-compose.yml"
       = Some (YamlText (Some (Doc (Compose [("cache", plain_service ["8080"]);
                                             ("queue", plain_service ["8080"])]
                                      (Some [("neuxbane-core-net", TopExternal None)])
                                      EmptyString))))
     ∧ fs (fst r) !! "/ws/b/docker-compose.yml"
       = Some (YamlText (Some (Doc (Compose [("web", plain_service ["10000:80"])]
                                      (Some [("neuxbane-core-net", TopExternal None)])
                                      EmptyString))))).
Proof. vm_compute. done. Qed.

(** A port in long form, [{ target: 80, published: 8080 }], and a
    document that has the default network block already, so that a
    tick has nothing to add to it. *)
Definition long_form_port : port_entry :=
  PObj (PortObject "[object Object]" None (Some "80") None (Some "8080")
          None None None None None).

Definition with_default_network (svcs : list (string * service)) : parsed :=
  Doc (Compose svcs (Some [("neuxbane-core-net", TopExternal None)]) EmptyString).

(** C3, where the code departs from it. First workspace: [a] alone
    publishes host port 8080; the entry ["8080"] of [b] names a
    container port and no host port, but the first pass takes it for
    host port 8080 too, counts 8080 twice, and the second pass moves the
    mapping of [a] to 10000. Second workspace: the one port entry is in
    long form and publishes 8080; the first pass does not count it, and
    the second pass puts its rendering as a string in its place, so the
    file is written with ["[object Object]"] where the mapping was. *)
Theorem singleton_host_port_is_rewritten :
  (let w := sample_world
              [("/ws/a", with_default_network [("web", plain_service ["8080:80"])]);
               ("/ws/b", with_default_network [("worker", plain_service ["8080"])])] in
   let r := sample_scanAndFix (inr ["/ws/a"; "/ws/b"]) w in
   snd r = inr tt
   ∧ mapping_host "8080:80" = Some 8080
   ∧ mapping_host "8080" = None
   ∧ hostCount (fst (first_pass sample_parse (fs w) ["/ws/a"; "/ws/b"])) 8080 = 2%nat
   ∧ fs (fst r) !! "/ws/a/docker-compose.yml"
     = Some (YamlText (Some (with_default_network [("web", plain_service ["10000:80"])])))
   ∧ fs (fst r) !! "/ws/b/docker-compose.yml"
     = Some (YamlText (Some (with_default_network [("worker", plain_service ["8080"])]))))
  ∧ (let w := sample_world
                [("/ws/a", with_default_network
                             [("web", Service (Some [long_form_port]) None None None
                                        "image: nginx")])] in
     let r := sample_scanAndFix (inr ["/ws/a"]) w in
     snd r = inr tt
     ∧ hostCount (fst (first_pass sample_parse (fs w) ["/ws/a"])) 8080 = 0%nat
     ∧ fs (fst r) !! "/ws/a/docker-compose.yml"
       = Some (YamlText (Some (with_default_network
                                 [("web", Service (Some [PStr "[object Object]"]) None None None
                                            "image: nginx")])))).
Proof. vm_compute. done. Qed.

(** A project whose top-level [networks] block names a network that no
    service uses. *)
Definition unused_network_project : parsed :=
  Doc (Compose [("web", plain_service ["8080:80"])]
               (Some [("legacy", TopOther "driver: bridge")]) EmptyString).

(** C2, where the code departs from it: the first tick prunes the unused
    network and, the block being empty, removes the block; the second
    tick, with no edit in between, finds no block, puts the default one
    in and writes the compose file again. The third tick writes
    nothing. *)
Theorem second_run_writes_again :
  let w0 := sample_world [("/ws/a", unused_network_project)] in
  let r1 := sample_scanAndFix (inr ["/ws/a"]) w0 in
  let r2 := sample_scanAndFix (inr ["/ws/a"]) (settled (fst r1)) in
  let r3 := sample_scanAndFix (inr ["/ws/a"]) (settled (fst r2)) in
  snd r1 = inr tt ∧ snd r2 = inr tt ∧ snd r3 = inr tt
  ∧ fs (fst r1) !! "/ws/a/docker-compose.yml"
    = Some (YamlText (Some (Doc (Compose [("web", plain_service ["8080:80"])] None EmptyString))))
  ∧ trace (fst r2)
    = [Log ["scan start"]; Read "/ws/a/docker-compose.yml";
       Stat "/ws/a/docker-compose.yml"; Read "/ws/a/docker-compose.yml";
       Write "/ws/a/docker-compose.yml"
         (YamlText (Some (Doc (Compose [("web", plain_service ["8080:80"])]
                                 (Some [("neuxbane-core-net", TopExternal None)])
                                 EmptyString))));
       Log ["updated"; "/ws/a/docker-compose.yml"];
       Stat "/srv/console/mapper.js"; Stat "/srv/console/mapper.json";
       Read "/srv/console/mapper.json"; Log ["wrote mapper.json"]; Log ["scan done"]]
  ∧ trace (fst r3)
    = [Log ["scan start"]; Read "/ws/a/docker-compose.yml";
       Stat "/ws/a/docker-compose.yml"; Read "/ws/a/docker-compose.yml";
       Log ["updated"; "/ws/a/docker-compose.yml"];
       Stat "/srv/console/mapper.js"; Stat "/srv/console/mapper.json";
       Read "/srv/console/mapper.json"; Log ["wrote mapper.json"]; Log ["scan done"]].
Proof. vm_compute. done. Qed.

(** ** Saving the proxy configuration *)

(** The backup lives next to the live file, under a longer name. *)
Lemma backup_path_differs (conf now : string) : conf +:+ ".tmp." +:+ now ≠ conf.
Proof.
  intros Heq. apply (f_equal String.length) in Heq.
  rewrite !length_append in Heq. simpl in Heq. lia.
Qed.

(** A backup is taken exactly when there is a live file and the copy
    can be written; it holds the live content, and nothing else
    changes. *)
Lemma take_backup_run (conf tmp : string) (w : world string) :
  ∃ evs,
    take_backup conf tmp w
    = (World (match fs w !! conf with
              | Some old => if decide (tmp ∈ unwritable w) then fs w else <[tmp := old]> (fs w)
              | None => fs w
              end)
             (unwritable w) (trace w ++ evs)%list,
       inr (bool_decide (is_Some (fs w !! conf) ∧ tmp ∉ unwritable w))).
Proof.
  unfold take_backup, io_bind, attempt, existsSync, copyFileSync, io_ret.
  cbn [fs unwritable trace].
  destruct (fs w !! conf) as [old|] eqn:Hconf.
  - rewrite bool_decide_eq_true_2 by eauto. cbn [fs unwritable trace]. rewrite Hconf.
    destruct (decide (tmp ∈ unwritable w)) as [Hin|Hout].
    + rewrite bool_decide_eq_false_2 by tauto. by eexists.
    + rewrite bool_decide_eq_true_2 by eauto. cbn [fs unwritable trace].
      rewrite <- app_assoc. by eexists.
  - rewrite bool_decide_eq_false_2 by (by intros [? ?]). cbn [fs unwritable trace].
    rewrite bool_decide_eq_false_2 by (by intros [[? ?] _]). by eexists.
Qed.

(** The failure branch after a command has failed: the live file gets
    what the backup holds when a backup was taken, is still there and
    the live file can be written; otherwise it stays as it is. The
    backup is removed when it can be, and no other file is touched. *)
Lemma roll_back_run (conf tmp : string) (backedUp : bool) (w : world string) :
  tmp ≠ conf →
  ∃ w', roll_back conf backedUp tmp w = (w', inr tt)
        ∧ fs w' !! conf
          = (if backedUp && bool_decide (is_Some (fs w !! tmp) ∧ conf ∉ unwritable w)
             then fs w !! tmp else fs w !! conf)
        ∧ (tmp ∉ unwritable w → fs w' !! tmp = None)
        ∧ (∀ p, p ≠ conf → p ≠ tmp → fs w' !! p = fs w !! p).
Proof.
  intros Hne.
  assert (∀ w1 : world string,
            ∃ w', remove_backup tmp w1 = (w', inr tt)
                  ∧ (tmp ∉ unwritable w1 → fs w' !! tmp = None)
                  ∧ (∀ p, p ≠ tmp → fs w' !! p = fs w1 !! p)) as Hremove.
  { intros w1. unfold remove_backup, io_bind, attempt, existsSync, unlinkSync, io_ret.
    cbn [fs unwritable trace].
    destruct (fs w1 !! tmp) as [b|] eqn:Htmp.
    - rewrite bool_decide_eq_true_2 by eauto. cbn [fs unwritable trace].
      destruct (decide (tmp ∈ unwritable w1)); eexists; (split; [reflexivity|]);
        cbn [fs]; split; try done.
      + intros _. by rewrite lookup_delete_eq.
      + intros p Hp. by rewrite lookup_delete_ne.
    - rewrite bool_decide_eq_false_2 by (by intros [? ?]).
      eexists. split; [reflexivity|]. cbn [fs]. by split. }
  unfold roll_back. unfold io_bind at 1.
  destruct backedUp; cbn [andb].
  - unfold io_bind at 1, attempt, copyFileSync, io_ret.
    destruct (fs w !! tmp) as [b|] eqn:Htmp.
    + destruct (decide (conf ∈ unwritable w)) as [Hin|Hout].
      * rewrite bool_decide_eq_false_2 by tauto.
        destruct (Hremove w) as (w' & -> & Hgone & Hframe).
        exists w'. split; [done|]. split; [by apply Hframe|]. split; [done|].
        intros p _ Hp. by apply Hframe.
      * rewrite bool_decide_eq_true_2 by eauto.
        match goal with
        | |- context [remove_backup tmp ?w1] =>
            destruct (Hremove w1) as (w' & -> & Hgone & Hframe)
        end.
        cbn [fs unwritable] in *. exists w'. split; [done|]. split.
        { rewrite Hframe by done. by rewrite lookup_insert_eq. }
        split; [done|]. intros p Hp1 Hp2. rewrite Hframe by done.
        by rewrite lookup_insert_ne.
    + rewrite bool_decide_eq_false_2 by (by intros [[? ?] _]).
      destruct (Hremove w) as (w' & -> & Hgone & Hframe).
      exists w'. split; [done|]. split; [by apply Hframe|]. split; [done|].
      intros p _ Hp. by apply Hframe.
  - unfold io_ret at 1.
    destruct (Hremove w) as (w' & -> & Hgone & Hframe).
    exists w'. split; [done|]. split; [by apply Hframe|]. split; [done|].
    intros p _ Hp. by apply Hframe.
Qed.




(** ** The terminal counter *)

(** A connection that has been counted up and not yet down: its handlers
    are not registered yet, or they are and [sessionClosed] is unset. *)
Definition counted (c : conn) : bool :=
  match conn_phase_of c with
  | Pending | Live false => true
  | Live true | Refused => false
  end.

Fixpoint count_open (l : list conn) : Z :=
  match l with
  | [] => 0
  | c :: rest => (if counted c then 1 else 0) + count_open rest
  end.

Lemma count_open_nonneg (l : list conn) : 0 ≤ count_open l.
Proof. induction l as [|c l IH]; simpl; [lia|]. destruct (counted c); lia. Qed.

Lemma count_open_app (l1 l2 : list conn) :
  count_open (l1 ++ l2)%list = count_open l1 + count_open l2.
Proof. induction l1 as [|c l1 IH]; simpl; [lia|]. rewrite IH. lia. Qed.

Lemma count_open_insert (l : list conn) (id : nat) (c c' : conn) :
  l !! id = Some c →
  count_open (<[id := c']> l)
  = count_open l - (if counted c then 1 else 0) + (if counted c' then 1 else 0).
Proof.
  revert id. induction l as [|x l IH]; intros [|id] Hid; simplify_eq/=; [lia|].
  rewrite (IH id Hid). lia.
Qed.

(** The counter equals the number of connections counted up and not yet
    down. *)
Definition counter_inv (s : ws_state) : Prop :=
  default 0 (activeTerminalCount s) = count_open (conns s).

Lemma set_conn_inv (id : nat) (c c' : conn) (s : ws_state) :
  conns s !! id = Some c → counted c' = counted c →
  counter_inv s → counter_inv (set_conn id c' s).
Proof.
  unfold counter_inv, set_conn. simpl. intros Hid Hsame ->.
  rewrite (count_open_insert _ _ _ _ Hid), Hsame. lia.
Qed.

Lemma count_down_inv (id : nat) (c c' : conn) (s : ws_state) :
  conns s !! id = Some c → counted c = true → counted c' = false →
  counter_inv s →
  counter_inv (WsState (decrement (activeTerminalCount s)) (<[id := c']> (conns s))).
Proof.
  unfold counter_inv, decrement. simpl. intros Hid Hc Hc' Hinv.
  pose proof (count_open_insert _ _ _ c' Hid) as Hins.
  pose proof (count_open_nonneg (<[id := c']> (conns s))).
  rewrite Hc, Hc' in Hins. lia.
Qed.

Lemma onCloseCleanup_inv (id : nat) (s : ws_state) :
  counter_inv s → counter_inv (onCloseCleanup id s).
Proof.
  intros Hinv. unfold onCloseCleanup.
  destruct (conns s !! id) as [[a [|[|]|] so pr]|] eqn:Hid; try done.
  by eapply count_down_inv.
Qed.

Lemma ws_step_inv (s : ws_state) (ev : ws_event) :
  counter_inv s → counter_inv (ws_step s ev).
Proof.
  intros Hinv. destruct ev as [a|id|id|id|id]; simpl.
  - unfold counter_inv, increment in *. simpl. rewrite count_open_app. simpl. lia.
  - destruct (conns s !! id) as [[a [|closed|] so pr]|] eqn:Hid; try done.
    by eapply count_down_inv.
  - destruct (conns s !! id) as [[a [|closed|] so pr]|] eqn:Hid; try done.
    by eapply set_conn_inv.
  - destruct (conns s !! id) as [[a [|closed|] so [|]]|] eqn:Hid; try done.
    assert (∀ pr', counter_inv (set_conn id (Conn a (Live closed) so pr') s)) as Hset
      by (intros pr'; by eapply set_conn_inv).
    destruct a; try apply Hset.
    all: set (s1 := onCloseCleanup id _);
      assert (counter_inv s1) as Hs1 by (by apply onCloseCleanup_inv);
      destruct (conns s1 !! id) as [[a' ph' so' pr']|] eqn:Hid1; [|done];
      by eapply set_conn_inv.
  - destruct (conns s !! id) as [[a ph [|] pr]|] eqn:Hid; try done.
    assert (counter_inv (set_conn id (Conn a ph false pr) s)) as Hset
      by (by eapply set_conn_inv).
    destruct ph; try done. by apply onCloseCleanup_inv.
Qed.

Lemma ws_run_inv (evs : list ws_event) (s : ws_state) :
  counter_inv s → counter_inv (ws_run s evs).
Proof.
  revert s. induction evs as [|ev evs IH]; intros s Hinv; [done|].
  apply IH. by apply ws_step_inv.
Qed.

(** The counter never goes below zero, whatever happens. *)
Lemma counter_non_negative (evs : list ws_event) :
  0 ≤ default 0 (activeTerminalCount (ws_run ws_init evs)).
Proof.
  rewrite (ws_run_inv evs ws_init); [apply count_open_nonneg|done].
Qed.

(** The once-flag: a second run of [onCloseCleanup] changes nothing. *)
Lemma onCloseCleanup_once (id : nat) (s : ws_state) :
  onCloseCleanup id (onCloseCleanup id s) = onCloseCleanup id s.
Proof.
  unfold onCloseCleanup at 2 3.
  destruct (conns s !! id) as [[a [|[|]|] so pr]|] eqn:Hid;
    unfold onCloseCleanup; simpl; rewrite ?Hid; try done.
  rewrite list_lookup_insert_eq; [done|]. by eapply lookup_lt_Some.
Qed.

(** A session whose exit and close handlers both run is counted down
    once. *)
Lemma exit_then_close_decrements_once (a : ws_action) :
  a ≠ ActInspect →
  activeTerminalCount (ws_run ws_init [Connect a; Establish 0%nat; PtyExit 0%nat; SocketClose 0%nat])
  = Some 0
  ∧ activeTerminalCount (ws_run ws_init [Connect a; Establish 0%nat; SocketClose 0%nat; PtyExit 0%nat])
    = Some 0.
Proof. by destruct a. Qed.

(** When every connection has been refused or has had its handlers
    run, the counter is zero. *)
Lemma counter_zero_when_all_cleaned_up (evs : list ws_event) :
  Forall (λ c, counted c = false) (conns (ws_run ws_init evs)) →
  default 0 (activeTerminalCount (ws_run ws_init evs)) = 0.
Proof.
  rewrite (ws_run_inv evs ws_init) by done.
  induction (conns (ws_run ws_init evs)) as [|c l IH]; [done|].
  intros Hall. inversion Hall as [|? ? Hc Hl]; subst. simpl. rewrite Hc, IH by done. lia.
Qed.

(** C8, where the code departs from it: an [inspect] connection whose
    socket closes while the past logs are still being fetched. The
    close handler is registered after the close event, so it never runs;
    the exit handler of the follow loop does not count down and, the
    socket being gone, does not respawn either. No socket and no child
    are left, and the counter stays at 1. *)
Theorem terminal_counter_leaks_after_early_close :
  let s := ws_run ws_init [Connect ActInspect; SocketClose 0%nat; Establish 0%nat;
                           PtyExit 0%nat] in
  activeTerminalCount s = Some 1
  ∧ conns s = [Conn ActInspect (Live false) false false]
  ∧ forallb (λ c, negb (conn_exists c)) (conns s) = true.
Proof. vm_compute. done. Qed.

(** Nothing that happens to that connection afterwards brings the
    counter back: only a restart of the server does. *)
Lemma leaked_count_stays (evs : list ws_event) :
  Forall (λ ev, ∀ a, ev ≠ Connect a) evs →
  activeTerminalCount (ws_run (WsState (Some 1) [Conn ActInspect (Live false) false false]) evs)
  = Some 1.
Proof.
  intros Hevs. induction Hevs as [|ev evs Hev _ IH]; [done|].
  replace (ws_run _ (ev :: evs)) with
    (ws_run (WsState (Some 1) [Conn ActInspect (Live false) false false]) evs); [done|].
  simpl. f_equal. destruct ev as [a|[|id]|[|id]|[|id]|[|id]]; try done. by destruct (Hev a).
Qed.

(** ** Compose commands of the attach handler *)

(** C10, where the code departs from it: the guard holds for
    [runCompose] ([runCompose_confined_to_workspace]), but the
    WebSocket handler builds the compose command of its restart and
    stop actions from the [file] parameter as it came, without
    [sanitizePath]. A compose file outside the workspace root, which
    [sanitizePath] answers [null] for and [runCompose] rejects, is
    handed to [docker compose -f]. *)
Theorem attach_runs_compose_outside_workspace :
  let file := "/srv/other/docker-compose.yml" in
  let exists_ := String.eqb file in
  let quoted := λ s, double_quote +:+ s +:+ double_quote in
  sanitizePath "/root/Docker" file = None
  ∧ runCompose "/root/Docker" exists_ file ["restart"; "web"] = Rejected "Invalid file path"
  ∧ attach_lifecycle exists_ (λ _, false) file "web" Restart
    = AttachSpawn "bash"
        ["-lc";
         "docker compose -f " +:+ quoted file +:+ " restart " +:+ quoted "web"
           +:+ " || docker-compose -f " +:+ quoted file +:+ " restart " +:+ quoted "web"]
        "/srv/other"
  ∧ sanitizePath "/root/Docker" "../other" = None
  ∧ attach_lifecycle (String.eqb "../other/docker-compose.yml") (λ _, false)
      "../other" "web" Stop
    = AttachSpawn "bash"
        ["-lc";
         "docker compose -f " +:+ quoted "../other/docker-compose.yml" +:+ " stop "
           +:+ quoted "web"
           +:+ " || docker-compose -f " +:+ quoted "../other/docker-compose.yml" +:+ " stop "
           +:+ quoted "web"]
        "../other".
Proof. vm_compute. done. Qed.

(** * More of [console.js] *)

(** ** Paths built by the handlers *)

(** [path.basename(p)]: slashes at the end are skipped, then the
    characters back to the slash before them are taken. Both loops run
    on the reversed string. *)
Fixpoint drop_slashes (reversed : string) : string :=
  match reversed with
  | String c rest => if Ascii.eqb c "/"%char then drop_slashes rest else reversed
  | EmptyString => EmptyString
  end.

Fixpoint until_slash (reversed : string) : string :=
  match reversed with
  | String c rest => if Ascii.eqb c "/"%char then EmptyString else String c (until_slash rest)
  | EmptyString => EmptyString
  end.

Definition path_basename (p : string) : string :=
  String.rev (until_slash (drop_slashes (String.rev p))).

(** [s.includes(sub)]. *)
Fixpoint includes (sub s : string) : bool :=
  String.prefix sub s
  || match s with
     | String _ rest => includes sub rest
     | EmptyString => false
     end.

Definition backslash : string := String "092"%char EmptyString.

(** The file [POST /api/save-config] writes and [GET /api/config]
    reads, from [path] and [filename] of the request; [inl] is the
    refusal. Both handlers build it in the same way. *)
Definition config_file_path (root projectPath filename : string) : (Z * string) + string :=
  if includes ".." filename || includes "/" filename || includes backslash filename
  then inl (400, "Invalid filename")
  else
    let appsDir := path_join root "apps" in
    let projectDir := path_join appsDir (path_basename projectPath) in
    let configDir := path_join projectDir "config" in
    inr (path_join configDir filename).

(** [POST /api/save-config] up to the write: [content] is [None] when
    the body has no [content]. *)
Definition save_config_path (root projectPath filename : string) (content : option string)
    : (Z * string) + string :=
  if String.eqb projectPath EmptyString || String.eqb filename EmptyString
     || bool_decide (content = None)
  then inl (400, "Valid path, filename, and content required")
  else config_file_path root projectPath filename.

(** [GET /api/config] up to the read. *)
Definition get_config_path (root projectPath filename : string) : (Z * string) + string :=
  if String.eqb projectPath EmptyString || String.eqb filename EmptyString
  then inl (400, "Valid path and filename required")
  else config_file_path root projectPath filename.

(** *** Splitting and joining *)

Lemma split_on_append (sep : ascii) (a b : string) :
  split_on sep (a +:+ String sep b) = (split_on sep a ++ split_on sep b)%list.
Proof.
  induction a as [|c a IH].
  - change (EmptyString +:+ String sep b) with (String sep b). simpl.
    by rewrite Ascii.eqb_refl.
  - change (String c a +:+ String sep b) with (String c (a +:+ String sep b)). simpl.
    destruct (Ascii.eqb c sep); rewrite IH; [done|].
    pose proof (split_on_nonempty sep a). by destruct (split_on sep a).
Qed.

Lemma split_on_join (sep : ascii) (segs : list string) :
  segs ≠ [] → Forall (lacks sep) segs →
  split_on sep (join_with (String sep EmptyString) segs) = segs.
Proof.
  induction segs as [|s segs IH]; [done|]. intros _ Hall.
  inversion Hall as [|? ? Hs Hsegs]; subst.
  destruct segs as [|t segs]; [by apply split_on_lacks|].
  change (join_with (String sep EmptyString) (s :: t :: segs))
    with (s +:+ String sep EmptyString +:+ join_with (String sep EmptyString) (t :: segs)).
  change (String sep EmptyString +:+ ?x) with (String sep x).
  rewrite split_on_app by done. by rewrite IH.
Qed.

Lemma normalize_segments_app (xs ys acc : list string) :
  normalize_segments acc (xs ++ ys)
  = normalize_segments (rev (normalize_segments acc xs)) ys.
Proof.
  revert acc. induction xs as [|x xs IH]; intros acc; simpl.
  - by rewrite rev_involutive.
  - repeat case_decide; apply IH.
Qed.

Lemma normalize_segments_clean_id (xs acc : list string) :
  Forall clean_segment xs → normalize_segments acc xs = (rev acc ++ xs)%list.
Proof.
  revert acc. induction xs as [|x xs IH]; intros acc Hall; simpl.
  - by rewrite app_nil_r.
  - inversion Hall as [|? ? (Hx1 & Hx2 & Hx3) Hxs]; subst.
    rewrite decide_False by tauto. rewrite decide_False by done.
    rewrite IH by done. simpl. by rewrite <- app_assoc.
Qed.

(** Reading a rendered path back gives its segments. *)
Lemma split_render_path (segs : list string) :
  plain_segments segs →
  normalize_segments [] (split_on "/" (render_path segs)) = segs.
Proof.
  intros [Hclean Hlacks]. unfold render_path.
  change ("/" +:+ ?x) with (String "/"%char x). simpl.
  destruct segs as [|s segs]; [done|].
  rewrite (split_on_join "/"%char) by done.
  by rewrite normalize_segments_clean_id.
Qed.

(** A path that climbs out of the root is not under it. *)
Example inside_workspace_excludes_traversal :
  ¬ inside_workspace "/root/Docker" "/root/Docker/../../etc/passwd".
Proof.
  intros (rest & Heq & Hclean & Hslash).
  change (path_resolve "/root/Docker" EmptyString) with ["root"; "Docker"] in Heq.
  unfold render_path in Heq. apply (f_equal (split_on "/")) in Heq.
  change ("/" +:+ ?x) with (String "/"%char x) in Heq.
  cbn [split_on Ascii.eqb Bool.eqb] in Heq.
  rewrite (split_on_join "/"%char) in Heq.
  - cbn in Heq. injection Heq as <-. rewrite Forall_forall in Hclean.
    destruct (Hclean ".." ltac:(by left)) as (_ & _ & ?). done.
  - done.
  - repeat (constructor; [unfold lacks; compute_done|]). done.
Qed.

Lemma path_isAbsolute_slash (x : string) : path_isAbsolute (String "/"%char x) = true.
Proof. unfold path_isAbsolute, startsWith. simpl. by destruct x. Qed.

Lemma render_path_absolute (segs : list string) : path_isAbsolute (render_path segs) = true.
Proof. apply path_isAbsolute_slash. Qed.

(** Joining onto a rendered path. *)
Lemma path_join_render (segs : list string) (b : string) :
  plain_segments segs →
  path_join (render_path segs) b
  = render_path (normalize_segments (rev segs) (split_on "/" b)).
Proof.
  intros Hsegs. unfold path_join.
  change ("/" +:+ b) with (String "/"%char b).
  replace (path_isAbsolute (render_path segs +:+ String "/"%char b)) with true
    by (symmetry; apply path_isAbsolute_slash).
  rewrite split_on_append, normalize_segments_app.
  by rewrite split_render_path.
Qed.

(** *** Names the handlers accept *)

Definition is_alnum (c : ascii) : bool :=
  let n := N_of_ascii c in
  (((48 <=? n) && (n <=? 57)) || ((65 <=? n) && (n <=? 90)) || ((97 <=? n) && (n <=? 122)))%N.

(** The classes [[a-zA-Z0-9_-]] and [[a-zA-Z0-9_.-]]. *)
Definition service_char (c : ascii) : bool :=
  is_alnum c || Ascii.eqb c "_"%char || Ascii.eqb c "-"%char.

Definition project_char (c : ascii) : bool :=
  service_char c || Ascii.eqb c "."%char.

(** [validateServiceName(name)] and [validateProjectName(name)] for a
    string: [/^[a-zA-Z0-9_-]{1,50}$/] and [/^[a-zA-Z0-9_.-]{1,100}$/]. *)
Definition validateServiceName (name : string) : bool :=
  negb (String.eqb name EmptyString)
  && forallb service_char (list_ascii_of_string name)
  && (String.length name <=? 50)%nat.

Definition validateProjectName (name : string) : bool :=
  negb (String.eqb name EmptyString)
  && forallb project_char (list_ascii_of_string name)
  && (String.length name <=? 100)%nat.

(** *** [GET /api/status] *)

Inductive status_outcome :=
  | StatusRefused (status : Z) (error : string)
  | StatusPs (outcome : compose_outcome).

(** The handler up to its call of [runCompose]; [exists_] is
    [fs.existsSync]. *)
Definition status_request (root : string) (exists_ : string → bool) (file svc : string)
    : status_outcome :=
  if String.eqb file EmptyString || String.eqb svc EmptyString
  then StatusRefused 400 "Missing path or service parameter"
  else if negb (validateServiceName svc) then StatusRefused 400 "Invalid service name"
  else
    match sanitizePath root file with
    | None => StatusRefused 400 "Invalid path"
    | Some safe =>
        let composeFile :=
          if exists_ (path_join safe "docker-compose.yml")
          then path_join safe "docker-compose.yml" else safe in
        if negb (exists_ composeFile) then StatusRefused 404 "Compose file not found"
        else StatusPs (runCompose root exists_ composeFile
                         ["ps"; "--services"; "--filter"; "status=running"])
    end.

(** *** What the guard lets through *)

Lemma path_resolve_root (root : string) :
  path_resolve root EmptyString = normalize_segments [] (split_on "/" root).
Proof.
  unfold path_resolve. simpl. rewrite normalize_segments_app. simpl.
  by rewrite rev_involutive.
Qed.

Lemma strip_common_prefix (xs rest : list string) :
  strip_common xs (xs ++ rest) = ([], rest).
Proof.
  induction xs as [|x xs IH]; simpl; [by destruct rest|].
  by rewrite decide_True.
Qed.

Lemma path_relative_below (xs rest : list string) :
  path_relative xs (xs ++ rest) = join_with "/" rest.
Proof. unfold path_relative. by rewrite strip_common_prefix. Qed.

(** What [sanitizePath] answers is a rendered path below the root, and
    the test it passed is a test on the part below the root. *)
Lemma sanitizePath_Some (root input safe : string) :
  sanitizePath root input = Some safe →
  ∃ rest, safe = render_path (path_resolve root EmptyString ++ rest)
          ∧ plain_segments rest
          ∧ startsWith ".." (join_with "/" rest) || path_isAbsolute (join_with "/" rest) = false.
Proof.
  unfold sanitizePath. destruct (String.eqb input EmptyString); [done|].
  destruct (startsWith ".." _ || _) eqn:Hcheck; [done|]. intros [= <-].
  apply orb_false_iff in Hcheck as Hboth. destruct Hboth as [Hdots _].
  destruct (path_relative_inside _ _ Hdots) as [rest Hrest].
  exists rest. rewrite <- Hrest. split; [done|].
  pose proof (path_resolve_plain root input) as Hplain.
  rewrite Hrest in Hplain. apply plain_segments_app in Hplain as [_ Hplain].
  split; [done|]. by rewrite Hrest, path_relative_below in Hcheck.
Qed.

Lemma sanitizePath_render (root : string) (rest : list string) :
  plain_segments rest →
  startsWith ".." (join_with "/" rest) || path_isAbsolute (join_with "/" rest) = false →
  sanitizePath root (render_path (path_resolve root EmptyString ++ rest))
  = Some (render_path (path_resolve root EmptyString ++ rest)).
Proof.
  intros Hrest Hcheck. unfold sanitizePath.
  assert (plain_segments (path_resolve root EmptyString ++ rest)) as Hplain
    by (apply plain_segments_app; split; [apply path_resolve_plain|done]).
  replace (String.eqb (render_path _) EmptyString) with false by done.
  replace (path_resolve root (render_path (path_resolve root EmptyString ++ rest)))
    with (path_resolve root EmptyString ++ rest)%list.
  - by rewrite path_relative_below, Hcheck.
  - unfold path_resolve at 2. rewrite render_path_absolute.
    by rewrite split_render_path.
Qed.

(** [sanitizePath] leaves its own answers alone. *)
Theorem sanitizePath_idempotent (root input safe : string) :
  sanitizePath root input = Some safe → sanitizePath root safe = Some safe.
Proof.
  intros Hsafe. destruct (sanitizePath_Some _ _ _ Hsafe) as (rest & -> & Hrest & Hcheck).
  by apply sanitizePath_render.
Qed.

Lemma sanitizePath_idempotent_witness :
  sanitizePath "/root/Docker" "apps/../apps/web/./docker-compose.yml"
  = Some "/root/Docker/apps/web/docker-compose.yml"
  ∧ sanitizePath "/root/Docker" "/root/Docker/apps/web/docker-compose.yml"
    = Some "/root/Docker/apps/web/docker-compose.yml".
Proof.
  split; [reflexivity|].
  apply (sanitizePath_idempotent "/root/Docker" "apps/../apps/web/./docker-compose.yml").
  reflexivity.
Defined.

Lemma startsWith_nil (s : string) : startsWith EmptyString s = true.
Proof. by destruct s. Qed.

Lemma startsWith_cons (a b : ascii) (p s : string) :
  startsWith (String a p) (String b s) = if ascii_dec a b then startsWith p s else false.
Proof. done. Qed.

Lemma append_nil_r (s : string) : s +:+ EmptyString = s.
Proof.
  induction s as [|c s IH]; [done|].
  change (String c (s +:+ EmptyString) = String c s). by rewrite IH.
Qed.

(** The test of [sanitizePath] looks at the first segment only. *)
Lemma escape_test_head (r1 : string) (more : list string) :
  r1 ≠ EmptyString → lacks "/" r1 →
  startsWith ".." (join_with "/" (r1 :: more)) || path_isAbsolute (join_with "/" (r1 :: more))
  = startsWith ".." r1.
Proof.
  intros Hne Hlacks.
  assert (∃ tl, join_with "/" (r1 :: more) = r1 +:+ tl
                ∧ (tl = EmptyString ∨ ∃ tl', tl = String "/"%char tl')) as (tl & -> & Htl).
  { destruct more as [|m more]; [exists EmptyString|by eexists; split; [|right; eexists]].
    split; [|by left]. simpl. by rewrite append_nil_r. }
  destruct r1 as [|c1 r1]; [done|].
  assert (c1 ≠ "/"%char) as Hc1.
  { intros ->. apply Hlacks. simpl. by left. }
  change (String c1 r1 +:+ tl) with (String c1 (r1 +:+ tl)).
  unfold path_isAbsolute. rewrite !startsWith_cons.
  destruct (ascii_dec "/" c1) as [<-|_]; [done|]. rewrite orb_false_r.
  destruct (ascii_dec "." c1) as [<-|_]; [|done].
  destruct r1 as [|c2 r1].
  - change (EmptyString +:+ tl) with tl. destruct Htl as [->|[tl' ->]]; [done|].
    rewrite startsWith_cons. by destruct (ascii_dec "." "/").
  - change (String c2 r1 +:+ tl) with (String c2 (r1 +:+ tl)). rewrite !startsWith_cons.
    destruct (ascii_dec "." c2); [|done]. by rewrite !startsWith_nil.
Qed.

Lemma escape_test_snoc (rest : list string) (name : string) :
  plain_segments rest → clean_segment name → lacks "/" name → startsWith ".." name = false →
  startsWith ".." (join_with "/" rest) || path_isAbsolute (join_with "/" rest) = false →
  startsWith ".." (join_with "/" (rest ++ [name]))
  || path_isAbsolute (join_with "/" (rest ++ [name])) = false.
Proof.
  intros [Hclean Hlacks] Hname Hslash Hdots Hcheck.
  destruct rest as [|r1 more].
  - change ([] ++ [name])%list with [name].
    rewrite (escape_test_head name []); [done|apply Hname|done].
  - inversion Hclean as [|? ? Hr1 _]; inversion Hlacks as [|? ? Hl1 _]; subst.
    rewrite escape_test_head in Hcheck by (done || apply Hr1).
    change ((r1 :: more) ++ [name])%list with (r1 :: (more ++ [name]))%list.
    by rewrite escape_test_head by (done || apply Hr1).
Qed.

Lemma path_join_plain (segs : list string) (name : string) :
  plain_segments segs → clean_segment name → lacks "/" name →
  path_join (render_path segs) name = render_path (segs ++ [name]).
Proof.
  intros Hsegs Hname Hslash. rewrite path_join_render by done.
  rewrite split_on_lacks by done.
  rewrite normalize_segments_clean_id by (by constructor).
  by rewrite rev_involutive.
Qed.

(** Whatever [GET /api/status] hands to the compose CLI is an existing
    file under the workspace root, asked about a service whose name
    passed [validateServiceName]; [runCompose] never refuses what the
    handler passes on. *)
Theorem status_request_confined (root : string) (exists_ : string → bool)
    (file svc : string) (o : compose_outcome) :
  status_request root exists_ file svc = StatusPs o →
  ∃ safePath,
    inside_workspace root safePath
    ∧ exists_ safePath = true
    ∧ validateServiceName svc = true
    ∧ o = Invoked ("docker", ["compose"; "-f"; safePath; "ps"; "--services"; "--filter";
                              "status=running"])
                  ("docker-compose", ["-f"; safePath; "ps"; "--services"; "--filter";
                                      "status=running"]).
Proof.
  unfold status_request.
  destruct (String.eqb file EmptyString || String.eqb svc EmptyString); [done|].
  destruct (validateServiceName svc); [|done]. simpl.
  destruct (sanitizePath root file) as [safe|] eqn:Hsafe; [|done].
  destruct (sanitizePath_Some _ _ _ Hsafe) as (rest & -> & Hrest & Hcheck).
  assert (plain_segments (path_resolve root EmptyString ++ rest)) as Hplain
    by (apply plain_segments_app; split; [apply path_resolve_plain|done]).
  assert (clean_segment "docker-compose.yml" ∧ lacks "/" "docker-compose.yml") as [Hdc Hdcl].
  { split; [by repeat split|]. unfold lacks. compute_done. }
  rewrite path_join_plain by done. rewrite <- app_assoc.
  set (composeFile := if exists_ _ then _ else _).
  assert (∃ rest', composeFile = render_path (path_resolve root EmptyString ++ rest')
                   ∧ plain_segments rest'
                   ∧ startsWith ".." (join_with "/" rest')
                     || path_isAbsolute (join_with "/" rest') = false)
    as (rest' & HcomposeFile & Hrest' & Hcheck').
  { subst composeFile. destruct (exists_ _).
    - exists (rest ++ ["docker-compose.yml"])%list. split; [done|]. split.
      + apply plain_segments_app. split; [done|]. split; by constructor.
      + by apply escape_test_snoc.
    - by exists rest. }
  destruct (exists_ composeFile) eqn:Hexists; [|done]. simpl. intros [= <-].
  exists composeFile. split; [|split; [done|split; [done|]]].
  - exists rest'. split; [done|]. apply Hrest'.
  - unfold runCompose. rewrite HcomposeFile at 1.
    rewrite sanitizePath_render by done. rewrite <- HcomposeFile. by rewrite Hexists.
Qed.

Lemma status_request_confined_witness :
  ∃ safePath,
    inside_workspace "/root/Docker" safePath
    ∧ String.eqb "/root/Docker/apps/web/docker-compose.yml" safePath = true
    ∧ validateServiceName "web" = true
    ∧ Invoked ("docker", ["compose"; "-f"; "/root/Docker/apps/web/docker-compose.yml"; "ps";
                          "--services"; "--filter"; "status=running"])
              ("docker-compose", ["-f"; "/root/Docker/apps/web/docker-compose.yml"; "ps";
                                  "--services"; "--filter"; "status=running"])
      = Invoked ("docker", ["compose"; "-f"; safePath; "ps"; "--services"; "--filter";
                            "status=running"])
                ("docker-compose", ["-f"; safePath; "ps"; "--services"; "--filter";
                                    "status=running"]).
Proof.
  apply (status_request_confined "/root/Docker"
           (String.eqb "/root/Docker/apps/web/docker-compose.yml") "apps/web" "web").
  reflexivity.
Defined.

(** *** [path.basename] and the configuration files *)

Lemma lacks_rev_app (c : ascii) (s acc : string) :
  lacks c s → lacks c acc → lacks c (String.rev_app s acc).
Proof.
  unfold lacks. revert acc. induction s as [|x s IH]; intros acc Hs Hacc; simpl in *; [done|].
  apply not_elem_of_cons in Hs as [Hx Hs]. apply IH; [done|]. simpl.
  apply not_elem_of_cons. done.
Qed.

Lemma until_slash_lacks (r : string) : lacks "/" (until_slash r).
Proof.
  unfold lacks. induction r as [|c r IH]; simpl; [apply not_elem_of_nil|].
  destruct (Ascii.eqb_spec c "/"%char) as [->|Hc]; simpl; [apply not_elem_of_nil|].
  apply not_elem_of_cons. done.
Qed.

(** A base name is one segment. *)
Lemma path_basename_lacks_slash (p : string) : lacks "/" (path_basename p).
Proof.
  unfold path_basename, String.rev. apply lacks_rev_app; [apply until_slash_lacks|].
  apply not_elem_of_nil.
Qed.

Lemma includes_char (c : ascii) (s : string) :
  includes (String c EmptyString) s = false → lacks c s.
Proof.
  unfold lacks. induction s as [|d s IH]; simpl; [intros _; apply not_elem_of_nil|].
  intros Hinc. apply orb_false_iff in Hinc as [Hhead Htail].
  apply not_elem_of_cons. split; [|by apply IH].
  intros ->. destruct (ascii_dec d d); [|done]. by destruct s.
Qed.

(** One more segment on a plain path: the path itself, its parent, or
    the path with the segment added. *)
Lemma path_join_segment (segs : list string) (name : string) :
  plain_segments segs → lacks "/" name →
  path_join (render_path segs) name
  = render_path (if decide (name = EmptyString ∨ name = ".") then segs
                 else if decide (name = "..") then rev (tail (rev segs))
                 else segs ++ [name])%list.
Proof.
  intros Hsegs Hslash. rewrite path_join_render by done.
  rewrite split_on_lacks by done. simpl.
  repeat case_decide; simpl; by rewrite ?rev_involutive, ?rev_unit.
Qed.

(** The configuration file of a request lies under the workspace root,
    whatever [path] and [filename] are. *)
Theorem config_file_path_confined (root projectPath filename p : string) :
  path_isAbsolute root = true →
  config_file_path root projectPath filename = inr p →
  inside_workspace root p.
Proof.
  intros Hroot. unfold config_file_path.
  destruct (includes ".." filename) eqn:Hdots; [done|].
  destruct (includes "/" filename) eqn:Hslash; [done|].
  destruct (includes backslash filename); [done|]. simpl. intros [= <-].
  apply includes_char in Hslash.
  assert (filename ≠ "..") as Hup by (by intros ->).
  pose proof (path_resolve_plain root EmptyString) as HR.
  set (R := path_resolve root EmptyString) in *.
  assert (path_join root "apps" = render_path (R ++ ["apps"])) as ->.
  { unfold path_join.
    replace (path_isAbsolute (root +:+ "/" +:+ "apps")) with true.
    - change ("/" +:+ "apps") with (String "/"%char "apps").
      rewrite split_on_append, normalize_segments_app.
      subst R. rewrite path_resolve_root. simpl. by rewrite rev_involutive.
    - destruct root as [|c root]; [done|]. unfold path_isAbsolute in *.
      change (String c root +:+ ?x) with (String c (root +:+ x)).
      rewrite startsWith_cons in *. destruct (ascii_dec "/" c); [|done].
      by rewrite startsWith_nil. }
  assert (plain_segments ["apps"]) as Happs.
  { split; (constructor; [|done]); [by repeat split|unfold lacks; compute_done]. }
  assert (plain_segments ["config"]) as Hconfig.
  { split; (constructor; [|done]); [by repeat split|unfold lacks; compute_done]. }
  assert (∃ rest1, path_join (render_path (R ++ ["apps"])) (path_basename projectPath)
                   = render_path (R ++ rest1) ∧ plain_segments rest1) as (rest1 & -> & Hrest1).
  { rewrite path_join_segment;
      [|by apply plain_segments_app|apply path_basename_lacks_slash].
    repeat case_decide.
    - by exists ["apps"].
    - exists []. rewrite rev_unit. simpl. rewrite rev_involutive, app_nil_r. by split.
    - exists (["apps"] ++ [path_basename projectPath])%list. rewrite <- app_assoc.
      split; [done|]. apply plain_segments_app. split; [done|].
      split; (constructor; [|done]).
      + unfold clean_segment. tauto.
      + apply path_basename_lacks_slash. }
  assert (plain_segments (R ++ rest1)) as Hplain1 by (by apply plain_segments_app).
  rewrite path_join_plain; [|done|by repeat split|unfold lacks; compute_done].
  rewrite <- app_assoc.
  assert (plain_segments (rest1 ++ ["config"])) as Hrest2 by (by apply plain_segments_app).
  rewrite path_join_segment; [|by apply plain_segments_app|done].
  rewrite (decide_False (P := filename = "..")) by done.
  case_decide.
  - exists (rest1 ++ ["config"])%list. split; [done|]. apply Hrest2.
  - exists (rest1 ++ ["config"] ++ [filename])%list. rewrite <- !app_assoc. split; [done|].
    rewrite app_assoc. apply plain_segments_app. split; [exact Hrest2|].
    split; (constructor; [|done]); [unfold clean_segment; tauto|done].
Qed.

Lemma config_file_path_confined_witness :
  inside_workspace "/root/Docker" "/root/Docker/apps/web/config/app.conf"
  ∧ inside_workspace "/root/Docker" "/root/Docker/config/app.conf".
Proof.
  split.
  - apply (config_file_path_confined "/root/Docker" "/root/Docker/apps/web" "app.conf");
      reflexivity.
  - apply (config_file_path_confined "/root/Docker" "/root/Docker/apps/.." "app.conf");
      reflexivity.
Defined.

(** The project part of the request is reduced to one segment, and
    that segment may be [..]: the file then lies beside [apps], not in
    it. A file name with a slash or two dots in a row is refused. *)
Example config_file_path_samples :
  config_file_path "/root/Docker" "/root/Docker/apps/web/" "app.conf"
  = inr "/root/Docker/apps/web/config/app.conf"
  ∧ config_file_path "/root/Docker" "/root/Docker/apps/.." "app.conf"
    = inr "/root/Docker/config/app.conf"
  ∧ config_file_path "/root/Docker" "web" "../../etc/passwd" = inl (400, "Invalid filename")
  ∧ config_file_path "/root/Docker" "web" "a..b" = inl (400, "Invalid filename").
Proof. vm_compute. done. Qed.

(** ** Sessions and the limit on login attempts *)

(** [sessions] maps a token to [{ created, ip }], [authAttempts] maps a
    client address to the times of its failed attempts. Times are
    milliseconds. *)
Record session := Session {
  session_created : Z;
  session_ip : string
}.

Record auth_state := AuthState {
  sessions : gmap string session;
  authAttempts : gmap string (list Z)
}.

Definition MAX_AUTH_ATTEMPTS : nat := 5.
Definition AUTH_WINDOW_MS : Z := 15 * 60 * 1000.
Definition SESSION_TIMEOUT : Z := 24 * 60 * 60 * 1000.

(** [attemptsList.filter(attempt => now - attempt < AUTH_WINDOW_MS)]. *)
Definition recent_attempts (now : Z) (attemptsList : list Z) : list Z :=
  filter (λ attempt, now - attempt < AUTH_WINDOW_MS) attemptsList.

(** The loop that cleans up old attempts: an address with no recent
    attempt is deleted, the others keep their recent ones. *)
Definition clean_attempts (now : Z) (m : gmap string (list Z)) : gmap string (list Z) :=
  omap (λ attemptsList,
          match recent_attempts now attemptsList with
          | [] => None
          | recent => Some recent
          end) m.

Inductive login_body :=
  | LoginError (error : string)
  | LoginToken (token : string).

(** [POST /api/login]. [password] is [req.body.password] when it is a
    string; [token] is the hexadecimal rendering of the random bytes,
    [None] when drawing them throws. *)
Definition login (ADMIN_PASS clientIP : string) (now : Z) (password : option string)
    (token : option string) (s : auth_state) : auth_state * (Z * login_body) :=
  let cleaned := clean_attempts now (authAttempts s) in
  let attempts := default [] (cleaned !! clientIP) in
  let failed := AuthState (sessions s) (<[clientIP := (attempts ++ [now])%list]> cleaned) in
  if decide (MAX_AUTH_ATTEMPTS ≤ List.length attempts)%nat then
    (AuthState (sessions s) cleaned,
     (429, LoginError "Too many authentication attempts. Try again later."))
  else
    match password with
    | None => (failed, (400, LoginError "Password required"))
    | Some pw =>
        if String.eqb pw EmptyString then (failed, (400, LoginError "Password required"))
        else if String.eqb pw ADMIN_PASS then
          match token with
          | Some t =>
              (AuthState (<[t := Session now clientIP]> (sessions s)) cleaned,
               (200, LoginToken t))
          | None =>
              (AuthState (sessions s) cleaned, (500, LoginError "Failed to generate token"))
          end
        else (failed, (401, LoginError "Invalid password"))
    end.

Inductive auth_result :=
  | AuthNext
  | AuthRefused (status : Z) (error : string).

(** [authMiddleware]: [token] is
    [req.headers.authorization || req.query.token], [req_ip] is
    [req.ip]. *)
Definition authMiddleware (token : option string) (req_ip : option string) (now : Z)
    (s : auth_state) : auth_state * auth_result :=
  match token ≫= λ t, (λ sess, (t, sess)) <$> sessions s !! t with
  | None => (s, AuthRefused 401 "Unauthorized")
  | Some (t, sess) =>
      if decide (SESSION_TIMEOUT < now - session_created sess) then
        (AuthState (delete t (sessions s)) (authAttempts s),
         AuthRefused 401 "Session expired")
      else if truthy req_ip && negb (String.eqb (session_ip sess) EmptyString)
              && negb (bool_decide (req_ip = Some (session_ip sess))) then
        (AuthState (delete t (sessions s)) (authAttempts s),
         AuthRefused 401 "Session invalidated due to IP change")
      else
        (AuthState (<[t := Session now (session_ip sess)]> (sessions s)) (authAttempts s),
         AuthNext)
  end.

(** A request to log in. *)
Record login_request := LoginRequest {
  req_clientIP : string;
  req_now : Z;
  req_password : option string;
  req_token : option string
}.

Definition login_run (ADMIN_PASS : string) (s : auth_state) (reqs : list login_request)
    : auth_state :=
  foldl (λ s r, fst (login ADMIN_PASS (req_clientIP r) (req_now r) (req_password r)
                           (req_token r) s)) s reqs.

Definition auth_init : auth_state := AuthState ∅ ∅.

(** *** The attempts kept *)

Definition attempts_bounded (m : gmap string (list Z)) : Prop :=
  ∀ ip attemptsList, m !! ip = Some attemptsList →
    (List.length attemptsList ≤ MAX_AUTH_ATTEMPTS)%nat.

Lemma recent_attempts_length (now : Z) (l : list Z) :
  (List.length (recent_attempts now l) ≤ List.length l)%nat.
Proof. apply length_filter. Qed.

Lemma clean_attempts_lookup (now : Z) (m : gmap string (list Z)) (ip : string) (l : list Z) :
  clean_attempts now m !! ip = Some l →
  ∃ l0, m !! ip = Some l0 ∧ l = recent_attempts now l0 ∧ l ≠ [].
Proof.
  unfold clean_attempts. rewrite lookup_omap.
  destruct (m !! ip) as [l0|]; [|done]. simpl.
  destruct (recent_attempts now l0) as [|a r] eqn:Hrecent; [done|].
  intros [= <-]. by exists l0.
Qed.

Lemma clean_attempts_bounded (now : Z) (m : gmap string (list Z)) :
  attempts_bounded m → attempts_bounded (clean_attempts now m).
Proof.
  intros Hm ip l Hl. destruct (clean_attempts_lookup _ _ _ _ Hl) as (l0 & Hl0 & -> & _).
  pose proof (recent_attempts_length now l0). specialize (Hm ip l0 Hl0). lia.
Qed.

Lemma login_bounded (ADMIN_PASS clientIP : string) (now : Z) (password token : option string)
    (s : auth_state) :
  attempts_bounded (authAttempts s) →
  attempts_bounded (authAttempts (fst (login ADMIN_PASS clientIP now password token s))).
Proof.
  intros Hs. pose proof (clean_attempts_bounded now _ Hs) as Hclean.
  assert (∀ l, (¬ MAX_AUTH_ATTEMPTS ≤ List.length l)%nat →
               attempts_bounded (<[clientIP := (l ++ [now])%list]>
                                   (clean_attempts now (authAttempts s)))) as Hpush.
  { intros l Hl ip l' Hl'. destruct (decide (clientIP = ip)) as [->|Hne].
    - rewrite lookup_insert_eq in Hl'. injection Hl' as <-.
      rewrite length_app. simpl. lia.
    - rewrite lookup_insert_ne in Hl' by done. by eapply Hclean. }
  unfold login. case_decide; [done|].
  destruct password as [pw|]; simpl; [|by apply Hpush].
  destruct (String.eqb pw EmptyString); simpl; [by apply Hpush|].
  destruct (String.eqb pw ADMIN_PASS); [by destruct token|by apply Hpush].
Qed.

(** However many requests come in, from whatever addresses and at
    whatever times, no address ever has more than five attempts on
    record. *)
Theorem login_attempts_bounded (ADMIN_PASS : string) (reqs : list login_request) :
  attempts_bounded (authAttempts (login_run ADMIN_PASS auth_init reqs)).
Proof.
  unfold login_run.
  assert (attempts_bounded (authAttempts auth_init)) as Hinit by (by intros ip l Hl).
  revert Hinit. generalize auth_init.
  induction reqs as [|r reqs IH]; intros s Hs; [done|]. simpl.
  apply IH. by apply login_bounded.
Qed.

(** *** The lock *)

(** An address with five attempts in the last fifteen minutes is
    answered 429 whatever it sends, the right password included: no
    session is created and the attempt is not put on record. *)
Theorem login_locked_out (ADMIN_PASS clientIP : string) (now : Z)
    (password token : option string) (s : auth_state) (attemptsList : list Z) :
  authAttempts s !! clientIP = Some attemptsList →
  (MAX_AUTH_ATTEMPTS ≤ List.length (recent_attempts now attemptsList))%nat →
  let r := login ADMIN_PASS clientIP now password token s in
  snd r = (429, LoginError "Too many authentication attempts. Try again later.")
  ∧ sessions (fst r) = sessions s
  ∧ authAttempts (fst r) !! clientIP = Some (recent_attempts now attemptsList).
Proof.
  intros Hl Hfive. cbv zeta. unfold login.
  assert (clean_attempts now (authAttempts s) !! clientIP
          = Some (recent_attempts now attemptsList)) as Hclean.
  { unfold clean_attempts. rewrite lookup_omap, Hl. simpl.
    destruct (recent_attempts now attemptsList); [|done].
    unfold MAX_AUTH_ATTEMPTS in Hfive. simpl in Hfive. lia. }
  rewrite Hclean. simpl. by rewrite decide_True by done.
Qed.

Lemma login_locked_out_witness :
  let s := login_run "secret" auth_init
             ((λ t, LoginRequest "10.0.0.9" t (Some "guess") None) <$> [1000; 2000; 3000; 4000; 5000]) in
  let r := login "secret" "10.0.0.9" 6000 (Some "secret") (Some "c0ffee") s in
  snd r = (429, LoginError "Too many authentication attempts. Try again later.")
  ∧ sessions (fst r) = sessions s
  ∧ authAttempts (fst r) !! "10.0.0.9"
    = Some (recent_attempts 6000 [1000; 2000; 3000; 4000; 5000]).
Proof.
  intros s.
  apply (login_locked_out "secret" "10.0.0.9" 6000 (Some "secret") (Some "c0ffee") s
           [1000; 2000; 3000; 4000; 5000]).
  - vm_compute. reflexivity.
  - vm_compute. lia.
Defined.

(** *** Sessions *)

(** A login changes [sessions] only when it was given the password: the
    token it answers with is then the one session it added. *)
Theorem login_session_needs_password (ADMIN_PASS clientIP : string) (now : Z)
    (password token : option string) (s : auth_state) :
  let r := login ADMIN_PASS clientIP now password token s in
  sessions (fst r) = sessions s
  ∨ ∃ t, password = Some ADMIN_PASS ∧ token = Some t
         ∧ snd r = (200, LoginToken t)
         ∧ sessions (fst r) = <[t := Session now clientIP]> (sessions s).
Proof.
  cbv zeta. unfold login. case_decide; [by left|].
  destruct password as [pw|]; [|by left].
  destruct (String.eqb pw EmptyString); [by left|].
  destruct (String.eqb_spec pw ADMIN_PASS) as [->|_]; [|by left].
  destruct token as [t|]; [|by left]. right. by exists t.
Qed.

(** After a login with the password, from an address that is not
    locked, the token is accepted from that address for the next 24
    hours, and its use starts the 24 hours again. *)
Theorem login_then_authorized (ADMIN_PASS clientIP token : string) (now later : Z)
    (s : auth_state) :
  ADMIN_PASS ≠ EmptyString →
  (List.length (default [] (clean_attempts now (authAttempts s) !! clientIP))
   < MAX_AUTH_ATTEMPTS)%nat →
  later - now ≤ SESSION_TIMEOUT →
  let r1 := login ADMIN_PASS clientIP now (Some ADMIN_PASS) (Some token) s in
  let r2 := authMiddleware (Some token) (Some clientIP) later (fst r1) in
  snd r1 = (200, LoginToken token)
  ∧ snd r2 = AuthNext
  ∧ sessions (fst r2) !! token = Some (Session later clientIP).
Proof.
  intros Hpass Hfree Hlater. cbv zeta. unfold login.
  rewrite decide_False by lia.
  destruct (String.eqb_spec ADMIN_PASS EmptyString) as [|_]; [done|].
  rewrite String.eqb_refl. simpl. split; [done|].
  unfold authMiddleware. simpl. rewrite lookup_insert_eq. simpl.
  rewrite decide_False by lia.
  rewrite bool_decide_eq_true_2 by done. rewrite andb_false_r. simpl.
  by rewrite lookup_insert_eq.
Qed.

Lemma login_then_authorized_witness :
  let r1 := login "secret" "10.0.0.9" 1000 (Some "secret") (Some "c0ffee") auth_init in
  let r2 := authMiddleware (Some "c0ffee") (Some "10.0.0.9") 86401000 (fst r1) in
  snd r1 = (200, LoginToken "c0ffee")
  ∧ snd r2 = AuthNext
  ∧ sessions (fst r2) !! "c0ffee" = Some (Session 86401000 "10.0.0.9").
Proof.
  apply (login_then_authorized "secret" "10.0.0.9" "c0ffee" 1000 86401000 auth_init).
  - done.
  - vm_compute. lia.
  - vm_compute. discriminate.
Defined.

(** A session not used for more than 24 hours is refused and removed:
    the token is of no use afterwards, at any time and from any
    address. *)
Theorem session_expired_is_removed (token : string) (req_ip : option string) (now : Z)
    (s : auth_state) (sess : session) :
  sessions s !! token = Some sess →
  SESSION_TIMEOUT < now - session_created sess →
  let r := authMiddleware (Some token) req_ip now s in
  snd r = AuthRefused 401 "Session expired"
  ∧ sessions (fst r) !! token = None
  ∧ ∀ req_ip' now', snd (authMiddleware (Some token) req_ip' now' (fst r))
                    = AuthRefused 401 "Unauthorized".
Proof.
  intros Hsess Hold. cbv zeta.
  assert (authMiddleware (Some token) req_ip now s
          = (AuthState (delete token (sessions s)) (authAttempts s),
             AuthRefused 401 "Session expired")) as ->.
  { unfold authMiddleware. simpl. rewrite Hsess. simpl. by rewrite decide_True by done. }
  simpl. rewrite lookup_delete_eq. repeat split.
  intros req_ip' now'. unfold authMiddleware. simpl. by rewrite lookup_delete_eq.
Qed.

Lemma session_expired_is_removed_witness :
  let s := AuthState {[ "c0ffee" := Session 1000 "10.0.0.9" ]} ∅ in
  let r := authMiddleware (Some "c0ffee") (Some "10.0.0.9") 86401001 s in
  snd r = AuthRefused 401 "Session expired"
  ∧ sessions (fst r) !! "c0ffee" = None
  ∧ ∀ req_ip' now', snd (authMiddleware (Some "c0ffee") req_ip' now' (fst r))
                    = AuthRefused 401 "Unauthorized".
Proof.
  intros s.
  apply (session_expired_is_removed "c0ffee" (Some "10.0.0.9") 86401001 s
           (Session 1000 "10.0.0.9")).
  - reflexivity.
  - vm_compute. reflexivity.
Defined.

(** A request with a live token from another address is refused, and
    it ends the session for its owner as well. *)
Theorem session_ip_change_ends_session (token ip other : string) (now : Z)
    (s : auth_state) (created : Z) :
  sessions s !! token = Some (Session created ip) →
  now - created ≤ SESSION_TIMEOUT →
  ip ≠ EmptyString → other ≠ EmptyString → other ≠ ip →
  let r := authMiddleware (Some token) (Some other) now s in
  snd r = AuthRefused 401 "Session invalidated due to IP change"
  ∧ snd (authMiddleware (Some token) (Some ip) now (fst r)) = AuthRefused 401 "Unauthorized".
Proof.
  intros Hsess Hlive Hip Hother Hne. cbv zeta.
  assert (authMiddleware (Some token) (Some other) now s
          = (AuthState (delete token (sessions s)) (authAttempts s),
             AuthRefused 401 "Session invalidated due to IP change")) as ->.
  { unfold authMiddleware. simpl. rewrite Hsess. simpl. rewrite decide_False by lia.
    destruct (String.eqb_spec other EmptyString) as [|_]; [done|].
    destruct (String.eqb_spec ip EmptyString) as [|_]; [done|]. simpl.
    by rewrite bool_decide_eq_false_2 by congruence. }
  split; [done|]. unfold authMiddleware. simpl. by rewrite lookup_delete_eq.
Qed.

Lemma session_ip_change_ends_session_witness :
  let s := AuthState {[ "c0ffee" := Session 1000 "10.0.0.9" ]} ∅ in
  let r := authMiddleware (Some "c0ffee") (Some "10.0.0.7") 2000 s in
  snd r = AuthRefused 401 "Session invalidated due to IP change"
  ∧ snd (authMiddleware (Some "c0ffee") (Some "10.0.0.9") 2000 (fst r))
    = AuthRefused 401 "Unauthorized".
Proof.
  intros s.
  apply (session_ip_change_ends_session "c0ffee" "10.0.0.9" "10.0.0.7" 2000 s 1000);
    [reflexivity|vm_compute; discriminate|done..].
Defined.

(** ** [allocatePorts] *)

(** A value of [requested]: a string, a number, or anything else. *)
Inductive requested_value :=
  | ReqStr (s : string)
  | ReqNum (n : Z)
  | ReqOther.

(** [hostPort] as the loop computes it; [None] is [null] or [NaN]. *)
Definition requested_host (val : requested_value) : option Z :=
  match val with
  | ReqStr s => parseInt (default EmptyString (head (split_on ":" s)))
  | ReqNum n => Some n
  | ReqOther => None
  end.

(** [while (used.has(probe)) probe++] from a given start. *)
Definition probe_from (used : gset Z) (start : Z) : Z :=
  probe_loop used (S (size used)) start.

(** One turn of the loop over [Object.keys(requested)]: the state is
    [used], [probe] and [allocations]. *)
Definition allocate_step (st : gset Z * Z * list (string * Z))
    (kv : string * requested_value) : gset Z * Z * list (string * Z) :=
  let '(used, probe, allocations) := st in
  match requested_host (snd kv) with
  | Some hostPort =>
      if decide (hostPort = 0) then st
      else if decide (hostPort ∈ used) then
        let found := probe_from used probe in
        ({[found]} ∪ used, found + 1, alist_set (fst kv) found allocations)
      else ({[hostPort]} ∪ used, probe, alist_set (fst kv) hostPort allocations)
  | None => st
  end.

Definition allocatePorts (existingHostPorts : list Z)
    (requested : list (string * requested_value)) : list (string * Z) :=
  snd (foldl allocate_step (list_to_set existingHostPorts, 10000, []) requested).

Lemma probe_from_spec (used : gset Z) (start : Z) :
  start ≤ probe_from used start
  ∧ (probe_from used start ∉ used)
  ∧ ∀ q, start ≤ q < probe_from used start → q ∈ used.
Proof.
  apply probe_loop_spec.
  assert (size (filter (λ x, (start ≤ x)%Z) used) ≤ size used)%nat; [|lia].
  apply subseteq_size. intros x. rewrite elem_of_filter. tauto.
Qed.

Lemma alist_set_values {A} (k : string) (v : A) (l : list (string * A)) (x : A) :
  x ∈ snd <$> alist_set k v l → x = v ∨ x ∈ snd <$> l.
Proof.
  induction l as [|[k' v'] l IH]; simpl.
  - rewrite list_elem_of_singleton. tauto.
  - case_decide; simpl; rewrite !elem_of_cons; [tauto|]. intros [->|Hx]; [tauto|].
    destruct (IH Hx); tauto.
Qed.

Lemma alist_set_values_NoDup {A} (k : string) (v : A) (l : list (string * A)) :
  NoDup (snd <$> l) → v ∉ snd <$> l → NoDup (snd <$> alist_set k v l).
Proof.
  induction l as [|[k' v'] l IH]; simpl; intros Hnd Hv.
  - apply NoDup_singleton.
  - apply NoDup_cons in Hnd as [Hv' Hnd]. apply not_elem_of_cons in Hv as [Hne Hv].
    case_decide; simpl; apply NoDup_cons; split; try done.
    + intros Hin. destruct (alist_set_values _ _ _ _ Hin); [congruence|done].
    + by apply IH.
Qed.

Lemma alist_set_keys {A} (k : string) (v : A) (l : list (string * A)) (kx : string * A) :
  kx ∈ alist_set k v l → kx = (k, v) ∨ kx ∈ l.
Proof.
  induction l as [|[k' v'] l IH]; simpl.
  - rewrite list_elem_of_singleton. tauto.
  - case_decide; rewrite !elem_of_cons; [tauto|]. intros [->|Hx]; [tauto|].
    destruct (IH Hx); tauto.
Qed.

(** What the loop keeps true: the ports handed out are in [used] but
    not among the existing ones, no two are the same, each is the port
    its entry asked for or one from 10000 on, and [probe] never goes
    below 10000. *)
Record allocate_inv (existing : gset Z) (requested : list (string * requested_value))
    (st : gset Z * Z * list (string * Z)) : Prop := AllocateInv {
  ai_used : existing ⊆ st.1.1;
  ai_probe : 10000 ≤ st.1.2;
  ai_in : ∀ p, p ∈ snd <$> st.2 → p ∈ st.1.1 ∧ p ∉ existing;
  ai_nodup : NoDup (snd <$> st.2);
  ai_origin : ∀ key p, (key, p) ∈ st.2 →
    ∃ val, (key, val) ∈ requested ∧ (requested_host val = Some p ∨ 10000 ≤ p)
}.

Lemma allocate_step_inv (existing : gset Z) (requested : list (string * requested_value))
    (st : gset Z * Z * list (string * Z)) (kv : string * requested_value) :
  kv ∈ requested →
  allocate_inv existing requested st → allocate_inv existing requested (allocate_step st kv).
Proof.
  destruct st as [[used probe] allocations]. destruct kv as [key val].
  intros Hkv [Hused Hprobe Hin Hnd Horigin]. simpl in *.
  unfold allocate_step. simpl.
  destruct (requested_host val) as [hostPort|] eqn:Hhost; [|by split].
  case_decide; [by split|].
  assert (∀ v, v ∉ used →
               (requested_host val = Some v ∨ 10000 ≤ v) →
               ∀ probe', 10000 ≤ probe' →
               allocate_inv existing requested
                 ({[v]} ∪ used, probe', alist_set key v allocations)) as Hadd.
  { intros v Hv Hwhy probe' Hprobe'. split; simpl.
    - by apply union_subseteq_r'.
    - done.
    - intros p Hp. destruct (alist_set_values _ _ _ _ Hp) as [->|Hold].
      + split; [apply elem_of_union; left; by apply elem_of_singleton|].
        intros Hbad. apply Hv. by apply Hused.
      + destruct (Hin p Hold). split; [apply elem_of_union; by right|done].
    - apply alist_set_values_NoDup; [done|]. intros Hbad. apply Hv. by apply Hin.
    - intros key' p Hp. destruct (alist_set_keys _ _ _ _ Hp) as [[= -> ->]|Hold].
      + by exists val.
      + by apply Horigin. }
  case_decide.
  - destruct (probe_from_spec used probe) as (Hle & Hfree & _).
    apply Hadd; [done|right; lia|lia].
  - apply Hadd; [done|by left|done].
Qed.

(** The ports [allocatePorts] hands out are pairwise distinct, none of
    them is among the existing ones, and each is the port its entry
    asked for or a port from 10000 on. *)
Theorem allocatePorts_fresh_and_distinct (existingHostPorts : list Z)
    (requested : list (string * requested_value)) :
  let allocations := allocatePorts existingHostPorts requested in
  NoDup (snd <$> allocations)
  ∧ (∀ p, p ∈ snd <$> allocations → p ∉ existingHostPorts)
  ∧ ∀ key p, (key, p) ∈ allocations →
      ∃ val, (key, val) ∈ requested ∧ (requested_host val = Some p ∨ 10000 ≤ p).
Proof.
  cbv zeta. unfold allocatePorts.
  assert (∀ todo st,
            todo ⊆ requested →
            allocate_inv (list_to_set existingHostPorts) requested st →
            allocate_inv (list_to_set existingHostPorts) requested
              (foldl allocate_step st todo)) as Hfold.
  { induction todo as [|kv todo IH]; intros st Hsub Hinv; [done|]. simpl.
    apply IH.
    - intros x Hx. apply Hsub. by right.
    - apply allocate_step_inv; [apply Hsub; by left|done]. }
  destruct (Hfold requested (list_to_set existingHostPorts, 10000, []))
    as [_ _ Hin Hnd Horigin]; [done| |].
  { split; simpl; try done.
    - intros p Hp. by apply elem_of_nil in Hp.
    - constructor.
    - intros key p Hp. by apply elem_of_nil in Hp. }
  split; [done|]. split; [|done].
  intros p Hp. destruct (Hin p Hp) as [_ Hfresh]. by rewrite elem_of_list_to_set in Hfresh.
Qed.

(** Two entries asking for one port, which is taken already. *)
Example allocatePorts_sample :
  allocatePorts [8080; 10000]
    [("web", ReqStr "8080:80"); ("api", ReqNum 8080); ("db", ReqStr "5432:5432");
     ("x", ReqStr "tcp"); ("y", ReqOther)]
  = [("web", 10001); ("api", 10002); ("db", 5432)].
Proof. vm_compute. done. Qed.

(** ** The next free address of [GET /api/next-ip] *)

(** The loop [for (let i = 2; i < 255; i++)] of the handler:
    [networkBase + i] is compared with the used addresses as a whole. *)
Fixpoint next_ip_loop (networkBase : string) (usedIPs : gset string)
    (fuel : nat) (i : Z) : option string :=
  match fuel with
  | O => None
  | S fuel' =>
      if decide (networkBase +:+ Number_toString i ∈ usedIPs)
      then next_ip_loop networkBase usedIPs fuel' (i + 1)
      else Some (networkBase +:+ Number_toString i)
  end.

Definition next_free_ip (networkBase : string) (usedIPs : gset string) : option string :=
  next_ip_loop networkBase usedIPs 253 2.

(** The answer of the handler once [usedIPs] and [networkBase] are
    known. *)
Definition next_ip_response (networkBase : string) (usedIPs : gset string) : Z * string :=
  match next_free_ip networkBase usedIPs with
  | Some nextIp => (200, nextIp)
  | None => (500, "no free ip available")
  end.

Lemma next_ip_loop_spec (networkBase : string) (usedIPs : gset string) (fuel : nat) (i : Z) :
  match next_ip_loop networkBase usedIPs fuel i with
  | Some ip =>
      ∃ k, i ≤ k < i + Z.of_nat fuel ∧ ip = networkBase +:+ Number_toString k
           ∧ (ip ∉ usedIPs)
           ∧ ∀ j, i ≤ j < k → networkBase +:+ Number_toString j ∈ usedIPs
  | None => ∀ j, i ≤ j < i + Z.of_nat fuel → networkBase +:+ Number_toString j ∈ usedIPs
  end.
Proof.
  revert i. induction fuel as [|fuel IH]; intros i; simpl; [intros j Hj; lia|].
  case_decide as Hin.
  - specialize (IH (i + 1)). destruct (next_ip_loop _ _ fuel (i + 1)) as [ip|].
    + destruct IH as (k & Hk & -> & Hfree & Hbelow). exists k.
      repeat split; [lia|lia|done|].
      intros j Hj. destruct (decide (j = i)) as [->|]; [done|]. apply Hbelow. lia.
    + intros j Hj. destruct (decide (j = i)) as [->|]; [done|]. apply IH. lia.
  - exists i. repeat split; [lia|lia|done|]. intros j Hj. lia.
Qed.

(** [GET /api/next-ip] answers the smallest address of [.2 … .254] on
    the base that is not used, and the error exactly when all of them
    are. *)
Theorem next_free_ip_smallest (networkBase : string) (usedIPs : gset string) :
  match next_free_ip networkBase usedIPs with
  | Some ip =>
      ∃ k, 2 ≤ k ≤ 254 ∧ ip = networkBase +:+ Number_toString k
           ∧ (ip ∉ usedIPs)
           ∧ ∀ j, 2 ≤ j < k → networkBase +:+ Number_toString j ∈ usedIPs
  | None => ∀ j, 2 ≤ j ≤ 254 → networkBase +:+ Number_toString j ∈ usedIPs
  end.
Proof.
  unfold next_free_ip. pose proof (next_ip_loop_spec networkBase usedIPs 253 2) as H.
  destruct (next_ip_loop _ _ _ _) as [ip|].
  - destruct H as (k & Hk & Hrest). exists k. split; [lia|done].
  - intros j Hj. apply H. lia.
Qed.

(** On addresses of the base itself the handler and the allocator of
    the reconciler agree. *)
Lemma next_ip_loop_allocateIps (b : string) (used : list string) (fuel : nat) (i : Z) :
  0 < i →
  Forall (λ ip, ∃ k, 0 < k ∧ ip = (b +:+ ".") +:+ Number_toString k) used →
  next_ip_loop (b +:+ ".") (list_to_set used) fuel i
  = head (allocateIps_loop (b +:+ ".") (list_to_set (last_octet <$> used)) fuel i 1).
Proof.
  intros Hi Hused. revert i Hi. induction fuel as [|fuel IH]; intros i Hi; simpl; [done|].
  assert ((b +:+ ".") +:+ Number_toString i ∈ (list_to_set used : gset string)
          ↔ Number_toString i ∈ (list_to_set (last_octet <$> used) : gset string)) as Hiff.
  { rewrite !elem_of_list_to_set, list_elem_of_fmap. split.
    - intros Hin. eexists. split; [|done]. by rewrite last_octet_of_base.
    - intros (ip & Hoctet & Hin). rewrite Forall_forall in Hused.
      destruct (Hused ip Hin) as (k & Hk & ->).
      rewrite last_octet_of_base in Hoctet by done.
      apply (inj pretty) in Hoctet. by subst. }
  destruct (decide (_ ∈ list_to_set used)) as [Hin|Hout].
  - rewrite decide_True by (by apply Hiff). apply IH. lia.
  - rewrite decide_False by (by rewrite <- Hiff). done.
Qed.

(** While every address in use lies on the base, [GET /api/next-ip]
    offers the address the reconciler itself would hand out next. *)
Theorem next_free_ip_agrees_with_nextIpv4 (b : string) (used : list string) :
  Forall (λ ip, ∃ k, 0 < k ∧ ip = (b +:+ ".") +:+ Number_toString k) used →
  next_free_ip (b +:+ ".") (list_to_set used) = nextIpv4 (b +:+ ".") used.
Proof.
  intros Hused. unfold next_free_ip, nextIpv4, allocateIps.
  by apply next_ip_loop_allocateIps.
Qed.

Lemma next_free_ip_agrees_with_nextIpv4_witness :
  next_free_ip ("172.28.0" +:+ ".") (list_to_set ["172.28.0.2"; "172.28.0.3"; "172.28.0.5"])
  = nextIpv4 ("172.28.0" +:+ ".") ["172.28.0.2"; "172.28.0.3"; "172.28.0.5"].
Proof.
  apply (next_free_ip_agrees_with_nextIpv4 "172.28.0").
  repeat constructor; [by exists 2|by exists 3|by exists 5].
Defined.

(** They part as soon as an address of another subnet is in use: the
    handler still offers [.2], the reconciler would hand out [.3]. *)
Example next_free_ip_differs_from_nextIpv4 :
  next_free_ip "172.28.0." (list_to_set ["10.0.0.2"]) = Some "172.28.0.2"
  ∧ nextIpv4 "172.28.0." ["10.0.0.2"] = Some "172.28.0.3".
Proof. vm_compute. done. Qed.

(** ** The address [POST /api/add] gives a copied service *)

(** [parseInt(ip.split('.')[3], 10)] for an address that starts with
    [172.28.0.]. *)
Definition ip_host_number (ip : string) : option Z :=
  if startsWith "172.28.0." ip
  then split_on "." ip !! 3%nat ≫= parseInt
  else None.

(** [maxUsed] after the loop over [usedIPs]; the order in which the set
    is walked does not matter for a maximum. The numbers are what the
    code has while the last fields stay within [MAX_SAFE_INTEGER]. *)
Definition max_used (usedIPs : gset string) : Z :=
  foldr Z.max 0 (omap ip_host_number (elements usedIPs)).

(** [`172.28.0.${maxUsed + 1}`]; the sum is exact, and so is what the
    code computes, when [maxUsed] is within [MAX_SAFE_INTEGER]. *)
Definition next_added_ip (usedIPs : gset string) : string :=
  "172.28.0." +:+ Number_toString (max_used usedIPs + 1).

Lemma foldr_max_ge (l : list Z) (x : Z) : x ∈ l → x ≤ foldr Z.max 0 l.
Proof.
  induction l as [|y l IH]; simpl; [by rewrite elem_of_nil|].
  rewrite elem_of_cons. intros [->|Hx]; [lia|]. specialize (IH Hx). lia.
Qed.

Lemma foldr_max_nonneg (l : list Z) : 0 ≤ foldr Z.max 0 l.
Proof. induction l; simpl; lia. Qed.

Lemma startsWith_append (p x : string) : startsWith p (p +:+ x) = true.
Proof.
  induction p as [|c p IH]; [apply startsWith_nil|].
  change (String c p +:+ x) with (String c (p +:+ x)). rewrite startsWith_cons.
  by destruct (ascii_dec c c).
Qed.

Lemma ip_host_number_rendered (n : Z) :
  0 < n → ip_host_number ("172.28.0." +:+ Number_toString n) = Some n.
Proof.
  intros Hn. unfold ip_host_number. rewrite startsWith_append.
  change ("172.28.0." +:+ Number_toString n)
    with ("172.28.0" +:+ String "."%char (Number_toString n)).
  rewrite split_on_snoc by (by apply digits_lack_dot, Number_toString_digits).
  change (split_on "." "172.28.0") with ["172"; "28"; "0"]. simpl.
  by apply parseInt_Number_toString.
Qed.

(** The address given to a copied service is never one of the used
    ones, provided the last field of every used address on
    [172.28.0.] is a number within [MAX_SAFE_INTEGER]. Beyond that
    range the sum [maxUsed + 1] of the code is rounded and can be
    [maxUsed] again. *)
Theorem next_added_ip_fresh (usedIPs : gset string) :
  (∀ ip n, ip ∈ usedIPs → ip_host_number ip = Some n → safe_integer n) →
  next_added_ip usedIPs ∉ usedIPs.
Proof.
  intros _ Hin. unfold next_added_ip in Hin.
  pose proof (foldr_max_nonneg (omap ip_host_number (elements usedIPs))) as Hnonneg.
  fold (max_used usedIPs) in Hnonneg.
  assert (max_used usedIPs + 1 ≤ max_used usedIPs); [|lia].
  apply foldr_max_ge. apply list_elem_of_omap. eexists. split.
  - by apply elem_of_elements.
  - apply ip_host_number_rendered. lia.
Qed.

Lemma next_added_ip_fresh_witness :
  next_added_ip (list_to_set ["172.28.0.2"; "172.28.0.9"; "10.0.0.77"])
  ∉ (list_to_set ["172.28.0.2"; "172.28.0.9"; "10.0.0.77"] : gset string).
Proof.
  apply (next_added_ip_fresh (list_to_set ["172.28.0.2"; "172.28.0.9"; "10.0.0.77"])).
  intros ip n Hip. apply elem_of_list_to_set in Hip.
  repeat (apply elem_of_cons in Hip as [->|Hip];
          [match goal with
           | |- ip_host_number ?a = _ → _ =>
               let v := eval vm_compute in (ip_host_number a) in
               change (ip_host_number a) with v
           end;
           intros [= <-]; unfold safe_integer, MAX_SAFE_INTEGER; lia|]).
  by apply elem_of_nil in Hip.
Defined.

(** It is one more than the largest host number in use, so it leaves
    gaps unfilled and goes past [.254] when that is taken. *)
Example next_added_ip_samples :
  next_added_ip (list_to_set ["172.28.0.2"; "172.28.0.9"; "10.0.0.77"]) = "172.28.0.10"
  ∧ next_added_ip (list_to_set ["172.28.0.254"]) = "172.28.0.255"
  ∧ next_added_ip ∅ = "172.28.0.1".
Proof. vm_compute. done. Qed.

(** ** Host ports of the projects a tick processes *)

Lemma census_hosts_app (l1 l2 : list port_entry) :
  census_hosts (l1 ++ l2) = (census_hosts l1 ++ census_hosts l2)%list.
Proof.
  induction l1 as [|p l1 IH]; simpl; [done|]. rewrite IH. by destruct (census_host p).
Qed.

Lemma census_ports_membership (ports : list port_entry) (c : census) (h : Z) :
  h ∈ usedHostSet (foldl census_port c ports) ↔ h ∈ usedHostSet c ∨ h ∈ census_hosts ports.
Proof.
  revert c. induction ports as [|p ports IH]; intros c; simpl.
  - rewrite elem_of_nil. split; [by left|by intros [?|?]].
  - rewrite IH. unfold census_port. destruct (census_host p) as [host|]; simpl; [|done].
    rewrite elem_of_union, elem_of_singleton, elem_of_cons.
    split; [intros [[->|?]|?]|intros [?|[->|?]]]; auto.
Qed.

Lemma fix_hosts_in_census_hosts (ports : list port_entry) (h : Z) :
  h ∈ fix_hosts ports → h ∈ census_hosts ports.
Proof.
  induction ports as [|p ports IH]; simpl; [done|].
  destruct (fixable_host p) as [h'|] eqn:Hfix.
  - rewrite (fixable_host_census_host _ _ Hfix), !elem_of_cons.
    intros [->|Hh]; [by left|right; by apply IH].
  - intros Hh. destruct (census_host p); [right|]; by apply IH.
Qed.

(** The census of one service counts the host ports of its entries and
    nothing else, whether or not its networks make it throw. *)
Lemma census_service_hosts (c : census) (svc : service) (h : Z) :
  hostCount (fst (census_service c svc)) h
  = (hostCount c h + occ h (census_hosts (svc_port_list svc)))%nat
  ∧ (h ∈ usedHostSet (fst (census_service c svc))
     ↔ h ∈ usedHostSet c ∨ h ∈ census_hosts (svc_port_list svc)).
Proof.
  unfold census_service, svc_port_list.
  set (c1 := foldl census_port c (default [] (svc_ports svc))).
  pose proof (census_networks_hosts svc (default [] (svc_networks svc)) c1) as [Hcounts Hset].
  assert (hostCount c1 h = (hostCount c h + occ h (census_hosts (default [] (svc_ports svc))))%nat
          ∧ (h ∈ usedHostSet c1
             ↔ h ∈ usedHostSet c ∨ h ∈ census_hosts (default [] (svc_ports svc))))
    as [Hc1 Hs1].
  { split; [apply census_ports_counts|apply census_ports_membership]. }
  destruct (census_networks svc _ c1) as [c2 [e|]]; simpl in *.
  - unfold hostCount in *. by rewrite Hcounts, Hset.
  - pose proof (bump_ip_if_hosts (svc_ipv4_address svc) c2) as [Ha1 Ha2].
    pose proof (bump_ip_if_hosts (svc_ipv4Address svc)
                  (bump_ip_if (svc_ipv4_address svc) c2)) as [Hb1 Hb2].
    unfold hostCount in *. by rewrite Hb1, Hb2, Ha1, Ha2, Hcounts, Hset.
Qed.

Lemma census_services_hosts (svcs : list (string * service)) (c : census) :
  let r := census_services c svcs in
  (∀ h, (hostCount c h ≤ hostCount (fst r) h)%nat)
  ∧ usedHostSet c ⊆ usedHostSet (fst r)
  ∧ (snd r = None →
     ∀ h, hostCount (fst r) h
          = (hostCount c h + occ h (census_hosts (ports_of_services svcs)))%nat
          ∧ (h ∈ census_hosts (ports_of_services svcs) → h ∈ usedHostSet (fst r))).
Proof.
  revert c. induction svcs as [|[name svc] svcs IH]; intros c; simpl.
  - split; [done|]. split; [done|]. intros _ h. rewrite occ_nil.
    split; [lia|]. by rewrite elem_of_nil.
  - pose proof (census_service_hosts c svc) as Hsvc.
    destruct (census_service c svc) as [c' [e|]]; simpl in *.
    + split; [intros h; destruct (Hsvc h); lia|]. split; [|done].
      intros h Hh. apply Hsvc. by left.
    + specialize (IH c'). simpl in IH. destruct IH as (Hle & Hsub & Hnone).
      split; [intros h; destruct (Hsvc h); specialize (Hle h); lia|].
      split; [intros h Hh; apply Hsub, Hsvc; by left|].
      intros Hok h. destruct (Hnone Hok h) as [Hcount Hin]. destruct (Hsvc h) as [Hc' Hs'].
      rewrite census_hosts_app, occ_app. split; [lia|].
      rewrite elem_of_app. intros [Hh|Hh]; [|by apply Hin].
      apply Hsub, Hs'. by right.
Qed.

(** After the first pass every project of [composeData] has the host
    ports of its entries in the census, each with at least its number
    of occurrences. *)
Lemma first_pass_hosts {text} (YAML_parse : text → string + option parsed)
    (files : gmap string text) (dirs : list string) (h : Z) :
  let pass1 := first_pass YAML_parse files dirs in
  (occ h (census_hosts (ports_of_items (snd pass1))) ≤ hostCount (fst pass1) h)%nat
  ∧ (h ∈ census_hosts (ports_of_items (snd pass1)) → h ∈ usedHostSet (fst pass1)).
Proof.
  cbv zeta. unfold first_pass.
  assert (∀ st : census * list item,
            (∀ h, (occ h (census_hosts (ports_of_items (snd st))) ≤ hostCount (fst st) h)%nat
                  ∧ (h ∈ census_hosts (ports_of_items (snd st)) → h ∈ usedHostSet (fst st))) →
            ∀ h, (occ h (census_hosts (ports_of_items (snd (foldl (scan_step YAML_parse files) st dirs))))
                  ≤ hostCount (fst (foldl (scan_step YAML_parse files) st dirs)) h)%nat
                 ∧ (h ∈ census_hosts (ports_of_items (snd (foldl (scan_step YAML_parse files) st dirs)))
                    → h ∈ usedHostSet (fst (foldl (scan_step YAML_parse files) st dirs)))) as Hfold.
  { induction dirs as [|dir dirs IH]; intros st Hst; [done|]. simpl. apply IH.
    intros h'. unfold scan_step. destruct (files !! compose_file dir) as [content|]; [|done].
    destruct (YAML_parse content) as [e|doc]; [done|].
    pose proof (census_services_hosts (services_of (default (Doc empty_compose) doc)) (fst st))
      as (Hle & Hsub & Hnone). cbv zeta in *.
    destruct (census_services _ _) as [c' [e|]]; simpl in *.
    - destruct (Hst h') as [Hocc Hin]. specialize (Hle h'). split; [lia|].
      intros Hh. by apply Hsub, Hin.
    - destruct (Hnone eq_refl h') as [Hcount Hin']. destruct (Hst h') as [Hocc Hin].
      unfold ports_of_items. rewrite bind_app. simpl. rewrite app_nil_r.
      fold (ports_of_items (snd st)). rewrite census_hosts_app, occ_app.
      split; [lia|]. rewrite elem_of_app. intros [Hh|Hh]; [by apply Hsub, Hin|by apply Hin']. }
  apply Hfold. intros h'. simpl. rewrite occ_nil. split; [lia|]. by rewrite elem_of_nil.
Qed.

Lemma ports_of_items_Permutation (l1 l2 : list item) :
  l1 ≡ₚ l2 → ports_of_items l1 ≡ₚ ports_of_items l2.
Proof. intros Hperm. unfold ports_of_items. by rewrite Hperm. Qed.



(** On the census of the sample workspace, where 8080 is counted
    twice: the first mapping of 8080 that the pass meets is moved, with
    its bind address and container port kept; the next one stays, 8080
    being counted once by then. *)
Example processed_ports_sample :
  let files := fs (sample_world shared_port_workspace) in
  let pass1 := first_pass sample_parse files ["/ws/a"; "/ws/b"] in
  snd (fix_ports (fst pass1) [PStr "127.0.0.1:8080:3000"; PStr "8443:443"; PStr "8080:80"])
  = ["127.0.0.1:10000:3000"; "8443:443"; "8080:80"]
  ∧ move_host "127.0.0.1:8080:3000" 10000 = "127.0.0.1:10000:3000".
Proof. vm_compute. done. Qed.

(** ** Reading the mapper back *)

Section MapperFile.

Context {text : Type} `{!EqDecision text}.
Context (YAML_stringify : compose → text).
Context (YAML_parse : text → string + option parsed).
Context (JSON_mapper : mapper_t → text).
Context (dir_le : string → string → bool).
Context (NETWORK_prefix : string).
Context (script_dir : string).
Context (projectDirs : string + list string).

(** [JSON.parse] on a file content ([None] is a falsy value) and
    [raw.replace(/^\s*export\s+default\s+/, '')]. *)
Context (JSON_parse : text → string + option mapper_t).
Context (strip_export : text → text).

(** [readMapperFile()]: the mapper of [mapper.json], else of the legacy
    [mapper.js], [None] ([null]) when neither is there or reading
    fails. *)
Definition readMapperFile : IO text (option mapper_t) :=
  r <- attempt
         (present <- existsSync (mapper_json script_dir) ;;
          if present : bool then
            raw <- readFileSync (mapper_json script_dir) ;;
            match JSON_parse raw with
            | inl e => throw e
            | inr m => io_ret m
            end
          else
            presentJs <- existsSync (mapper_js script_dir) ;;
            if presentJs : bool then
              raw <- readFileSync (mapper_js script_dir) ;;
              match JSON_parse (strip_export raw) with
              | inl e => throw e
              | inr m => io_ret m
              end
            else io_ret None) ;;
  match r with
  | inl e => log ["readMapperFile failed"; e] ;;; io_ret None
  | inr m => io_ret m
  end.

Lemma mapper_js_not_mapper_json : mapper_js script_dir ≠ mapper_json script_dir.
Proof.
  unfold mapper_js, mapper_json. intros Heq. apply (f_equal String.length) in Heq.
  rewrite !length_append in Heq. simpl in Heq. lia.
Qed.

(** The end of the scan leaves [mapper.json] with the rendering of the
    mapper when the file can be written, and no [mapper.js] when that
    one can be removed. *)
Lemma emit_mapper_content (mapper : mapper_t) (w : world text) :
  mapper_json script_dir ∉ unwritable w →
  ∃ w', emit_mapper JSON_mapper script_dir mapper w = (w', inr tt)
        ∧ fs w' !! mapper_json script_dir = Some (JSON_mapper mapper)
        ∧ (mapper_js script_dir ∉ unwritable w → fs w' !! mapper_js script_dir = None).
Proof.
  intros Hjson. pose proof mapper_js_not_mapper_json as Hne.
  unfold emit_mapper, write_mapper, io_bind, attempt, existsSync, readFileSync,
    writeFileSync, unlinkSync, log, emit, io_ret. simpl.
  destruct (fs w !! mapper_js script_dir) as [js|] eqn:Hjs.
  - rewrite bool_decide_eq_true_2 by eauto. simpl.
    destruct (decide (mapper_js script_dir ∈ unwritable w)) as [Hro|Hrw]; simpl.
    + destruct (fs w !! mapper_json script_dir) as [cur|] eqn:Hcur.
      * rewrite bool_decide_eq_true_2 by eauto. simpl. rewrite Hcur. simpl.
        destruct (bool_decide (cur = JSON_mapper mapper)) eqn:Hsame; simpl.
        -- apply bool_decide_eq_true in Hsame as ->. eexists. by repeat split.
        -- rewrite decide_False by done. simpl. eexists. split; [done|].
           simpl. rewrite lookup_insert_eq. by split.
      * rewrite bool_decide_eq_false_2 by (by intros [??]). simpl.
        rewrite decide_False by done. simpl. eexists. split; [done|].
        simpl. rewrite lookup_insert_eq. by split.
    + rewrite lookup_delete_ne by done.
      destruct (fs w !! mapper_json script_dir) as [cur|] eqn:Hcur.
      * rewrite bool_decide_eq_true_2 by eauto. simpl. rewrite lookup_delete_ne by done.
        rewrite Hcur. simpl.
        destruct (bool_decide (cur = JSON_mapper mapper)) eqn:Hsame; simpl.
        -- apply bool_decide_eq_true in Hsame as ->. eexists. split; [done|]. simpl.
           rewrite lookup_delete_ne by done. split; [done|]. intros _. apply lookup_delete_eq.
        -- rewrite decide_False by done. simpl. eexists. split; [done|].
           simpl. rewrite lookup_insert_eq. split; [done|]. intros _.
           rewrite lookup_insert_ne by done. apply lookup_delete_eq.
      * rewrite bool_decide_eq_false_2 by (by intros [??]). simpl.
        rewrite decide_False by done. simpl. eexists. split; [done|].
        simpl. rewrite lookup_insert_eq. split; [done|]. intros _.
        rewrite lookup_insert_ne by done. apply lookup_delete_eq.
  - rewrite bool_decide_eq_false_2 by (by intros [??]). simpl.
    destruct (fs w !! mapper_json script_dir) as [cur|] eqn:Hcur.
    + rewrite bool_decide_eq_true_2 by eauto. simpl. rewrite Hcur. simpl.
      destruct (bool_decide (cur = JSON_mapper mapper)) eqn:Hsame; simpl.
      * apply bool_decide_eq_true in Hsame as ->. eexists. by repeat split.
      * rewrite decide_False by done. simpl. eexists. split; [done|].
        simpl. rewrite lookup_insert_eq. split; [done|]. intros _.
        by rewrite lookup_insert_ne by done.
    + rewrite bool_decide_eq_false_2 by (by intros [??]). simpl.
      rewrite decide_False by done. simpl. eexists. split; [done|].
      simpl. rewrite lookup_insert_eq. split; [done|]. intros _.
      by rewrite lookup_insert_ne by done.
Qed.

(** An entry of the mapper is a project directory of the scan with its
    compose file. *)
Definition mapper_entry_ok (dirs : list string)
    (entry : string * (string * list (string * service))) : Prop :=
  fst entry ∈ dirs ∧ fst (snd entry) = compose_file (fst entry).

Lemma alist_set_Forall {A} (P : string * A → Prop) (k : string) (v : A)
    (l : list (string * A)) :
  P (k, v) → Forall P l → Forall P (alist_set k v l).
Proof.
  intros Hkv. induction 1 as [|[k' v'] l Hx Hl IH]; simpl; [by repeat constructor|].
  case_decide; by constructor.
Qed.

Lemma fix_and_write_mapper (dirs : list string) (st st' : census * mapper_t) (it : item)
    (w w' : world text) :
  item_dir it ∈ dirs → item_file it = compose_file (item_dir it) →
  Forall (mapper_entry_ok dirs) (snd st) →
  fix_and_write YAML_stringify NETWORK_prefix st it w = (w', inr st') →
  Forall (mapper_entry_ok dirs) (snd st').
Proof.
  intros Hdir Hfile Hst. unfold fix_and_write.
  destruct (fix_item _ _ it) as [e|[[c' obj'] serviceMapper]]; [done|].
  unfold io_bind, attempt.
  destruct (writeCompose YAML_stringify (item_file it) obj' w) as [w1 [e|b]];
    unfold log, emit, io_ret; simpl; intros [= _ <-]; simpl; [done|].
  by apply alist_set_Forall.
Qed.

Lemma second_pass_mapper (dirs : list string) (items : list item) :
  ∀ (st st' : census * mapper_t) (w w' : world text),
    Forall (λ it, item_dir it ∈ dirs ∧ item_file it = compose_file (item_dir it)) items →
    Forall (mapper_entry_ok dirs) (snd st) →
    io_foldl (fix_and_write YAML_stringify NETWORK_prefix) st items w = (w', inr st') →
    Forall (mapper_entry_ok dirs) (snd st').
Proof.
  induction items as [|it items IH]; intros st st' w w' Hitems Hst; simpl.
  - unfold io_ret. by intros [= _ <-].
  - inversion Hitems as [|? ? [Hdir Hfile] Hrest]; subst. unfold io_bind.
    destruct (fix_and_write _ _ st it w) as [w1 [e|st1]] eqn:Hstep; [done|].
    intros Hfold. eapply IH; [done| |exact Hfold].
    by eapply fix_and_write_mapper.
Qed.

(** [mapper] when the second loop of the scan is done and every
    compose file could be written: each project the second pass went
    through has [{ file, services: serviceMapper }] under its
    directory. *)
Definition add_results (mapper : mapper_t)
    (results : list (item * compose * list (string * service))) : mapper_t :=
  foldl (λ m res, alist_set (item_dir (fst (fst res)))
                            (item_file (fst (fst res)), snd res) m)
        mapper results.

Definition mapper_of_results (results : list (item * compose * list (string * service)))
    : mapper_t :=
  add_results [] results.

Lemma second_pass_mapper_results (items : list item) :
  ∀ (st st' : census * mapper_t) (w w' : world text) c2 results,
    Forall (λ it, item_file it ∉ unwritable w) items →
    io_foldl (fix_and_write YAML_stringify NETWORK_prefix) st items w = (w', inr st') →
    second_pass (NETWORK_base NETWORK_prefix) (fst st) items = inr (c2, results) →
    snd st' = add_results (snd st) results.
Proof.
  induction items as [|it items IH]; intros st st' w w' c2 results Hrw Hrun Hpass;
    cbn [io_foldl second_pass] in *.
  - unfold io_ret in Hrun. injection Hrun as _ <-. by injection Hpass as _ <-.
  - inversion Hrw as [|? ? Hit Hrest]; subst. unfold io_bind at 1 in Hrun.
    unfold fix_and_write at 1 in Hrun.
    destruct (fix_item (NETWORK_base NETWORK_prefix) (fst st) it)
      as [e|[[c1 obj1] sm1]] eqn:Hfix; [done|].
    destruct (second_pass (NETWORK_base NETWORK_prefix) c1 items)
      as [e|[c3 results1]] eqn:Hrest1; [done|].
    injection Hpass as <- <-.
    unfold io_bind at 1, attempt in Hrun.
    destruct (writeCompose_run YAML_stringify (item_file it) obj1 w)
      as (evs & [(_ & Hw & _)|[(_ & _ & Hw & _)|(_ & Hro & _)]]).
    + rewrite Hw in Hrun. unfold io_bind at 1, log, emit, io_ret in Hrun.
      cbn [fs unwritable trace] in Hrun.
      by rewrite (λ H, IH _ _ _ _ _ _ H Hrun Hrest1) by exact Hrest.
    + rewrite Hw in Hrun. unfold io_bind at 1, log, emit, io_ret in Hrun.
      cbn [fs unwritable trace] in Hrun.
      by rewrite (λ H, IH _ _ _ _ _ _ H Hrun Hrest1) by exact Hrest.
    + done.
Qed.


End MapperFile.

(** The sample codec for mapper files. *)
Definition sample_JSON_parse (t : sample_text) : string + option mapper_t :=
  match t with
  | MapperText mapper => inr (Some mapper)
  | _ => inl "SyntaxError: Unexpected token"
  end.


(** The mapper of the sample workspace after a tick: the projects, their
    files and the names of their services. *)
Example mapper_of_sample_workspace :
  let w := sample_world shared_port_workspace in
  let w' := fst (sample_scanAndFix (inr ["/ws/a"; "/ws/b"]) w) in
  match snd (readMapperFile "/srv/console" sample_JSON_parse id w') with
  | inr (Some mapper) =>
      List.map (λ entry, (fst entry, fst (snd entry), List.map fst (snd (snd entry)))) mapper
      = [("/ws/a", "/ws/a/docker-compose.yml", ["web"]);
         ("/ws/b", "/ws/b/docker-compose.yml", ["api"])]
  | _ => False
  end.
Proof. vm_compute. done. Qed.

(** ** Names and the directory of a new project *)

Lemma validateServiceName_project (name : string) :
  validateServiceName name = true → validateProjectName name = true.
Proof.
  unfold validateServiceName, validateProjectName.
  rewrite !andb_true_iff. intros [[Hne Hchars] Hlen]. repeat split; [done| |].
  - rewrite forallb_forall in *. intros c Hc. unfold project_char.
    by rewrite (Hchars c Hc).
  - apply Nat.leb_le in Hlen. apply Nat.leb_le. lia.
Qed.

Lemma validateProjectName_segment (name : string) :
  validateProjectName name = true →
  name ≠ EmptyString ∧ (String.length name ≤ 100)%nat ∧ lacks "/" name.
Proof.
  unfold validateProjectName.
  rewrite !andb_true_iff. intros [[Hne Hchars] Hlen]. repeat split.
  - by intros ->.
  - by apply Nat.leb_le.
  - unfold lacks. intros Hin. rewrite forallb_forall in Hchars.
    apply list_elem_of_In in Hin. by specialize (Hchars _ Hin).
Qed.

(** A name that passes [validateServiceName] also passes
    [validateProjectName]; a name that passes [validateProjectName] is
    not empty, has at most 100 characters and no slash, so it is one
    path segment. It may still be [.] or [..]. *)
Theorem validated_names_are_segments (name : string) :
  (validateServiceName name = true → validateProjectName name = true)
  ∧ (validateProjectName name = true →
     name ≠ EmptyString ∧ (String.length name ≤ 100)%nat ∧ lacks "/" name).
Proof.
  split; [apply validateServiceName_project|apply validateProjectName_segment].
Qed.

Example validateProjectName_samples :
  validateProjectName "my-app_2.0" = true
  ∧ validateProjectName ".." = true
  ∧ validateProjectName "a/b" = false
  ∧ validateProjectName EmptyString = false
  ∧ validateServiceName "web.1" = false
  ∧ validateServiceName "web 1" = false.
Proof. vm_compute. done. Qed.

(** [POST /api/add] up to the copy of the template: the refusal, or the
    template directory and the directory to create. *)
Definition add_target (root : string) (exists_ : string → bool) (name : string)
    : (Z * string) + (string * string) :=
  if String.eqb name EmptyString || String.eqb (trim name) EmptyString
  then inl (400, "Valid name required")
  else if negb (validateProjectName (trim name))
  then inl (400, "Invalid project name. Use only alphanumeric characters, hyphens, underscores, and dots.")
  else
    let appsDir := path_join root "apps" in
    let templateDir := path_join appsDir "template" in
    let newDir := path_join appsDir (trim name) in
    if negb (exists_ templateDir) then inl (404, "Template not found")
    else if exists_ newDir then inl (400, "Project name not available")
    else inr (templateDir, newDir).

Lemma path_join_root (root name : string) :
  path_isAbsolute root = true →
  path_join root name
  = render_path (normalize_segments (rev (path_resolve root EmptyString)) (split_on "/" name)).
Proof.
  intros Hroot. unfold path_join.
  replace (path_isAbsolute (root +:+ "/" +:+ name)) with true.
  - change ("/" +:+ name) with (String "/"%char name).
    by rewrite split_on_append, normalize_segments_app, path_resolve_root.
  - destruct root as [|c root]; [done|]. unfold path_isAbsolute in *.
    change (String c root +:+ ?x) with (String c (root +:+ x)).
    rewrite startsWith_cons in *. destruct (ascii_dec "/" c); [|done].
    by rewrite startsWith_nil.
Qed.

(** When [POST /api/add] goes on to copy the template, the directory it
    creates is a new child of [apps] named by the trimmed name: the
    names [.] and [..] pass the validation but stand for [apps] and the
    workspace root, which exist whenever the template does. *)
Theorem add_target_is_child_of_apps (root : string) (exists_ : string → bool)
    (name templateDir newDir : string) :
  path_isAbsolute root = true →
  (exists_ (path_join (path_join root "apps") "template") = true →
   exists_ (path_join root "apps") = true
   ∧ exists_ (render_path (path_resolve root EmptyString)) = true) →
  add_target root exists_ name = inr (templateDir, newDir) →
  newDir = render_path (path_resolve root EmptyString ++ ["apps"; trim name])
  ∧ clean_segment (trim name)
  ∧ validateProjectName (trim name) = true
  ∧ exists_ newDir = false.
Proof.
  intros Hroot Hparents. unfold add_target.
  destruct (String.eqb name EmptyString || String.eqb (trim name) EmptyString) eqn:Hempty;
    [done|].
  destruct (validateProjectName (trim name)) eqn:Hvalid; [|done]. simpl.
  destruct (exists_ (path_join (path_join root "apps") "template")) eqn:Htemplate; [|done].
  simpl. destruct (exists_ (path_join (path_join root "apps") (trim name))) eqn:Hnew; [done|].
  intros [= <- <-]. destruct (Hparents eq_refl) as [Happs Hrootdir].
  destruct (validateProjectName_segment _ Hvalid) as (Hne & _ & Hslash).
  pose proof (path_resolve_plain root EmptyString) as HR.
  assert (path_join root "apps" = render_path (path_resolve root EmptyString ++ ["apps"]))
    as Happs_eq.
  { rewrite path_join_root by done.
    by rewrite split_on_lacks, normalize_segments_clean_id, rev_involutive
      by (try (unfold lacks; compute_done); by repeat constructor). }
  rewrite Happs_eq in *.
  assert (plain_segments (path_resolve root EmptyString ++ ["apps"])) as Hplain.
  { apply plain_segments_app. split; [done|].
    split; (constructor; [|done]); [by repeat split|unfold lacks; compute_done]. }
  rewrite path_join_segment in Hnew |- * by done.
  destruct (decide (trim name = EmptyString ∨ trim name = ".")) as [[?|Hdot]|Hnot].
  - done.
  - congruence.
  - destruct (decide (trim name = "..")) as [Hup|Hnup].
    + rewrite rev_unit in Hnew. simpl in Hnew. rewrite rev_involutive in Hnew. congruence.
    + rewrite <- app_assoc in Hnew |- *. simpl in *. split; [done|]. split; [|done].
      unfold clean_segment. tauto.
Qed.

Lemma add_target_is_child_of_apps_witness :
  let exists_ := λ p, bool_decide (p ∈ ["/root/Docker"; "/root/Docker/apps";
                                        "/root/Docker/apps/template"]) in
  "/root/Docker/apps/shop" = render_path (path_resolve "/root/Docker" EmptyString
                                            ++ ["apps"; trim " shop "])
  ∧ clean_segment (trim " shop ")
  ∧ validateProjectName (trim " shop ") = true
  ∧ exists_ "/root/Docker/apps/shop" = false.
Proof.
  intros exists_.
  apply (add_target_is_child_of_apps "/root/Docker" exists_ " shop "
           "/root/Docker/apps/template" "/root/Docker/apps/shop").
  - reflexivity.
  - intros _. split; reflexivity.
  - reflexivity.
Defined.

(** ** More on the scan and on the terminal counter *)

(** The first pass only reads: whatever the files hold, it returns and
    leaves every file as it was. *)
Theorem first_pass_reads_only {text} (YAML_parse : text → string + option parsed)
    (dirs : list string) (st : census * list item) (w : world text) :
  ∃ w' st',
    io_foldl (scan_project YAML_parse) st dirs w = (w', inr st')
    ∧ fs w' = fs w ∧ unwritable w' = unwritable w
    ∧ ∃ evs, trace w' = (trace w ++ evs)%list ∧ Forall quiet_event evs.
Proof.
  destruct (first_pass_run YAML_parse dirs st w) as (evs & Hrun & Hquiet).
  eexists _, _. split; [exact Hrun|]. simpl. repeat split. by exists evs.
Qed.

(** At any moment the counter is the number of connections that were
    counted up and have neither been refused nor had their cleanup
    run. *)
Theorem counter_counts_open_connections (evs : list ws_event) :
  default 0 (activeTerminalCount (ws_run ws_init evs))
  = count_open (conns (ws_run ws_init evs)).
Proof. by apply (ws_run_inv evs ws_init). Qed.

(** ** The compose project name *)

(** [c.toLowerCase()] on a letter or digit. *)
Definition to_lower (c : ascii) : ascii :=
  let n := N_of_ascii c in
  if ((65 <=? n) && (n <=? 90))%N then ascii_of_N (n + 32) else c.

(** [name.replace(/[^A-Za-z0-9]/g, '').toLowerCase() || 'project']. *)
Definition safe_name (name : string) : string :=
  let kept := string_of_list_ascii
                (to_lower <$> filter (λ c, is_alnum c = true) (list_ascii_of_string name)) in
  if String.eqb kept EmptyString then "project" else kept.

(** [COMPOSE_PROJECT_NAME] as the handlers derive it from the compose
    file. *)
Definition compose_project_name (composeFile : string) : string :=
  safe_name (path_basename (path_dirname composeFile)).

Definition lower_or_digit (c : ascii) : bool :=
  let n := N_of_ascii c in (((48 <=? n) && (n <=? 57)) || ((97 <=? n) && (n <=? 122)))%N.

Lemma to_lower_alnum (c : ascii) : is_alnum c = true → lower_or_digit (to_lower c) = true.
Proof.
  unfold is_alnum, lower_or_digit, to_lower. cbv zeta.
  generalize (N_ascii_bounded c).
  destruct (N.leb_spec 65 (N_of_ascii c)), (N.leb_spec (N_of_ascii c) 90);
    cbn [andb orb]; rewrite ?orb_false_r; intros Hb Hc; try exact Hc.
  rewrite N_ascii_embedding by lia.
  apply orb_true_iff. right. apply andb_true_iff. split; apply N.leb_le; lia.
Qed.

(** Whatever the directory is called, the project name is not empty
    and made of lower-case letters and digits only. *)
Theorem safe_name_valid (name : string) :
  safe_name name ≠ EmptyString
  ∧ Forall (λ c, lower_or_digit c = true) (list_ascii_of_string (safe_name name)).
Proof.
  unfold safe_name.
  destruct (String.eqb_spec
              (string_of_list_ascii
                 (to_lower <$> filter (λ c, is_alnum c = true) (list_ascii_of_string name)))
              EmptyString) as [_|Hne].
  - split; [done|]. by repeat constructor.
  - split; [done|]. rewrite list_ascii_of_string_of_list_ascii.
    apply Forall_fmap, Forall_forall. intros c Hc.
    apply list_elem_of_filter in Hc as [Hc _]. by apply to_lower_alnum.
Qed.

(** Directories whose names differ only in case or punctuation share
    one project name. *)
Example compose_project_name_samples :
  compose_project_name "/root/Docker/apps/my-app/docker-compose.yml" = "myapp"
  ∧ compose_project_name "/root/Docker/apps/MyApp/docker-compose.yml" = "myapp"
  ∧ compose_project_name "/root/Docker/apps/--/docker-compose.yml" = "project"
  ∧ compose_project_name "docker-compose.yml" = "project".
Proof. vm_compute. done. Qed.

(** ** The parser of [GET /api/nginx] *)

(** [{ header, type: 'stmt', body: null }] and
    [{ header, type: 'block', body }]. *)
Inductive parsed_block :=
  | Stmt (header : string)
  | Block (header body : string).

Definition is_delim (c : ascii) : bool :=
  Ascii.eqb c "{"%char || Ascii.eqb c ";"%char.

(** The inner [while] of [parseBlocks], started at a character that is
    not white space: [s.slice(i, j)] and the text from [j] on. *)
Fixpoint span_delim (s : string) : string * string :=
  match s with
  | EmptyString => (EmptyString, EmptyString)
  | String c rest =>
      if is_delim c then (EmptyString, s)
      else let '(h, t) := span_delim rest in (String c h, t)
  end.

(** The [for] loop over [k] with the [depth] it has reached: the text
    before the brace at which it breaks and the text after that brace;
    all of the text and nothing when it runs to the end. *)
Fixpoint match_brace (depth : Z) (s : string) : string * string :=
  match s with
  | EmptyString => (EmptyString, EmptyString)
  | String c rest =>
      if Ascii.eqb c "{"%char then
        let '(b, a) := match_brace (depth + 1) rest in (String c b, a)
      else if Ascii.eqb c "}"%char then
        if depth - 1 =? 0 then (EmptyString, rest)
        else let '(b, a) := match_brace (depth - 1) rest in (String c b, a)
      else let '(b, a) := match_brace depth rest in (String c b, a)
  end.

Definition string_tail (s : string) : string :=
  match s with
  | String _ rest => rest
  | EmptyString => EmptyString
  end.

(** The outer [while], on the text from [i] on; every turn moves [i]
    forward, so as many turns as the text has characters are enough. *)
Fixpoint parse_loop (fuel : nat) (s : string) : list parsed_block :=
  match fuel with
  | O => []
  | S fuel =>
      match s with
      | EmptyString => []
      | String c rest =>
          if is_js_space c then parse_loop fuel rest
          else
            let '(header, tail) := span_delim s in
            match tail with
            | EmptyString => []
            | String d after_d =>
                if Ascii.eqb d ";"%char then Stmt (trim header) :: parse_loop fuel after_d
                else
                  let '(opened, after) := match_brace 0 tail in
                  Block (trim header) (trim (string_tail opened)) :: parse_loop fuel after
            end
      end
  end.

Definition parseBlocks (s : string) : list parsed_block :=
  parse_loop (String.length s) s.

(** The braces of [s] pair up: the usual check with a counter. *)
Fixpoint braces_balanced (open : nat) (s : string) : bool :=
  match s with
  | EmptyString => bool_decide (open = 0%nat)
  | String c rest =>
      if Ascii.eqb c "{"%char then braces_balanced (S open) rest
      else if Ascii.eqb c "}"%char then
        match open with
        | O => false
        | S open' => braces_balanced open' rest
        end
      else braces_balanced open rest
  end.

Definition no_delim (s : string) : Prop :=
  lacks "{"%char s ∧ lacks ";"%char s.

Lemma append_cons (c : ascii) (a b : string) : String c a +:+ b = String c (a +:+ b).
Proof. reflexivity. Qed.

Lemma no_delim_cons (c : ascii) (s : string) :
  no_delim (String c s) → is_delim c = false ∧ no_delim s.
Proof.
  unfold no_delim, lacks. cbn [list_ascii_of_string]. intros [H1 H2].
  rewrite !not_elem_of_cons in H1, H2. destruct H1 as [H1 H1'], H2 as [H2 H2'].
  split; [|done]. unfold is_delim. apply orb_false_iff.
  split; apply Ascii.eqb_neq; congruence.
Qed.

Lemma is_delim_not_space (d : ascii) : is_delim d = true → is_js_space d = false.
Proof.
  unfold is_delim. intros [H|H]%orb_true_iff; apply Ascii.eqb_eq in H; by subst.
Qed.

Lemma span_delim_length (s : string) :
  (String.length (span_delim s).2 ≤ String.length s)%nat.
Proof.
  induction s as [|c s IH]; [done|]. cbn [span_delim].
  destruct (is_delim c); [done|].
  destruct (span_delim s) as [h t]. cbn in *. lia.
Qed.

Lemma span_delim_tail (s h t : string) (d : ascii) :
  span_delim s = (h, String d t) → is_delim d = true.
Proof.
  revert h. induction s as [|c s IH]; intros h; [done|]. cbn [span_delim].
  destruct (is_delim c) eqn:Hc.
  - intros [= _ <- _]. done.
  - destruct (span_delim s) as [h' t']. intros [= _ ->]. by eapply IH.
Qed.

Lemma span_delim_app (h x : string) (d : ascii) :
  no_delim h → is_delim d = true → span_delim (h +:+ String d x) = (h, String d x).
Proof.
  intros Hh Hd. induction h as [|c h IH].
  - change (EmptyString +:+ String d x) with (String d x). cbn [span_delim]. by rewrite Hd.
  - apply no_delim_cons in Hh as [Hc Hh]. rewrite append_cons. cbn [span_delim].
    rewrite Hc, (IH Hh). done.
Qed.

Lemma match_brace_length (depth : Z) (s : string) :
  (String.length (match_brace depth s).2 ≤ String.length s)%nat.
Proof.
  revert depth. induction s as [|c s IH]; intros depth; [done|]. cbn [match_brace].
  destruct (Ascii.eqb c "{").
  - specialize (IH (depth + 1)). destruct (match_brace (depth + 1) s). cbn in *. lia.
  - destruct (Ascii.eqb c "}").
    + destruct (depth - 1 =? 0); [cbn; lia|].
      specialize (IH (depth - 1)). destruct (match_brace (depth - 1) s). cbn in *. lia.
    + specialize (IH depth). destruct (match_brace depth s). cbn in *. lia.
Qed.

(** The turns left over are never needed. *)
Lemma parse_loop_fuel (n m : nat) (s : string) :
  (String.length s ≤ n)%nat → (String.length s ≤ m)%nat → parse_loop n s = parse_loop m s.
Proof.
  revert m s. induction n as [|n IH]; intros m s Hn Hm.
  - destruct s; [|cbn in Hn; lia]. by destruct m.
  - destruct m as [|m]; [destruct s; [done|cbn in Hm; lia]|].
    destruct s as [|c s]; [done|]. cbn [String.length] in Hn, Hm.
    cbn [parse_loop]. destruct (is_js_space c); [apply IH; lia|].
    pose proof (span_delim_length (String c s)) as Hlen.
    destruct (span_delim (String c s)) as [h t] eqn:Hspan.
    destruct t as [|d t]; [done|]. cbn [snd String.length] in Hlen.
    destruct (Ascii.eqb d ";") eqn:Hd; [f_equal; apply IH; lia|].
    pose proof (span_delim_tail _ _ _ _ Hspan) as Hdelim.
    unfold is_delim in Hdelim. rewrite Hd, orb_false_r in Hdelim.
    cbn [match_brace]. rewrite Hdelim.
    pose proof (match_brace_length (0 + 1) t) as Hlen'.
    destruct (match_brace (0 + 1) t) as [b a]. cbn [snd] in Hlen'.
    f_equal. apply IH; lia.
Qed.

Lemma trim_space_cons (c : ascii) (s : string) :
  is_js_space c = true → trim (String c s) = trim s.
Proof. intros Hc. unfold trim. cbn [trim_start]. by rewrite Hc. Qed.

(** One item at the front of the text: what the loop makes of it and
    where it goes on. *)
Lemma parse_loop_item (n : nat) (h x : string) (d : ascii) :
  no_delim h → is_delim d = true →
  (String.length (h +:+ String d x) ≤ n)%nat →
  parse_loop n (h +:+ String d x)
  = if Ascii.eqb d ";"%char then Stmt (trim h) :: parse_loop (String.length x) x
    else let '(opened, after) := match_brace 0 (String d x) in
         Block (trim h) (trim (string_tail opened))
           :: parse_loop (String.length after) after.
Proof.
  intros Hh Hd. revert n. induction h as [|c h IH]; intros n Hn.
  - change (EmptyString +:+ String d x) with (String d x) in *.
    destruct n as [|n]; [cbn in Hn; lia|]. cbn [String.length] in Hn.
    cbn [parse_loop]. rewrite (is_delim_not_space d Hd).
    cbn [span_delim]. rewrite Hd.
    destruct (Ascii.eqb d ";") eqn:Hsemi.
    + f_equal. apply parse_loop_fuel; lia.
    + pose proof (match_brace_length 0 (String d x)) as Hlen.
      unfold is_delim in Hd. rewrite Hsemi, orb_false_r in Hd.
      cbn [match_brace] in *. rewrite Hd in *.
      pose proof (match_brace_length (0 + 1) x) as Hlen'.
      destruct (match_brace (0 + 1) x) as [b a]. cbn [snd] in Hlen'.
      f_equal. apply parse_loop_fuel; lia.
  - rewrite append_cons in *. destruct n as [|n]; [cbn in Hn; lia|].
    cbn [String.length] in Hn. pose proof (no_delim_cons _ _ Hh) as [Hc Hh'].
    cbn [parse_loop]. destruct (is_js_space c) eqn:Hsp.
    + rewrite (IH Hh') by lia. by rewrite (trim_space_cons c h Hsp).
    + rewrite <- append_cons, (span_delim_app (String c h) x d Hh Hd).
      rewrite length_append in Hn. cbn [String.length] in Hn.
      destruct (Ascii.eqb d ";") eqn:Hsemi.
      * f_equal. apply parse_loop_fuel; lia.
      * unfold is_delim in Hd. rewrite Hsemi, orb_false_r in Hd.
        cbn [match_brace]. rewrite Hd.
        pose proof (match_brace_length (0 + 1) x) as Hlen'.
        destruct (match_brace (0 + 1) x) as [b a]. cbn [snd] in Hlen'.
        f_equal. apply parse_loop_fuel; lia.
Qed.

(** Inside balanced text the loop does not stop; it goes on behind it
    with the depth it came with. *)
Lemma match_brace_balanced (open : nat) (body t : string) (depth : Z) :
  braces_balanced open body = true → 1 ≤ depth →
  match_brace (depth + Z.of_nat open) (body +:+ t)
  = (body +:+ (match_brace depth t).1, (match_brace depth t).2).
Proof.
  revert open. induction body as [|c body IH]; intros open Hb Hdepth.
  - cbn in Hb. apply bool_decide_eq_true in Hb as ->.
    change (EmptyString +:+ t) with t. rewrite Z.add_0_r.
    by destruct (match_brace depth t).
  - rewrite !append_cons. cbn [braces_balanced match_brace] in *.
    destruct (Ascii.eqb c "{").
    + replace (depth + Z.of_nat open + 1) with (depth + Z.of_nat (S open)) by lia.
      by rewrite (IH _ Hb Hdepth).
    + destruct (Ascii.eqb c "}").
      * destruct open as [|open]; [done|].
        replace (depth + Z.of_nat (S open) - 1) with (depth + Z.of_nat open) by lia.
        destruct (Z.eqb_spec (depth + Z.of_nat open) 0) as [Hz|_]; [lia|].
        by rewrite (IH _ Hb Hdepth).
      * by rewrite (IH _ Hb Hdepth).
Qed.

(** A directive that ends in a semicolon is one statement, its header
    trimmed, and the parser goes on behind the semicolon. *)
Theorem parseBlocks_statement (h rest : string) :
  no_delim h →
  parseBlocks (h +:+ ";" +:+ rest) = Stmt (trim h) :: parseBlocks rest.
Proof.
  intros Hh. unfold parseBlocks.
  change (";" +:+ rest) with (String ";" rest).
  by rewrite (parse_loop_item _ h rest ";" Hh).
Qed.

Lemma parseBlocks_statement_witness :
  no_delim "  listen 80"
  ∧ parseBlocks "  listen 80; server_name a.example;"
    = Stmt "listen 80" :: parseBlocks " server_name a.example;".
Proof.
  assert (no_delim "  listen 80") as Hh by (split; compute_done).
  split; [exact Hh|].
  exact (parseBlocks_statement "  listen 80" " server_name a.example;" Hh).
Defined.

(** A header followed by a body in braces is one block when the braces
    of the body pair up: the body is the text between the two braces,
    trimmed, and the parser goes on behind the closing one. *)
Theorem parseBlocks_block (h body rest : string) :
  no_delim h → braces_balanced 0 body = true →
  parseBlocks (h +:+ "{" +:+ body +:+ "}" +:+ rest)
  = Block (trim h) (trim body) :: parseBlocks rest.
Proof.
  intros Hh Hb. unfold parseBlocks.
  change ("{" +:+ body +:+ "}" +:+ rest) with (String "{" (body +:+ String "}" rest)).
  rewrite (parse_loop_item _ h _ "{" Hh) by done.
  change (Ascii.eqb "{" ";") with false. cbn iota.
  change (match_brace 0 (String "{" (body +:+ String "}" rest)))
    with (let '(b, a) := match_brace (0 + 1) (body +:+ String "}" rest) in
          (String "{"%char b, a)).
  pose proof (match_brace_balanced 0 body (String "}" rest) 1 Hb) as Hm.
  rewrite Z.add_0_r in Hm. change (0 + 1) with 1. rewrite Hm by lia.
  change (match_brace 1 (String "}" rest)) with (EmptyString, rest).
  cbn [fst snd string_tail]. by rewrite append_nil_r.
Qed.

Lemma parseBlocks_block_witness :
  no_delim "upstream app " ∧ braces_balanced 0 " server 10.0.0.2:80; " = true
  ∧ parseBlocks "upstream app { server 10.0.0.2:80; } server { listen 80; }"
    = Block "upstream app" "server 10.0.0.2:80;" :: parseBlocks " server { listen 80; }".
Proof.
  assert (no_delim "upstream app ") as Hh by (split; compute_done).
  split; [exact Hh|]. split; [reflexivity|].
  exact (parseBlocks_block "upstream app " " server 10.0.0.2:80; "
           " server { listen 80; }" Hh eq_refl).
Defined.

(** Text without a semicolon or an opening brace gives nothing: a
    last directive that lacks its semicolon is dropped. *)
Theorem parseBlocks_unterminated (s : string) :
  no_delim s → parseBlocks s = [].
Proof.
  unfold parseBlocks. generalize (String.length s) as n. intros n. revert s.
  induction n as [|n IH]; intros s Hs; [done|].
  destruct s as [|c s]; [done|]. cbn [parse_loop].
  pose proof (no_delim_cons _ _ Hs) as [Hc Hs'].
  destruct (is_js_space c); [by apply IH|].
  assert (∀ x, no_delim x → (span_delim x).2 = EmptyString) as Hspan.
  { clear. induction x as [|c x IHx]; intros Hx; [done|].
    apply no_delim_cons in Hx as [Hc Hx]. cbn [span_delim]. rewrite Hc.
    specialize (IHx Hx). by destruct (span_delim x). }
  specialize (Hspan _ Hs). by destruct (span_delim (String c s)) as [h [|d t]].
Qed.

Lemma parseBlocks_unterminated_witness :
  no_delim "worker_processes 4" ∧ parseBlocks "worker_processes 4" = [].
Proof.
  assert (no_delim "worker_processes 4") as Hs by (split; compute_done).
  split; [exact Hs|]. exact (parseBlocks_unterminated "worker_processes 4" Hs).
Defined.

(** A block that is never closed takes the rest of the text, and a
    brace in a comment counts like any other. *)
Example parseBlocks_samples :
  parseBlocks "upstream app { server 10.0.0.2:80; } server { listen 80; location / { proxy_pass http://app; } }"
  = [Block "upstream app" "server 10.0.0.2:80;";
     Block "server" "listen 80; location / { proxy_pass http://app; }"]
  ∧ parseBlocks "server { listen 80; upstream app { server 10.0.0.2:80; }"
    = [Block "server" "listen 80; upstream app { server 10.0.0.2:80; }"]
  ∧ parseBlocks "server { # not a } brace; listen 80; } gzip on;"
    = [Block "server" "# not a"; Stmt "brace"; Stmt "listen 80"; Stmt "} gzip on"].
Proof. vm_compute. done. Qed.

(** ** [POST /api/delete] *)

Inductive delete_outcome :=
  | DeleteRefused (status : Z) (error : string)
  | DeleteRemoves (projectDir : string).

(** The handler up to [fs.rmSync(projectDir, { recursive: true, force:
    true })], for a body whose [path] and [confirmName] are strings.
    [running composeFile] is what [docker compose ps] reports as
    running, [inl] when the call throws, which the handler ignores. *)
Definition delete_request (root : string) (exists_ : string → bool)
    (running : string → string + list string) (projectPath confirmName : string)
    : delete_outcome :=
  if String.eqb projectPath EmptyString || String.eqb confirmName EmptyString
  then DeleteRefused 400 "Valid path and confirmName required"
  else
    let appsDir := path_join root "apps" in
    let projectDir := path_join appsDir (path_basename projectPath) in
    let expectedName := path_basename projectPath in
    if negb (exists_ projectDir) then DeleteRefused 404 "Project not found"
    else if negb (String.eqb confirmName expectedName)
    then DeleteRefused 400 "Confirmation name does not match project name"
    else if String.eqb expectedName "template"
    then DeleteRefused 400 "Cannot delete the template project"
    else
      let composeFile := path_join projectDir "docker-compose.yml" in
      if exists_ composeFile
         && match running composeFile with
            | inr (_ :: _) => true
            | _ => false
            end
      then DeleteRefused 400
             "Cannot delete project with running services. Please stop all services first."
      else DeleteRemoves projectDir.

Lemma path_join_apps (root : string) :
  path_isAbsolute root = true →
  path_join root "apps" = render_path (path_resolve root EmptyString ++ ["apps"])
  ∧ plain_segments (path_resolve root EmptyString ++ ["apps"]).
Proof.
  intros Hroot. split.
  - rewrite path_join_root by done.
    by rewrite split_on_lacks, normalize_segments_clean_id, rev_involutive
      by (try (unfold lacks; compute_done); by repeat constructor).
  - apply plain_segments_app. split; [apply path_resolve_plain|].
    split; (constructor; [|done]); [by repeat split|unfold lacks; compute_done].
Qed.

(** The directory [POST /api/delete] removes exists, carries the name
    the request confirmed and is not the template. It is the child
    [apps/<name>] of the workspace, unless the name is [.] or [..]:
    then it is [apps] itself or the workspace root. *)
Theorem delete_request_target (root : string) (exists_ : string → bool)
    (running : string → string + list string) (projectPath confirmName dir : string) :
  path_isAbsolute root = true →
  delete_request root exists_ running projectPath confirmName = DeleteRemoves dir →
  let workspace := path_resolve root EmptyString in
  confirmName = path_basename projectPath
  ∧ confirmName ≠ "template"
  ∧ exists_ dir = true
  ∧ dir = render_path (if decide (confirmName = ".") then workspace ++ ["apps"]
                       else if decide (confirmName = "..") then workspace
                       else workspace ++ ["apps"; confirmName])%list.
Proof.
  intros Hroot. unfold delete_request.
  destruct (String.eqb projectPath EmptyString || String.eqb confirmName EmptyString)
    eqn:Hempty; [done|].
  apply orb_false_iff in Hempty as [_ Hconfirm]. apply String.eqb_neq in Hconfirm.
  destruct (exists_ (path_join (path_join root "apps") (path_basename projectPath)))
    eqn:Hexists; [|done]. cbn [negb].
  destruct (String.eqb_spec confirmName (path_basename projectPath)) as [->|]; [|done].
  cbn [negb]. pose proof (path_basename_lacks_slash projectPath) as Hslash.
  remember (path_basename projectPath) as name eqn:Hname.
  destruct (String.eqb_spec name "template") as [|Htemplate]; [done|].
  intros Hdir.
  assert (dir = path_join (path_join root "apps") name) as ->.
  { destruct (exists_ (path_join _ "docker-compose.yml") && _); congruence. }
  clear Hdir. split; [done|]. split; [done|]. split; [done|].
  destruct (path_join_apps root Hroot) as [-> Hplain].
  rewrite path_join_segment by done.
  f_equal. destruct (decide (name = EmptyString ∨ name = ".")) as [[? | ->] | Hnot].
  - done.
  - done.
  - rewrite (decide_False (P := name = ".")) by (intros ?; apply Hnot; by right).
    destruct (decide (name = "..")) as [_|_].
    + rewrite rev_unit. cbn [tail]. by rewrite rev_involutive.
    + by rewrite <- app_assoc.
Qed.

Lemma delete_request_target_witness :
  let exists_ := λ p, bool_decide (p ∈ ["/root/Docker"; "/root/Docker/apps";
                                        "/root/Docker/apps/shop"]) in
  let workspace := path_resolve "/root/Docker" EmptyString in
  "shop" = path_basename "/root/Docker/apps/shop"
  ∧ "shop" ≠ "template"
  ∧ exists_ "/root/Docker/apps/shop" = true
  ∧ "/root/Docker/apps/shop"
    = render_path (if decide ("shop" = ".") then workspace ++ ["apps"]
                   else if decide ("shop" = "..") then workspace
                   else workspace ++ ["apps"; "shop"])%list.
Proof.
  intros exists_.
  apply (delete_request_target "/root/Docker" exists_ (λ _, inr [])
           "/root/Docker/apps/shop" "shop" "/root/Docker/apps/shop").
  - reflexivity.
  - reflexivity.
Defined.

(** A request that names [..] and confirms [..] is not refused: when
    no service is reported running, the handler removes the workspace
    root. *)
Theorem delete_request_parent (root : string) (exists_ : string → bool)
    (running : string → string + list string) (projectPath : string) :
  path_isAbsolute root = true →
  path_basename projectPath = ".." →
  exists_ (render_path (path_resolve root EmptyString)) = true →
  (∀ composeFile, running composeFile = inr [] ∨ ∃ e, running composeFile = inl e) →
  delete_request root exists_ running projectPath ".."
  = DeleteRemoves (render_path (path_resolve root EmptyString)).
Proof.
  intros Hroot Hbase Hexists Hrunning. unfold delete_request. rewrite Hbase.
  destruct (path_join_apps root Hroot) as [-> Hplain].
  rewrite path_join_segment by (done || unfold lacks; compute_done).
  rewrite decide_False by (intros [?|?]; done). rewrite decide_True by done.
  rewrite rev_unit. cbn [tail]. rewrite rev_involutive, Hexists.
  assert (projectPath ≠ EmptyString) as Hne by (by intros ->).
  apply String.eqb_neq in Hne. rewrite Hne. cbn [orb negb String.eqb Ascii.eqb Bool.eqb].
  cbn.
  match goal with
  | |- context [running ?f] => destruct (Hrunning f) as [->|[e ->]]
  end; by rewrite andb_false_r.
Qed.

Lemma delete_request_parent_witness :
  let exists_ := λ p, bool_decide (p ∈ ["/root/Docker"; "/root/Docker/apps"]) in
  delete_request "/root/Docker" exists_ (λ _, inr []) "apps/.." ".."
  = DeleteRemoves (render_path (path_resolve "/root/Docker" EmptyString)).
Proof.
  intros exists_.
  apply (delete_request_parent "/root/Docker" exists_ (λ _, inr []) "apps/..").
  - reflexivity.
  - reflexivity.
  - reflexivity.
  - intros _. by left.
Defined.

(** ** The port probe and the mapper files *)

(** The port the second pass moves a duplicate to is the smallest one
    from 10000 on that [usedHostPorts] does not hold. *)
Theorem nextHostPort_smallest_free (used : gset Z) :
  10000 ≤ nextHostPort used
  ∧ (nextHostPort used ∉ used)
  ∧ ∀ q, 10000 ≤ q < nextHostPort used → q ∈ used.
Proof. exact (nextHostPort_spec (λ _ _, true) EmptyString (inl EmptyString) used). Qed.

(** The end of the scan never throws and touches no file but
    [mapper.json] and [mapper.js]. *)
Theorem emit_mapper_touches_mapper_files_only {text} `{EqDecision text}
    (JSON_mapper : mapper_t → text) (script_dir : string) (mapper : mapper_t)
    (w : world text) :
  ∃ w', emit_mapper JSON_mapper script_dir mapper w = (w', inr tt)
        ∧ unwritable w' = unwritable w
        ∧ ∀ p, p ≠ mapper_js script_dir → p ≠ mapper_json script_dir →
               fs w' !! p = fs w !! p.
Proof. apply emit_mapper_run. Qed.

(** ** The order of the handlers *)

(** What the calls of [app.use], [app.get] and [app.post] put on the
    stack of the application. *)
Inductive layer :=
  | Library (name : string)
  | SecurityHeaders
  | Route (method path : string)
  | ApiGuard.

(** The stack in the order of the calls: the guard of [/api/] is the
    last of them. *)
Definition app_stack : list layer :=
  [Library "cors"; SecurityHeaders; Library "express.json"; Library "express.static";
   Route "GET" "/favicon.ico";
   Route "GET" "/api/mapper";
   Route "GET" "/api/next-ip";
   Route "GET" "/api/networks";
   Route "POST" "/api/networks/create";
   Route "POST" "/api/networks/delete";
   Route "POST" "/api/networks/update";
   Route "GET" "/api/status";
   Route "POST" "/api/attach";
   Route "GET" "/api/nginx";
   Route "POST" "/api/nginx/save";
   Route "POST" "/api/stop";
   Route "POST" "/api/restart";
   Route "POST" "/api/apply";
   Route "POST" "/api/add";
   Route "POST" "/api/rename";
   Route "POST" "/api/delete";
   Route "POST" "/api/save-config";
   Route "GET" "/api/config";
   Route "GET" "/api/config-files";
   Route "GET" "/api/stats";
   Route "POST" "/api/login";
   ApiGuard].

Record http_request := HttpRequest {
  http_method : string;
  http_path : string;
  http_token : option string;
  http_ip : option string
}.

Definition lower (s : string) : string :=
  string_of_list_ascii (to_lower <$> list_ascii_of_string s).

(** A route answers the requests of its method, [HEAD] as well when
    the method is [GET], whose path is its own, in any letter case and
    with or without a slash at the end. The paths of [app_stack] are in
    lower case. *)
Definition route_matches (method path : string) (req : http_request) : bool :=
  (String.eqb (http_method req) method
   || (String.eqb (http_method req) "HEAD" && String.eqb method "GET"))
  && (String.eqb (lower (http_path req)) path
      || String.eqb (lower (http_path req)) (path +:+ "/")).

(** [req.path] inside [app.use('/api/', ...)]: the path without the
    mount point; [None] when the path is not under it. *)
Definition under_api (path : string) : option string :=
  if String.eqb (lower path) "/api" then Some "/"
  else if startsWith "/api/" (lower path)
  then Some (String.substring 4 (String.length path - 4) path)
  else None.

(** Where a request ends. [HandledBy]: the handler of the route has
    the request, and what it does is its own ([POST /api/login] is the
    one handler that changes [sessions] and [authAttempts]).
    [RefusedByGuard] and [PassedGuard]: the guard has called
    [authMiddleware], which left the sessions as given and refused, or
    called [next()], after which the request went where [next] says. *)
Inductive routing :=
  | EndedBy (name : string)
  | HandledBy (method path : string)
  | RefusedByGuard (after : auth_state) (status : Z) (error : string)
  | PassedGuard (after : auth_state) (next : routing)
  | NotFound.

(** One request through the stack, with the sessions as they are when
    it comes in. [passes name req] tells whether the library middleware
    [name] calls [next()] on the request; the middleware of the
    security headers always does; the handler of a route takes no
    [next], so no later layer sees the request; a request that gets
    past the last layer is answered 404. *)
Fixpoint dispatch (passes : string → http_request → bool) (now : Z) (stack : list layer)
    (req : http_request) (s : auth_state) : routing :=
  match stack with
  | [] => NotFound
  | Library name :: rest =>
      if passes name req then dispatch passes now rest req s else EndedBy name
  | SecurityHeaders :: rest => dispatch passes now rest req s
  | Route method path :: rest =>
      if route_matches method path req then HandledBy method path
      else dispatch passes now rest req s
  | ApiGuard :: rest =>
      match under_api (http_path req) with
      | None => dispatch passes now rest req s
      | Some sub =>
          if String.eqb sub "/login" || String.eqb sub "/stats" || String.eqb sub "/mapper"
          then dispatch passes now rest req s
          else
            match authMiddleware (http_token req) (http_ip req) now s with
            | (s', AuthNext) => PassedGuard s' (dispatch passes now rest req s')
            | (s', AuthRefused status error) => RefusedByGuard s' status error
            end
      end
  end.

Lemma dispatch_before_guard (passes : string → http_request → bool) (now : Z)
    (pre rest : list layer) (req : http_request) (s : auth_state) (m p : string) :
  ApiGuard ∉ pre → Route m p ∈ pre → route_matches m p req = true →
  (∃ name, dispatch passes now (pre ++ rest) req s = EndedBy name)
  ∨ ∃ m' p', Route m' p' ∈ pre ∧ route_matches m' p' req = true
             ∧ dispatch passes now (pre ++ rest) req s = HandledBy m' p'.
Proof.
  intros Hguard Hin Hmatch. induction pre as [|l pre IH]; [by apply elem_of_nil in Hin|].
  apply not_elem_of_cons in Hguard as [Hl Hguard].
  assert (Route m p ∈ pre →
          (∃ name, dispatch passes now (pre ++ rest) req s = EndedBy name)
          ∨ ∃ m' p', Route m' p' ∈ l :: pre ∧ route_matches m' p' req = true
                     ∧ dispatch passes now (pre ++ rest) req s = HandledBy m' p') as Hrest.
  { intros Hin'. destruct (IH Hguard Hin') as [Hended|(m' & p' & ? & ? & ?)]; [by left|].
    right. exists m', p'. split; [by right|done]. }
  apply elem_of_cons in Hin as [<-|Hin].
  - cbn [app dispatch]. rewrite Hmatch. right. exists m, p. split; [by left|done].
  - destruct l as [name| |m0 p0|]; cbn [app dispatch]; [| |..|done].
    + destruct (passes name req); [by apply Hrest|]. left. by eexists.
    + by apply Hrest.
    + destruct (route_matches m0 p0 req) eqn:Hm0; [|by apply Hrest].
      right. exists m0, p0. split; [by left|done].
Qed.



(** Without a token: a request to delete a project reaches its
    handler, in any letter case of the path; one to a path that no
    route has is refused by the guard; one to a path the guard exempts
    is not checked and not found. *)
Example dispatch_samples :
  dispatch (λ _ _, true) 0 app_stack
    (HttpRequest "POST" "/api/delete" None (Some "203.0.113.9")) auth_init
  = HandledBy "POST" "/api/delete"
  ∧ dispatch (λ _ _, true) 0 app_stack
      (HttpRequest "GET" "/API/Config/" None (Some "203.0.113.9")) auth_init
    = HandledBy "GET" "/api/config"
  ∧ dispatch (λ _ _, true) 0 app_stack
      (HttpRequest "GET" "/api/unknown" None (Some "203.0.113.9")) auth_init
    = RefusedByGuard auth_init 401 "Unauthorized"
  ∧ dispatch (λ _ _, true) 0 app_stack
      (HttpRequest "PUT" "/api/login" None (Some "203.0.113.9")) auth_init
    = NotFound.
Proof. vm_compute. done. Qed.
